(** * NoseParticleGeneration.py: seed particles for an exhaled-droplet CFD run

    A shallow embedding of [NoseParticleGeneration.py] and the properties of
    its emission scheduler, region samplers, geometric transform and record
    writer.

    Python floats are IEEE-754 binary64 values, modelled by Rocq's primitive
    [float]; Python integers are [Z].  The interpreter state the script
    touches (the random generator, the output file, standard output) is
    threaded explicitly through a small state-and-exception monad.  The one
    unbounded loop of the script, the rejection loop of [GenNostril], is
    given a fuel argument; running out of fuel is reported as [Running], the
    loop still spinning. *)

From Stdlib Require Import String Ascii ZArith List Bool Lia Arith.
From Stdlib Require Import Floats DecimalString Sorted.
Import ListNotations.

#[local] Set Warnings "-inexact-float".
#[local] Open Scope Z_scope.

(* ================================================================== *)
(** * The Python runtime the script relies on *)
(* ================================================================== *)

Module Py.

(** Exceptions the operations used by the script can raise. *)
Inductive exn : Type :=
| IndexError
| ValueError
| ZeroDivisionError
| OverflowError.

(** Result of an expression without side effects. *)
Inductive res (A : Type) : Type :=
| Ok (a : A)
| Err (e : exn).
Arguments Ok {A} a.
Arguments Err {A} e.

(** The part of the interpreter state the script reads or writes:
    - [draws], [cursor]: the module-level generator of [random]; [draws] is
      the sequence of values [random.random()] is going to return and
      [cursor] the number of values already consumed;
    - [file]: the strings written to [ParticleInitial.dat], in order;
    - [stdout]: the lines printed. *)
Record World : Type := mkWorld {
  draws : nat -> float;
  cursor : nat;
  file : list string;
  stdout : list string
}.

(** How a statement ends: normally, with an exception, or (fuel exhausted)
    still inside a [while True] loop.  Each case keeps the world reached. *)
Inductive outcome (A : Type) : Type :=
| Done (a : A) (w : World)
| Raise (e : exn) (w : World)
| Running (w : World).
Arguments Done {A} a w.
Arguments Raise {A} e w.
Arguments Running {A} w.

Definition M (A : Type) : Type := World -> outcome A.

Definition ret {A} (a : A) : M A := fun w => Done a w.

Definition bind {A B} (c : M A) (k : A -> M B) : M B :=
  fun w =>
    match c w with
    | Done a w' => k a w'
    | Raise e w' => Raise e w'
    | Running w' => Running w'
    end.

Definition lift {A} (r : res A) : M A :=
  fun w => match r with Ok a => Done a w | Err e => Raise e w end.

Declare Scope py_scope.
Delimit Scope py_scope with py.
Notation "x <- c ;; k" := (bind c (fun x => k))
  (at level 61, c at next level, right associativity) : py_scope.
Notation "c ;; k" := (bind c (fun _ => k))
  (at level 61, right associativity) : py_scope.

(** [seq[i]] for a non-negative literal index. *)
Definition index {A} (l : list A) (i : nat) : res A :=
  match nth_error l i with
  | Some a => Ok a
  | None => Err IndexError
  end.

(** [range(start, stop, step)] as the list it iterates over. *)
Definition range_len (start stop step : Z) : Z :=
  if 0 <? step then Z.max 0 ((stop - start + step - 1) / step)
  else Z.max 0 ((start - stop - step - 1) / (- step)).

Fixpoint count_from (n : nat) (start step : Z) : list Z :=
  match n with
  | O => []
  | S n' => start :: count_from n' (start + step) step
  end.

Definition range (start stop step : Z) : res (list Z) :=
  if step =? 0 then Err ValueError
  else Ok (count_from (Z.to_nat (range_len start stop step)) start step).

(** [a % b] on integers (the sign of the result follows the divisor). *)
Definition mod_ (a b : Z) : res Z :=
  if b =? 0 then Err ZeroDivisionError else Ok (a mod b).

(** [for x in xs: body], with the local variables that the body rebinds
    passed along as [s]. *)
Fixpoint for_in {A S} (xs : list A) (body : A -> S -> M S) (s : S) : M S :=
  match xs with
  | [] => ret s
  | x :: xs' => bind (body x s) (for_in xs' body)
  end.

(** [random.random()]: the next value of the generator. *)
Definition random : M float :=
  fun w => Done (draws w (cursor w))
                (mkWorld (draws w) (S (cursor w)) (file w) (stdout w)).

(** [random.uniform(a, b)] is [a + (b - a) * random()]. *)
Definition uniform_of (a b u : float) : float := (a + (b - a) * u)%float.

Definition uniform (a b : float) : M float :=
  bind random (fun u => ret (uniform_of a b u)).

(** [file_handle.write(s)] and [print(s)]. *)
Definition write (s : string) : M unit :=
  fun w => Done tt (mkWorld (draws w) (cursor w) (file w ++ [s]) (stdout w)).

Definition print (s : string) : M unit :=
  fun w => Done tt (mkWorld (draws w) (cursor w) (file w) (stdout w ++ [s])).

(** [open(name, 'w')]: the file starts empty. *)
Definition open_w : M unit :=
  fun w => Done tt (mkWorld (draws w) (cursor w) [] (stdout w)).

(** ** Numbers to text *)

Definition TAB : string := String (ascii_of_nat 9) EmptyString.
Definition NL : string := String (ascii_of_nat 10) EmptyString.
Definition DQUOTE : string := String (ascii_of_nat 34) EmptyString.

(** [str(n)] for an integer.  CPython refuses the conversion of an integer
    of more than 4300 digits with [ValueError]; no identifier of a run comes
    near that size and the case is left out here (see [printable]). *)
Definition str_int (n : Z) : string := NilZero.string_of_int (Z.to_int n).

Fixpoint repeat_char (c : ascii) (n : nat) : string :=
  match n with
  | O => EmptyString
  | S n' => String c (repeat_char c n')
  end.

Definition pad_left (c : ascii) (width : nat) (s : string) : string :=
  (repeat_char c (width - String.length s) ++ s)%string.

(** The integer nearest to [num / den] ([den > 0]), ties to even. *)
Definition round_half_even (num den : Z) : Z :=
  let q := num / den in
  let r := num mod den in
  match 2 * r ?= den with
  | Lt => q
  | Gt => q + 1
  | Eq => if Z.even q then q else q + 1
  end.

(** [m * 2^e * 10^p] rounded to an integer. *)
Definition scale10 (p : nat) (m : positive) (e : Z) : Z :=
  let n := Zpos m * 10 ^ Z.of_nat p in
  if 0 <=? e then n * 2 ^ e else round_half_even n (2 ^ (- e)).

(** The digits of [n / 10^p] in fixed notation with [p] decimals. *)
Definition fixed (p : nat) (n : Z) : string :=
  let unit := 10 ^ Z.of_nat p in
  (str_int (n / unit) ++
   match p with
   | O => EmptyString
   | _ => "." ++ pad_left "0" p (str_int (n mod unit))
   end)%string.

Definition sign_text (s : bool) : string :=
  if s then "-"%string else EmptyString.

(** [format(x, '.pf')]: the exact binary value of [x], correctly rounded to
    [p] decimals. *)
Definition format_f (p : nat) (x : float) : string :=
  match Prim2SF x with
  | S754_nan => "nan"%string
  | S754_infinity s => (sign_text s ++ "inf")%string
  | S754_zero s => (sign_text s ++ fixed p 0)%string
  | S754_finite s m e => (sign_text s ++ fixed p (scale10 p m e))%string
  end.

(** [format(x, 'w.pf')]: right-aligned in a field of at least [w]. *)
Definition format_wf (w p : nat) (x : float) : string :=
  pad_left " " w (format_f p x).

(** ** Integers to floats *)

(** [float(n)]: the nearest float, ties to even. *)
Definition Z2F (n : Z) : float := SF2Prim (binary_normalize prec emax n 0 false).

(** Integers that round beyond the largest finite float raise
    [OverflowError]. *)
Definition float_limit : Z := 2 ^ 1024 - 2 ^ 970.

Definition float_of_int (n : Z) : res float :=
  if Z.abs n <? float_limit then Ok (Z2F n) else Err OverflowError.

(** [n / d] for an integer [n] and a float [d <> 0]. *)
Definition truediv (n : Z) (d : float) : res float :=
  match float_of_int n with
  | Ok x => if (d =? 0)%float then Err ZeroDivisionError else Ok (x / d)%float
  | Err e => Err e
  end.

End Py.

Import Py.
#[local] Open Scope py_scope.

(* ================================================================== *)
(** * The script *)
(* ================================================================== *)

(** ** Output formatting functions *)

(** The text of one record in the standard CFD format. *)
Definition Output_text (c0 c1 c2 t : float) (pId : Z) : string :=
  (format_f 15 c0 ++ TAB ++ format_f 15 c1 ++ TAB ++ format_f 15 c2 ++ TAB ++
   "0.0" ++ TAB ++ "0.0" ++ TAB ++ "0.0" ++ TAB ++
   format_wf 7 3 t ++ TAB ++ "10.0e-6" ++ TAB ++ "977.0" ++ TAB ++
   str_int pId ++ NL)%string.

Definition Output (ti pId : Z) (coord : list float) : M Z :=
  c0 <- lift (index coord 0) ;;
  c1 <- lift (index coord 1) ;;
  c2 <- lift (index coord 2) ;;
  t <- lift (truediv ti 1000.0) ;;
  write (Output_text c0 c1 c2 t pId) ;;
  ret (pId + 1).

(** The text of one record in the star format. *)
Definition OutputStar_text (pId : Z) (c0 c1 c2 : float) : string :=
  ("v, " ++ str_int (pId + 1) ++ ", " ++ format_f 15 c0 ++ ", " ++
   format_f 15 c1 ++ ", " ++ format_f 15 c2 ++ NL)%string.

Definition OutputStar (ti pId : Z) (coord : list float) : M Z :=
  c0 <- lift (index coord 0) ;;
  c1 <- lift (index coord 1) ;;
  c2 <- lift (index coord 2) ;;
  write (OutputStar_text pId c0 c1 c2) ;;
  ret (pId + 1).

(** The two functions the global [whichOutput] can be bound to. *)
Inductive OutputFn : Type := UseOutput | UseOutputStar.

(** ** Simulation parameters *)

Definition xPln : float := 0.0015.
Definition ymin : float := 3.351.
Definition ymax : float := 3.391.
Definition zmin : float := 1.678.
Definition zmax : float := 1.6881.
Definition radius : float := 0.001875.

Definition leftRotTrans : list (list float) :=
  [ [ 0.948; 0.000; -0.319; 0.00573 ];
    [ 0.000; 1.000;  0.000; -0.00875 ];
    [ 0.319; 0.000;  0.948; 1.71177 ] ]%float.

Definition rightRotTrans : list (list float) :=
  [ [ 0.948; 0.000; -0.319; 0.00573 ];
    [ 0.000; 1.000;  0.000; -0.00875 ];
    [ 0.319; 0.000;  0.948; 1.71177 ] ]%float.

(** The module-level names and the literals of the main loop, gathered so
    that a run can be stated for other values than the ones in the file:
    [c_stop] and [c_step] are the bounds of [range(0, 200005, 5)],
    [c_cyclePeriod] the modulus in [ti % 5000], [c_exhaleLength] the bound
    in [tm < 2500], [c_mouthCount] the bound of [range(0,5)] and
    [c_nostrilCount] the bound of [range(0,2)] in [GenNostril]. *)
Record Config : Type := mkConfig {
  c_whichOutput : OutputFn;
  c_xPln : float;
  c_ymin : float;
  c_ymax : float;
  c_zmin : float;
  c_zmax : float;
  c_radius : float;
  c_leftRotTrans : list (list float);
  c_rightRotTrans : list (list float);
  c_stop : Z;
  c_step : Z;
  c_cyclePeriod : Z;
  c_exhaleLength : Z;
  c_mouthCount : Z;
  c_nostrilCount : Z
}.

(** The values the file has. *)
Definition default : Config :=
  {| c_whichOutput := UseOutput;
     c_xPln := xPln;
     c_ymin := ymin; c_ymax := ymax;
     c_zmin := zmin; c_zmax := zmax;
     c_radius := radius;
     c_leftRotTrans := leftRotTrans;
     c_rightRotTrans := rightRotTrans;
     c_stop := 200005; c_step := 5;
     c_cyclePeriod := 5000; c_exhaleLength := 2500;
     c_mouthCount := 5; c_nostrilCount := 2 |}.

(** [ydel = ymax - ymin] and [zdel = zmax - zmin]. *)
Definition ydel (g : Config) : float := (c_ymax g - c_ymin g)%float.
Definition zdel (g : Config) : float := (c_zmax g - c_zmin g)%float.

Definition whichOutput (g : Config) : Z -> Z -> list float -> M Z :=
  match c_whichOutput g with
  | UseOutput => Output
  | UseOutputStar => OutputStar
  end.

(** ** Main simulation functions *)

Definition RotTrans (rotTrans : list (list float)) (coord : list float)
  : res (list float) :=
  match rotTrans, coord with
  | r0 :: r1 :: r2 :: _, c0 :: c1 :: c2 :: _ =>
    match r0, r1, r2 with
    | r00 :: r01 :: r02 :: r03 :: _,
      r10 :: r11 :: r12 :: r13 :: _,
      r20 :: r21 :: r22 :: r23 :: _ =>
      Ok [ r00 * c0 + r01 * c1 + r02 * c2 + r03;
           r10 * c0 + r11 * c1 + r12 * c2 + r13;
           r20 * c0 + r21 * c1 + r22 * c2 + r23 ]%float
    | _, _, _ => Err IndexError
    end
  | _, _ => Err IndexError
  end.

(** The candidate pair computed from two draws, and the test of the
    [if] that leaves the rejection loop. *)
Definition candidate (radius u : float) : float :=
  (radius * uniform_of (-1.0) 1.0 u)%float.

Definition inside (radius x y : float) : bool :=
  (x * x + y * y <? radius * radius)%float.

(** The [while True] loop of [GenNostril]; it returns the accepted pair. *)
Fixpoint rejection (fuel : nat) (radius : float) : M (float * float) :=
  match fuel with
  | O => fun w => Running w
  | S fuel' =>
    u <- uniform (-1.0) 1.0 ;;
    let x := (radius * u)%float in
    v <- uniform (-1.0) 1.0 ;;
    let y := (radius * v)%float in
    if inside radius x y then ret (x, y) else rejection fuel' radius
  end.

(** The body of [for i in range(0,2)]: one nostril particle. *)
Definition nostril_particle (fuel : nat) (g : Config) (ti : Z)
    (radius : float) (rotTrans : list (list float)) (pId : Z) : M Z :=
  xy <- rejection fuel radius ;;
  coord <- lift (RotTrans rotTrans [ fst xy; snd xy; 0.0%float ]) ;;
  whichOutput g ti pId coord.

Definition GenNostril (fuel : nat) (g : Config) (ti : Z) (radius : float)
    (pId : Z) (rotTrans : list (list float)) : M Z :=
  r <- lift (range 0 (c_nostrilCount g) 1) ;;
  for_in r (fun _ pId => nostril_particle fuel g ti radius rotTrans pId) pId.

(** The body of [for i in range(0,5)]: one mouth particle. *)
Definition mouth_particle (g : Config) (ti : Z) (pId : Z) : M Z :=
  rydel <- uniform 0.0 (ydel g) ;;
  let y := (c_ymin g + rydel)%float in
  rzdel <- uniform 0.0 (zdel g) ;;
  let z := (c_zmin g + rzdel)%float in
  whichOutput g ti pId [ c_xPln g; y; z ].

(** The body of the main loop, for one time step [ti]. *)
Definition time_step (fuel : nat) (g : Config) (ti : Z) (pId : Z) : M Z :=
  tm <- lift (mod_ ti (c_cyclePeriod g)) ;;
  if (0 <=? tm) && (tm <? c_exhaleLength g) then
    r <- lift (range 0 (c_mouthCount g) 1) ;;
    pId <- for_in r (fun _ pId => mouth_particle g ti pId) pId ;;
    pId <- GenNostril fuel g ti (c_radius g) pId (c_leftRotTrans g) ;;
    GenNostril fuel g ti (c_radius g) pId (c_rightRotTrans g)
  else ret pId.

Definition header (g : Config) : M unit :=
  match c_whichOutput g with
  | UseOutput =>
    write ("# location velocity " ++ DQUOTE ++ "start time" ++ DQUOTE ++
           " diameter  density" ++ NL) ;;
    write ("# x y z       u v w" ++ NL)
  | UseOutputStar => ret tt
  end.

Definition summary (pId : Z) : string :=
  ("Particle data written to ParticleInitial.dat with " ++ str_int pId ++
   " particles.")%string.

(** [DEBUG] is [False] in the file: the debugger is not entered. *)
Definition NoseParticleGeneration_with (fuel : nat) (g : Config) : M unit :=
  open_w ;;
  let pId := 0 in
  header g ;;
  r <- lift (range 0 (c_stop g) (c_step g)) ;;
  pId <- for_in r (time_step fuel g) pId ;;
  print (summary pId).

(** The script as it stands. *)
Definition NoseParticleGeneration (fuel : nat) : M unit :=
  NoseParticleGeneration_with fuel default.

(* ================================================================== *)
(** * What a run writes *)
(* ================================================================== *)

(** One call of the record writer: the time step it is tagged with and the
    global coordinate. *)
Record Emission : Type := mkEmission {
  e_ti : Z;
  e_x : float;
  e_y : float;
  e_z : float
}.

(** The line the selected writer produces for an emission, given the
    identifier it is called with. *)
Definition record_text (g : Config) (pId : Z) (e : Emission) : string :=
  match c_whichOutput g with
  | UseOutput =>
    Output_text (e_x e) (e_y e) (e_z e) (Z2F (e_ti e) / 1000.0)%float pId
  | UseOutputStar => OutputStar_text pId (e_x e) (e_y e) (e_z e)
  end.

(** The lines of consecutive emissions, the first one written with [pId]. *)
Fixpoint render (g : Config) (pId : Z) (es : list Emission) : list string :=
  match es with
  | [] => []
  | e :: es' => record_text g pId e :: render g (pId + 1) es'
  end.

(** The header lines of the selected format. *)
Definition header_lines (g : Config) : list string :=
  match c_whichOutput g with
  | UseOutput =>
    [ ("# location velocity " ++ DQUOTE ++ "start time" ++ DQUOTE ++
       " diameter  density" ++ NL)%string;
      ("# x y z       u v w" ++ NL)%string ]
  | UseOutputStar => []
  end.

(** [o] is a normal end in which exactly the emissions [es], for some [es]
    with [P es], were written, the first one with identifier [pId]; the
    returned identifier is the next free one. *)
Definition emits (g : Config) (P : list Emission -> Prop) (pId : Z)
    (w : World) (o : outcome Z) : Prop :=
  exists es w',
    P es /\
    o = Done (pId + Z.of_nat (List.length es)) w' /\
    draws w' = draws w /\
    stdout w' = stdout w /\
    file w' = file w ++ render g pId es.

(** The coordinate of a mouth particle computed from the draws [u], [v]. *)
Definition mouth_point (g : Config) (ti : Z) (u v : float) : Emission :=
  mkEmission ti (c_xPln g)
    (c_ymin g + uniform_of 0.0 (ydel g) u)%float
    (c_zmin g + uniform_of 0.0 (zdel g) v)%float.

(** [e] is a mouth particle of step [ti] drawn from the sequence [D]. *)
Definition mouth_emission (g : Config) (D : nat -> float) (ti : Z)
    (e : Emission) : Prop :=
  exists i, e = mouth_point g ti (D i) (D (S i)).

(** [e] is a nostril particle of step [ti]: the image under [rotTrans] of an
    accepted pair computed from two consecutive draws of [D]. *)
Definition nostril_emission (r : float) (D : nat -> float)
    (rotTrans : list (list float)) (ti : Z) (e : Emission) : Prop :=
  exists i,
    let x := candidate r (D i) in
    let y := candidate r (D (S i)) in
    inside r x y = true /\
    e_ti e = ti /\
    RotTrans rotTrans [x; y; 0.0%float] = Ok [e_x e; e_y e; e_z e].

(** The condition of the [if] in the main loop. *)
Definition exhaling (g : Config) (ti : Z) : bool :=
  (0 <=? ti mod c_cyclePeriod g) && (ti mod c_cyclePeriod g <? c_exhaleLength g).

(** The batch of one time step: nothing outside the exhale window, and
    inside it the mouth particles, then the left nostril's, then the right
    nostril's. *)
Definition batch (g : Config) (D : nat -> float) (ti : Z)
    (es : list Emission) : Prop :=
  if exhaling g ti then
    exists ms ls rs,
      es = ms ++ ls ++ rs /\
      List.length ms = Z.to_nat (c_mouthCount g) /\
      Forall (mouth_emission g D ti) ms /\
      List.length ls = Z.to_nat (c_nostrilCount g) /\
      Forall (nostril_emission (c_radius g) D (c_leftRotTrans g) ti) ls /\
      List.length rs = Z.to_nat (c_nostrilCount g) /\
      Forall (nostril_emission (c_radius g) D (c_rightRotTrans g) ti) rs
  else es = [].

(** The time steps of a run. *)
Definition time_steps (g : Config) : list Z :=
  map (fun k => 0 + Z.of_nat k * c_step g)
      (seq 0 (Z.to_nat (range_len 0 (c_stop g) (c_step g)))).

(** ** Conditions under which a run goes through *)

(** A transform has three rows of four entries (longer ones are read the
    same way by [RotTrans]). *)
Definition affine (m : list (list float)) : bool :=
  match RotTrans m [0; 0; 0]%float with
  | Ok _ => true
  | Err _ => false
  end.

(** The loop constants let the loop run and the writer convert every time
    step; nothing is asked of the geometry. *)
Definition runnable (g : Config) : bool :=
  negb (c_step g =? 0) && (Z.abs (c_stop g) <? float_limit) &&
  negb (c_cyclePeriod g =? 0) &&
  affine (c_leftRotTrans g) && affine (c_rightRotTrans g).

(** From every position of [D] an accepted pair comes up within [fuel]
    candidate pairs. *)
Definition accepts_within (fuel : nat) (r : float) (D : nat -> float) : Prop :=
  forall n, exists k, (k < fuel)%nat /\
    inside r (candidate r (D (n + 2 * k)%nat))
             (candidate r (D (S (n + 2 * k)))) = true.

(* ================================================================== *)
(** * Further notions used in the statements *)
(* ================================================================== *)

(** A world whose generator returns 0.5 for ever: every candidate pair is
    the centre of the disk. *)
Definition steady : World := mkWorld (fun _ => 0.5%float) 0 [] [].

(** The candidate pair read at position [i] of [D] passes the test. *)
Definition accepted (r : float) (D : nat -> float) (i : nat) : bool :=
  inside r (candidate r (D i)) (candidate r (D (S i))).

(** From position [n] on, the first accepted pair of [D] is the one after
    [k] rejected pairs. *)
Definition first_accept (r : float) (D : nat -> float) (n k : nat) : Prop :=
  accepted r D (n + 2 * k) = true /\
  forall j, (j < k)%nat -> accepted r D (n + 2 * j) = false.

(** A sequence with [n] rejected pairs [(u, v)] from position [c] on and
    the pair [(u0, v0)] ever after. *)
Definition delayed (c n : nat) (u v u0 v0 : float) (i : nat) : float :=
  if (i <? c + 2 * n)%nat
  then (if Nat.even (i - c) then u else v)
  else (if Nat.even (i - c) then u0 else v0).

(** The number of particles of one active time step. *)
Definition batch_size (g : Config) : nat :=
  (Z.to_nat (c_mouthCount g) + 2 * Z.to_nat (c_nostrilCount g))%nat.

(** The file's values with a loop that stops at 10000 ms. *)
Definition scenario : Config :=
  {| c_whichOutput := UseOutput;
     c_xPln := xPln;
     c_ymin := ymin; c_ymax := ymax;
     c_zmin := zmin; c_zmax := zmax;
     c_radius := radius;
     c_leftRotTrans := leftRotTrans;
     c_rightRotTrans := rightRotTrans;
     c_stop := 10000; c_step := 5;
     c_cyclePeriod := 5000; c_exhaleLength := 2500;
     c_mouthCount := 5; c_nostrilCount := 2 |}.

(** The exhale windows of the scenario's two cycles. *)
Definition in_windows (ti : Z) : bool :=
  ((0 <=? ti) && (ti <? 2500)) || ((5000 <=? ti) && (ti <? 7500)).

(** The world an outcome leaves behind. *)
Definition world_of {A} (o : outcome A) : World :=
  match o with
  | Done _ w => w
  | Raise _ w => w
  | Running w => w
  end.

(** However [o] ends, what it appended to the file are the lines of some
    emissions numbered consecutively from [pId], and nothing was printed;
    if it ends normally, the identifier it returns is the next one. *)
Definition numbered (g : Config) (pId : Z) (w : World) (o : outcome Z) : Prop :=
  exists es,
    file (world_of o) = file w ++ render g pId es /\
    stdout (world_of o) = stdout w /\
    forall a w', o = Done a w' -> a = pId + Z.of_nat (List.length es).

(** A world whose generator first returns a rejected pair and then 0.5 for
    ever. *)
Definition late : World :=
  mkWorld (delayed 0 1 0.99 0.99 0.5 0.5) 0 [] [].

(* ================================================================== *)
(** * Exact values of binary64 numbers *)
(* ================================================================== *)

(** No exponent met in the script's arithmetic is below [- bias]: a finite
    number [m * 2^e] is measured in units of [2^(- bias)], which makes its
    value an integer. *)
Definition bias : Z := 2200.

(** [2^e], in those units. *)
Definition p2 (e : Z) : Z := 2 ^ (e + bias).

(** The value of a finite number (and [0] for the others). *)
Definition SV (f : spec_float) : Z :=
  match f with
  | S754_finite s m e => cond_Zopp s (Zpos m * p2 e)
  | _ => 0
  end.

(** Zero or finite: neither infinite nor NaN. *)
Definition SF_finite (f : spec_float) : bool :=
  match f with
  | S754_zero _ | S754_finite _ _ _ => true
  | _ => false
  end.

(** The same on primitive floats. *)
Definition FV (x : float) : Z := SV (Prim2SF x).
Definition fin (x : float) : bool := SF_finite (Prim2SF x).

(** [f] is NaN or carries the sign [s]. *)
Definition sign_in (s : bool) (f : spec_float) : Prop :=
  match f with
  | S754_zero s' | S754_infinity s' | S754_finite s' _ _ => s' = s
  | S754_nan => True
  end.

(** The interval [[lo, hi]] is one the mouth sampler can draw from: its
    bounds are finite numbers with [lo <= hi], and the width [hi - lo] the
    script computes is finite (the subtraction does not overflow). *)
Definition span_ok (lo hi : float) : bool :=
  fin lo && fin hi && (lo <=? hi)%float && fin (hi - lo).

(** The mouth rectangle of a configuration is well formed. *)
Definition mouth_valid (g : Config) : bool :=
  span_ok (c_ymin g) (c_ymax g) && span_ok (c_zmin g) (c_zmax g).

(** Every value of the generator lies in [[0, 1)]. *)
Definition unit_draws (D : nat -> float) : Prop :=
  forall n, (0 <=? D n)%float = true /\ (D n <? 1)%float = true.

(** The geometric bound of the mouth. *)
Definition in_mouth (g : Config) (e : Emission) : Prop :=
  e_x e = c_xPln g /\
  (c_ymin g <=? e_y e)%float = true /\ (e_y e <=? c_ymax g)%float = true /\
  (c_zmin g <=? e_z e)%float = true /\ (e_z e <=? c_zmax g)%float = true.

(** The geometric bound of a nostril: the image under [rotTrans] of a local
    point strictly inside the disk. *)
Definition in_nostril (r : float) (rotTrans : list (list float))
    (e : Emission) : Prop :=
  exists x y,
    (x * x + y * y <? r * r)%float = true /\
    RotTrans rotTrans [x; y; 0.0%float] = Ok [e_x e; e_y e; e_z e].

(** The batch of one time step with the bound of every particle: nothing
    outside the exhale window, and inside it [mouthCount] particles the
    mouth sampler computed from two draws each, all in the mouth rectangle,
    then [nostrilCount] images under the left matrix and [nostrilCount]
    images under the right matrix of accepted pairs, each pair passing the
    test of the disk. *)
Definition batch_in_regions (g : Config) (D : nat -> float) (ti : Z)
    (es : list Emission) : Prop :=
  if exhaling g ti then
    exists ms ls rs,
      es = ms ++ ls ++ rs /\
      List.length ms = Z.to_nat (c_mouthCount g) /\
      Forall (fun e => mouth_emission g D ti e /\ in_mouth g e) ms /\
      List.length ls = Z.to_nat (c_nostrilCount g) /\
      Forall (fun e =>
                nostril_emission (c_radius g) D (c_leftRotTrans g) ti e /\
                in_nostril (c_radius g) (c_leftRotTrans g) e) ls /\
      List.length rs = Z.to_nat (c_nostrilCount g) /\
      Forall (fun e =>
                nostril_emission (c_radius g) D (c_rightRotTrans g) ti e /\
                in_nostril (c_radius g) (c_rightRotTrans g) e) rs
  else es = [].

(** The file's values with another geometry. *)
Definition with_geometry (r y0 y1 z0 z1 : float) : Config :=
  {| c_whichOutput := UseOutput;
     c_xPln := xPln;
     c_ymin := y0; c_ymax := y1;
     c_zmin := z0; c_zmax := z1;
     c_radius := r;
     c_leftRotTrans := leftRotTrans;
     c_rightRotTrans := rightRotTrans;
     c_stop := 200005; c_step := 5;
     c_cyclePeriod := 5000; c_exhaleLength := 2500;
     c_mouthCount := 5; c_nostrilCount := 2 |}.

(** The file's values with a radius of zero. *)
Definition zero_radius : Config := with_geometry 0 ymin ymax zmin zmax.

(* ================================================================== *)
(** * Notions for the writer and the two output formats *)
(* ================================================================== *)

(** The number of occurrences of a character in a string. *)
Fixpoint count_char (c : ascii) (s : string) : nat :=
  match s with
  | EmptyString => 0
  | String a s' => (if Ascii.eqb a c then 1 else 0) + count_char c s'
  end.

(** The characters that separate fields and records. *)
Definition separator (c : ascii) : Prop :=
  c = ascii_of_nat 9 \/ c = ascii_of_nat 10 \/ c = ","%char.

(** The configuration [g] with [whichOutput] bound to [f]. *)
Definition with_output (f : OutputFn) (g : Config) : Config :=
  {| c_whichOutput := f;
     c_xPln := c_xPln g;
     c_ymin := c_ymin g; c_ymax := c_ymax g;
     c_zmin := c_zmin g; c_zmax := c_zmax g;
     c_radius := c_radius g;
     c_leftRotTrans := c_leftRotTrans g;
     c_rightRotTrans := c_rightRotTrans g;
     c_stop := c_stop g; c_step := c_step g;
     c_cyclePeriod := c_cyclePeriod g; c_exhaleLength := c_exhaleLength g;
     c_mouthCount := c_mouthCount g; c_nostrilCount := c_nostrilCount g |}.

(** Two worlds that differ in the file only. *)
Definition twin (w1 w2 : World) : Prop :=
  draws w1 = draws w2 /\ cursor w1 = cursor w2 /\ stdout w1 = stdout w2.

(** Two outcomes, one under each of two output functions, that end the
    same way after the same emissions. *)
Definition alike (f1 f2 : OutputFn) (g : Config) (p : Z) (w1 w2 : World)
    (o1 o2 : outcome Z) : Prop :=
  exists es,
    file (world_of o1) = file w1 ++ render (with_output f1 g) p es /\
    file (world_of o2) = file w2 ++ render (with_output f2 g) p es /\
    twin (world_of o1) (world_of o2) /\
    stdout (world_of o1) = stdout w1 /\
    match o1, o2 with
    | Done a1 _, Done a2 _ => a1 = p + Z.of_nat (List.length es) /\ a2 = a1
    | Running _, Running _ => True
    | _, _ => False
    end.

(** The float [x], rounded to three decimals, is [n] thousandths, and its
    text fits a field of seven characters. *)
Definition thousandths (x : float) (n : Z) : bool :=
  match Prim2SF x with
  | S754_zero false => n =? 0
  | S754_finite false m e => scale10 3 m e =? n
  | _ => false
  end && (String.length (fixed 3 n) <=? 7)%nat.

(** The file's values with another step and another cycle period. *)
Definition with_loop (step period : Z) : Config :=
  {| c_whichOutput := UseOutput;
     c_xPln := xPln;
     c_ymin := ymin; c_ymax := ymax;
     c_zmin := zmin; c_zmax := zmax;
     c_radius := radius;
     c_leftRotTrans := leftRotTrans;
     c_rightRotTrans := rightRotTrans;
     c_stop := 200005; c_step := step;
     c_cyclePeriod := period; c_exhaleLength := 2500;
     c_mouthCount := 5; c_nostrilCount := 2 |}.

(** A matrix [RotTrans] can read: at least three rows, the first three of
    at least four entries each. *)
Definition has_shape (m : list (list float)) : bool :=
  (3 <=? List.length m)%nat &&
  forallb (fun row => (4 <=? List.length row)%nat) (firstn 3 m).

(** Row [row] of a matrix applied to the point [p]; entries that are
    missing count as zero. *)
Definition row_image (p : list float) (row : list float) : float :=
  (nth 0 row 0 * nth 0 p 0 + nth 1 row 0 * nth 1 p 0 +
   nth 2 row 0 * nth 2 p 0 + nth 3 row 0)%float.

(** [str(n)] stays within the limit of 4300 digits that CPython sets for
    the conversion of an integer to text. *)
Definition printable (n : Z) : bool := Z.abs n <? 10 ^ 4300.

(** The integer a writer prints: [pId] in the full format, [pId + 1] in
    the star format. *)
Definition printed_id (g : Config) (pId : Z) : Z :=
  match c_whichOutput g with
  | UseOutput => pId
  | UseOutputStar => pId + 1
  end.

(* ================================================================== *)
(** * Sequencing lemmas *)
(* ================================================================== *)

Lemma render_app (g : Config) (es fs : list Emission) (pId : Z) :
  render g pId (es ++ fs) =
  render g pId es ++ render g (pId + Z.of_nat (List.length es)) fs.
Proof.
  revert pId; induction es as [|e es IH]; intros pId; simpl.
  - now rewrite Z.add_0_r.
  - rewrite IH. do 3 f_equal. lia.
Qed.

Lemma render_length (g : Config) (es : list Emission) (pId : Z) :
  List.length (render g pId es) = List.length es.
Proof.
  revert pId; induction es as [|e es IH]; intros pId; simpl; auto.
Qed.

Lemma bind_Done {A B} (c : M A) (k : A -> M B) (w w' : World) (a : A) :
  c w = Done a w' -> bind c k w = k a w'.
Proof. unfold bind; intros ->; reflexivity. Qed.

Lemma lift_Ok {A B} (r : res A) (a : A) (k : A -> M B) (w : World) :
  r = Ok a -> bind (lift r) k w = k a w.
Proof. intros ->; reflexivity. Qed.

Lemma emits_ret (g : Config) (P : list Emission -> Prop) (pId : Z) (w : World) :
  P [] -> emits g P pId w (ret pId w).
Proof.
  intros HP. exists [], w. simpl.
  rewrite Z.add_0_r, app_nil_r. auto.
Qed.

Lemma emits_weaken (g : Config) (P Q : list Emission -> Prop) pId w o :
  (forall es, P es -> Q es) -> emits g P pId w o -> emits g Q pId w o.
Proof.
  intros HPQ (es & w' & HP & H). exists es, w'. auto.
Qed.

(** Two statements in sequence emit the concatenation. *)
Lemma emits_bind (g : Config) (P Q : list Emission -> Prop)
    (c : M Z) (k : Z -> M Z) (pId : Z) (w : World) :
  emits g P pId w (c w) ->
  (forall p1 w1, draws w1 = draws w -> emits g Q p1 w1 (k p1 w1)) ->
  emits g (fun es => exists a b, es = a ++ b /\ P a /\ Q b) pId w (bind c k w).
Proof.
  intros (a & w1 & HP & Hc & Hd & Hs & Hf) Hk.
  destruct (Hk (pId + Z.of_nat (List.length a)) w1 Hd)
    as (b & w2 & HQ & Hk2 & Hd2 & Hs2 & Hf2).
  exists (a ++ b), w2. split; [now exists a, b|].
  rewrite (bind_Done _ _ _ _ _ Hc), Hk2.
  rewrite length_app, Nat2Z.inj_add, Z.add_assoc.
  repeat split; try congruence.
  rewrite Hf2, Hf, render_app, app_assoc. reflexivity.
Qed.

(** A [for] loop emits, step by step, what its body emits. *)
Lemma emits_for_in {A} (g : Config) (B : A -> list Emission -> Prop)
    (body : A -> Z -> M Z) (xs : list A) (D : nat -> float) :
  (forall x p w, In x xs -> draws w = D -> emits g (B x) p w (body x p w)) ->
  forall pId w, draws w = D ->
  emits g (fun es => exists parts, es = concat parts /\ Forall2 B xs parts)
        pId w (for_in xs body pId w).
Proof.
  induction xs as [|x xs IH]; intros Hbody pId w HD; simpl.
  - apply emits_ret. exists []. split; [reflexivity | constructor].
  - eapply emits_weaken; [| apply emits_bind with (P := B x)
        (Q := fun es => exists parts, es = concat parts /\ Forall2 B xs parts)].
    + intros es (a & b & -> & Ha & parts & -> & Hparts).
      exists (a :: parts). split; [reflexivity | now constructor].
    + apply Hbody; [now left | assumption].
    + intros p1 w1 Hd1. apply IH; [| congruence].
      intros y p w2 Hy. apply Hbody. now right.
Qed.

(** The special case of a body that emits one particle per round. *)
Lemma emits_for_in_single {A} (g : Config) (R : Emission -> Prop)
    (body : A -> Z -> M Z) (xs : list A) (D : nat -> float) :
  (forall x p w, In x xs -> draws w = D ->
     emits g (fun es => exists e, es = [e] /\ R e) p w (body x p w)) ->
  forall pId w, draws w = D ->
  emits g (fun es => List.length es = List.length xs /\ Forall R es)
        pId w (for_in xs body pId w).
Proof.
  intros Hbody pId w HD.
  eapply emits_weaken; [| eapply emits_for_in with
      (B := fun _ es => exists e, es = [e] /\ R e); eauto].
  intros es (parts & -> & Hparts). clear - Hparts.
  induction Hparts as [|x part xs parts (e & -> & He) _ IH]; simpl.
  - split; [reflexivity | constructor].
  - destruct IH as [IH1 IH2]. split; [now rewrite IH1 | now constructor].
Qed.

(* ================================================================== *)
(** * The record writer *)
(* ================================================================== *)

Lemma truediv_1000 (ti : Z) :
  Z.abs ti < float_limit ->
  truediv ti 1000.0 = Ok (Z2F ti / 1000.0)%float.
Proof.
  intros H. unfold truediv, float_of_int.
  apply Z.ltb_lt in H. rewrite H. reflexivity.
Qed.

Lemma whichOutput_Done (g : Config) (ti pId : Z) (x y z : float) (w : World) :
  Z.abs ti < float_limit ->
  whichOutput g ti pId [x; y; z] w =
  Done (pId + 1)
       (mkWorld (draws w) (cursor w)
                (file w ++ [record_text g pId (mkEmission ti x y z)])
                (stdout w)).
Proof.
  intros H. unfold whichOutput, record_text.
  destruct (c_whichOutput g); unfold Output, OutputStar; simpl.
  - unfold bind at 1 2 3; simpl. rewrite (lift_Ok _ _ _ _ (truediv_1000 ti H)).
    reflexivity.
  - reflexivity.
Qed.

Lemma whichOutput_emits (g : Config) (ti pId : Z) (x y z : float) (w : World) :
  Z.abs ti < float_limit ->
  emits g (fun es => es = [mkEmission ti x y z]) pId w
        (whichOutput g ti pId [x; y; z] w).
Proof.
  intros H. rewrite whichOutput_Done by assumption.
  eexists _, _. split; [reflexivity|]. simpl. auto.
Qed.

(* ================================================================== *)
(** * The samplers *)
(* ================================================================== *)

Lemma uniform_Done (a b : float) (w : World) :
  uniform a b w =
  Done (uniform_of a b (draws w (cursor w)))
       (mkWorld (draws w) (S (cursor w)) (file w) (stdout w)).
Proof. reflexivity. Qed.

Lemma mouth_particle_emits (g : Config) (ti pId : Z) (w : World) :
  Z.abs ti < float_limit ->
  emits g (fun es => exists e, es = [e] /\ mouth_emission g (draws w) ti e)
        pId w (mouth_particle g ti pId w).
Proof.
  intros H. unfold mouth_particle.
  rewrite (bind_Done _ _ _ _ _ (uniform_Done _ _ _)).
  rewrite (bind_Done _ _ _ _ _ (uniform_Done _ _ _)).
  rewrite whichOutput_Done by assumption. simpl.
  eexists [_], _. split; [| simpl; repeat split; reflexivity].
  eexists; split; [reflexivity|]. exists (cursor w). reflexivity.
Qed.

(** One round of the rejection loop. *)
Lemma rejection_S (fuel : nat) (r : float) (w : World) :
  rejection (S fuel) r w =
  let x := candidate r (draws w (cursor w)) in
  let y := candidate r (draws w (S (cursor w))) in
  let w2 := mkWorld (draws w) (S (S (cursor w))) (file w) (stdout w) in
  if inside r x y then Done (x, y) w2 else rejection fuel r w2.
Proof.
  simpl rejection. unfold bind, uniform, random, ret, candidate. simpl.
  destruct (inside r _ _); reflexivity.
Qed.

(** The rejection loop stops at the first accepted pair, provided one comes
    up before the fuel is spent. *)
Lemma rejection_Done (r : float) (k : nat) :
  forall (fuel : nat) (w : World),
    (k < fuel)%nat ->
    inside r (candidate r (draws w (cursor w + 2 * k)%nat))
             (candidate r (draws w (S (cursor w + 2 * k)))) = true ->
    exists i w',
      rejection fuel r w =
        Done (candidate r (draws w i), candidate r (draws w (S i))) w' /\
      inside r (candidate r (draws w i)) (candidate r (draws w (S i))) = true /\
      draws w' = draws w /\ stdout w' = stdout w /\ file w' = file w /\
      (cursor w <= i)%nat /\ cursor w' = (i + 2)%nat.
Proof.
  induction k as [|k IH]; intros fuel w Hk Hacc;
    (destruct fuel as [|fuel]; [lia|]); rewrite rejection_S; cbv zeta.
  - replace (cursor w + 2 * 0)%nat with (cursor w) in Hacc by lia.
    rewrite Hacc. exists (cursor w). eexists. split; [reflexivity|].
    simpl. repeat split; auto; lia.
  - destruct (inside r (candidate r (draws w (cursor w)))
                (candidate r (draws w (S (cursor w))))) eqn:Hin.
    + exists (cursor w). eexists. split; [reflexivity|].
      simpl. repeat split; auto; lia.
    + set (w1 := mkWorld _ _ _ _).
      destruct (IH fuel w1) as (i & w' & H1 & H2 & H3 & H4 & H5 & H6 & H7).
      * lia.
      * subst w1; cbn [draws cursor].
        replace (S (S (cursor w)) + 2 * k)%nat with (cursor w + 2 * S k)%nat by lia.
        exact Hacc.
      * subst w1; simpl in *. exists i, w'. repeat split; auto; lia.
Qed.

Lemma RotTrans_affine (m : list (list float)) (x y z : float) :
  affine m = true ->
  exists a b c, RotTrans m [x; y; z] = Ok [a; b; c].
Proof.
  unfold affine, RotTrans.
  destruct m as [|[|r00 [|r01 [|r02 [|r03 r0]]]] [|[|r10 [|r11 [|r12 [|r13 r1]]]]
               [|[|r20 [|r21 [|r22 [|r23 r2]]]] m]]]; try discriminate.
  intros _. eauto.
Qed.

(** The [k]-th element of a range is [start + k * step]. *)
Lemma count_from_map (n : nat) (start step : Z) :
  count_from n start step =
  map (fun k => start + Z.of_nat k * step) (seq 0 n).
Proof.
  revert start. induction n as [|n IH]; intros start; [reflexivity |].
  cbn [count_from seq map]. rewrite IH, <- seq_shift, map_map.
  f_equal; [lia |]. apply map_ext. intros k. lia.
Qed.

Lemma range_Ok_1 (n : Z) :
  range 0 n 1 = Ok (map (fun k => 0 + Z.of_nat k * 1) (seq 0 (Z.to_nat n))).
Proof.
  unfold range, range_len.
  change (1 =? 0) with false. change (0 <? 1) with true. cbv iota.
  rewrite Z.div_1_r, count_from_map.
  replace (Z.to_nat (Z.max 0 (n - 0 + 1 - 1))) with (Z.to_nat n) by lia.
  reflexivity.
Qed.

Lemma GenNostril_emits (fuel : nat) (g : Config) (ti pId : Z) (r : float)
    (m : list (list float)) (w : World) :
  Z.abs ti < float_limit ->
  affine m = true ->
  accepts_within fuel r (draws w) ->
  emits g (fun es => List.length es = Z.to_nat (c_nostrilCount g) /\
                     Forall (nostril_emission r (draws w) m ti) es)
        pId w (GenNostril fuel g ti r pId m w).
Proof.
  intros Hti Hm Hacc. unfold GenNostril.
  rewrite (lift_Ok _ _ _ _ (range_Ok_1 _)).
  eapply emits_weaken;
    [| eapply emits_for_in_single with (D := draws w)
         (R := nostril_emission r (draws w) m ti); [| reflexivity]].
  - intros es [H1 H2]. split; [| assumption].
    now rewrite H1, length_map, length_seq.
  - intros _ p w1 _ Hd. unfold nostril_particle.
    destruct (Hacc (cursor w1)) as (k & Hk & Hin). rewrite <- Hd in Hin.
    destruct (rejection_Done r k fuel w1 Hk Hin)
      as (i & w2 & Hrej & Hin2 & Hd2 & Hs2 & Hf2 & _).
    rewrite (bind_Done _ _ _ _ _ Hrej). simpl fst; simpl snd.
    destruct (RotTrans_affine m (candidate r (draws w1 i))
                (candidate r (draws w1 (S i))) 0.0%float Hm) as (a & b & c & Hrt).
    rewrite (lift_Ok _ _ _ _ Hrt).
    rewrite whichOutput_Done by assumption.
    eexists [_], _.
    split; [| split; [reflexivity |];
              cbn [draws stdout file render List.length]; rewrite Hf2;
              repeat split; congruence].
    eexists; split; [reflexivity|]. exists i. rewrite <- Hd. simpl. auto.
Qed.

(* ================================================================== *)
(** * The scheduler *)
(* ================================================================== *)

Lemma runnable_inv (g : Config) :
  runnable g = true ->
  c_step g <> 0 /\ Z.abs (c_stop g) < float_limit /\ c_cyclePeriod g <> 0 /\
  affine (c_leftRotTrans g) = true /\ affine (c_rightRotTrans g) = true.
Proof.
  unfold runnable. rewrite !andb_true_iff, !negb_true_iff.
  intros [[[[H1 H2] H3] H4] H5].
  apply Z.eqb_neq in H1. apply Z.eqb_neq in H3. apply Z.ltb_lt in H2. auto.
Qed.

Lemma time_step_emits (fuel : nat) (g : Config) (ti pId : Z) (w : World) :
  runnable g = true ->
  accepts_within fuel (c_radius g) (draws w) ->
  Z.abs ti < float_limit ->
  emits g (batch g (draws w) ti) pId w (time_step fuel g ti pId w).
Proof.
  intros Hg Hacc Hti.
  destruct (runnable_inv g Hg) as (_ & _ & Hper & Hl & Hr).
  unfold time_step, mod_. apply Z.eqb_neq in Hper. rewrite Hper.
  rewrite (lift_Ok _ _ _ _ eq_refl).
  unfold batch. fold (exhaling g ti). destruct (exhaling g ti).
  - rewrite (lift_Ok _ _ _ _ (range_Ok_1 _)).
    eapply emits_weaken; [| apply emits_bind with
      (P := fun es => List.length es = Z.to_nat (c_mouthCount g) /\
                      Forall (mouth_emission g (draws w) ti) es);
      [| intros p1 w1 Hd1; apply emits_bind with
           (P := fun es => List.length es = Z.to_nat (c_nostrilCount g) /\
              Forall (nostril_emission (c_radius g) (draws w)
                        (c_leftRotTrans g) ti) es)
           (Q := fun es => List.length es = Z.to_nat (c_nostrilCount g) /\
              Forall (nostril_emission (c_radius g) (draws w)
                        (c_rightRotTrans g) ti) es);
         [| intros p2 w2 Hd2] ]].
    + intros es (ms & b & -> & [Hm1 Hm2] & ls & rs & -> & [Hl1 Hl2] & [Hr1 Hr2]).
      exists ms, ls, rs. auto 10.
    + eapply emits_weaken;
        [| eapply emits_for_in_single with (D := draws w)
             (R := mouth_emission g (draws w) ti); [| reflexivity]].
      * intros es [H1 H2]. split; [| assumption].
        now rewrite H1, length_map, length_seq.
      * intros _ p w1 _ Hd. rewrite <- Hd.
        now apply mouth_particle_emits.
    + rewrite <- Hd1. apply GenNostril_emits; auto. now rewrite Hd1.
    + rewrite <- Hd1, <- Hd2. apply GenNostril_emits; auto.
      now rewrite Hd2, Hd1.
  - now apply emits_ret.
Qed.

(** Every time step of the loop lies between [0] and the stop value. *)
Lemma time_steps_between (g : Config) (ti : Z) :
  c_step g <> 0 ->
  In ti (time_steps g) ->
  (0 < c_step g /\ 0 <= ti < c_stop g /\ ti mod c_step g = 0) \/
  (c_step g < 0 /\ c_stop g < ti <= 0 /\ ti mod c_step g = 0).
Proof.
  intros Hstep Hin. unfold time_steps in Hin.
  apply in_map_iff in Hin. destruct Hin as (k & <- & Hk).
  apply in_seq in Hk. unfold range_len in Hk.
  rewrite Z.add_0_l, Z.mod_mul by assumption.
  destruct (0 <? c_step g) eqn:Hpos.
  - apply Z.ltb_lt in Hpos. left. repeat split; try lia.
    assert (Hk' : Z.of_nat k < (c_stop g - 0 + c_step g - 1) / c_step g) by lia.
    assert (Hd := Z.mul_div_le (c_stop g - 0 + c_step g - 1) (c_step g) Hpos).
    nia.
  - apply Z.ltb_ge in Hpos. right.
    assert (Hneg : 0 < - c_step g) by lia.
    repeat split; try lia; try nia.
    assert (Hk' : Z.of_nat k < (0 - c_stop g - c_step g - 1) / - c_step g) by lia.
    assert (Hd := Z.mul_div_le (0 - c_stop g - c_step g - 1) (- c_step g) Hneg).
    nia.
Qed.

Lemma time_steps_convertible (g : Config) (ti : Z) :
  runnable g = true -> In ti (time_steps g) -> Z.abs ti < float_limit.
Proof.
  intros Hg Hin. destruct (runnable_inv g Hg) as (Hstep & Hstop & _).
  destruct (time_steps_between g ti Hstep Hin) as [H|H]; lia.
Qed.

Lemma header_Done (g : Config) (w : World) :
  header g w =
  Done tt (mkWorld (draws w) (cursor w) (file w ++ header_lines g) (stdout w)).
Proof.
  unfold header, header_lines. destruct (c_whichOutput g).
  - unfold bind, write; simpl. now rewrite <- app_assoc.
  - unfold ret. rewrite app_nil_r. now destruct w.
Qed.

Lemma range_time_steps (g : Config) :
  c_step g <> 0 -> range 0 (c_stop g) (c_step g) = Ok (time_steps g).
Proof.
  intros H. unfold range. apply Z.eqb_neq in H.
  now rewrite H, count_from_map.
Qed.

(** A run with enough fuel: the file holds the header and then, time step
    after time step, the batch of each step. *)
Lemma run_emits (fuel : nat) (g : Config) (w : World) :
  runnable g = true ->
  accepts_within fuel (c_radius g) (draws w) ->
  exists parts w',
    NoseParticleGeneration_with fuel g w = Done tt w' /\
    Forall2 (batch g (draws w)) (time_steps g) parts /\
    file w' = header_lines g ++ render g 0 (concat parts) /\
    stdout w' = stdout w ++ [summary (Z.of_nat (List.length (concat parts)))] /\
    draws w' = draws w.
Proof.
  intros Hg Hacc. destruct (runnable_inv g Hg) as (Hstep & _).
  unfold NoseParticleGeneration_with.
  unfold bind at 1, open_w. rewrite (bind_Done _ _ _ _ _ (header_Done _ _)).
  rewrite (lift_Ok _ _ _ _ (range_time_steps g Hstep)).
  set (w1 := mkWorld _ _ _ _).
  assert (Hd1 : draws w1 = draws w) by reflexivity.
  destruct (emits_for_in g (batch g (draws w)) (time_step fuel g)
              (time_steps g) (draws w)) with (pId := 0) (w := w1)
    as (es & w2 & (parts & -> & Hparts) & Hrun & Hd2 & Hs2 & Hf2); auto.
  - intros ti p w2 Hin Hd. rewrite <- Hd.
    apply time_step_emits; auto; [now rewrite Hd|].
    now apply time_steps_convertible with g.
  - exists parts. eexists. rewrite (bind_Done _ _ _ _ _ Hrun).
    unfold print. split; [reflexivity|]. cbn [file stdout draws].
    rewrite Hf2, Hs2, Hd2. subst w1; simpl. auto.
Qed.

(* ================================================================== *)
(** * The emission schedule, the batches and the nostril sampler *)
(* ================================================================== *)

Lemma mouth_emission_ti g D ti e : mouth_emission g D ti e -> e_ti e = ti.
Proof. intros (i & ->). reflexivity. Qed.

Lemma nostril_emission_ti r D m ti e : nostril_emission r D m ti e -> e_ti e = ti.
Proof. intros (i & _ & H & _). exact H. Qed.

Lemma batch_tags (g : Config) (D : nat -> float) (ti : Z) (es : list Emission) :
  batch g D ti es ->
  Forall (fun e => e_ti e = ti) es /\
  List.length es = if exhaling g ti then batch_size g else 0%nat.
Proof.
  unfold batch, batch_size. destruct (exhaling g ti).
  - intros (ms & ls & rs & -> & Hm & Fm & Hl & Fl & Hr & Fr). split.
    + rewrite !Forall_app. repeat split.
      * eapply Forall_impl; [| exact Fm]. intros e. apply mouth_emission_ti.
      * eapply Forall_impl; [| exact Fl]. intros e. apply nostril_emission_ti.
      * eapply Forall_impl; [| exact Fr]. intros e. apply nostril_emission_ti.
    + rewrite !length_app. lia.
  - intros ->. split; [constructor | reflexivity].
Qed.

Lemma exhaling_window (g : Config) (ti : Z) :
  0 < c_cyclePeriod g ->
  exhaling g ti = true <-> ti mod c_cyclePeriod g < c_exhaleLength g.
Proof.
  intros H. unfold exhaling.
  assert (Hm := Z.mod_pos_bound ti (c_cyclePeriod g) H).
  rewrite andb_true_iff, Z.leb_le, Z.ltb_lt. lia.
Qed.

Lemma Forall2_impl {A B} (P Q : A -> B -> Prop) (xs : list A) (ys : list B) :
  (forall x y, In x xs -> P x y -> Q x y) ->
  Forall2 P xs ys -> Forall2 Q xs ys.
Proof.
  intros H F. induction F as [|x y xs ys Hxy F IH]; constructor.
  - apply H; [now left | assumption].
  - apply IH. intros a b Ha. apply H. now right.
Qed.

(** Claim C1.  In a run of the scheduler, for every time step [ti] of the
    loop a batch is emitted (all of it tagged [ti]) if and only if
    [ti mod cyclePeriod < exhaleLength]; at a step where the condition
    fails no particle is emitted.  The cycle period is positive, a batch
    has at least one particle, and accepted candidate pairs come up within
    the fuel. *)
Theorem emission_iff_exhale_window (fuel : nat) (g : Config) (w : World) :
  runnable g = true ->
  0 < c_cyclePeriod g ->
  (0 < batch_size g)%nat ->
  accepts_within fuel (c_radius g) (draws w) ->
  exists parts w',
    NoseParticleGeneration_with fuel g w = Done tt w' /\
    file w' = header_lines g ++ render g 0 (concat parts) /\
    Forall2 (fun ti part =>
               Forall (fun e => e_ti e = ti) part /\
               (part <> [] <-> ti mod c_cyclePeriod g < c_exhaleLength g) /\
               (~ ti mod c_cyclePeriod g < c_exhaleLength g ->
                  List.length part = 0%nat))
            (time_steps g) parts.
Proof.
  intros Hg Hper Hsize Hacc.
  destruct (run_emits fuel g w Hg Hacc) as (parts & w' & Hrun & Hparts & Hf & _).
  exists parts, w'. split; [assumption | split; [assumption |]].
  eapply Forall2_impl; [| exact Hparts]. cbv beta.
  intros ti part _ Hb. apply batch_tags in Hb. destruct Hb as [Htag Hlen].
  pose proof (exhaling_window g ti Hper) as Hw.
  destruct (exhaling g ti).
  - assert (Hin : ti mod c_cyclePeriod g < c_exhaleLength g) by now apply Hw.
    split; [assumption | split; [split |]]; auto.
    + intros _ ->. simpl in Hlen. lia.
    + intros Hn. contradiction.
  - assert (Hout : ~ ti mod c_cyclePeriod g < c_exhaleLength g).
    { intros Hc. apply Hw in Hc. discriminate. }
    destruct part; [| discriminate].
    split; [assumption | split; [split |]]; auto.
    intros Hc. contradiction.
Qed.

(** The same for the file as it stands (period 5000 ms, window 2500 ms),
    with a generator that keeps returning 0.5. *)
Lemma emission_iff_exhale_window_default :
  exists parts w',
    NoseParticleGeneration 1 steady = Done tt w' /\
    file w' = header_lines default ++ render default 0 (concat parts) /\
    Forall2 (fun ti part =>
               Forall (fun e => e_ti e = ti) part /\
               (part <> [] <-> ti mod 5000 < 2500) /\
               (~ ti mod 5000 < 2500 -> List.length part = 0%nat))
            (time_steps default) parts.
Proof.
  apply (emission_iff_exhale_window 1 default steady).
  - vm_compute. reflexivity.
  - reflexivity.
  - vm_compute. lia.
  - intros n. exists 0%nat. split; [lia | vm_compute; reflexivity].
Defined.

(** Claim C2.  A time step inside the exhale window hands exactly
    [mouthCount + 2 * nostrilCount] particles to the writer, all tagged with
    the step's [ti]: the mouth particles first, then those of the left
    nostril, then those of the right nostril; the identifier advances by
    that number and the file grows by as many lines. *)
Theorem active_step_batch (fuel : nat) (g : Config) (ti pId : Z) (w : World) :
  runnable g = true ->
  Z.abs ti < float_limit ->
  0 <= c_mouthCount g ->
  0 <= c_nostrilCount g ->
  accepts_within fuel (c_radius g) (draws w) ->
  exhaling g ti = true ->
  exists ms ls rs w',
    time_step fuel g ti pId w =
      Done (pId + (c_mouthCount g + 2 * c_nostrilCount g)) w' /\
    file w' = file w ++ render g pId (ms ++ ls ++ rs) /\
    Z.of_nat (List.length ms) = c_mouthCount g /\
    Forall (mouth_emission g (draws w) ti) ms /\
    Z.of_nat (List.length ls) = c_nostrilCount g /\
    Forall (nostril_emission (c_radius g) (draws w) (c_leftRotTrans g) ti) ls /\
    Z.of_nat (List.length rs) = c_nostrilCount g /\
    Forall (nostril_emission (c_radius g) (draws w) (c_rightRotTrans g) ti) rs /\
    Forall (fun e => e_ti e = ti) (ms ++ ls ++ rs) /\
    Z.of_nat (List.length (file w')) =
      Z.of_nat (List.length (file w)) + (c_mouthCount g + 2 * c_nostrilCount g).
Proof.
  intros Hg Hti Hm Hn Hacc Hex.
  destruct (time_step_emits fuel g ti pId w Hg Hacc Hti)
    as (es & w' & Hb & Hrun & _ & _ & Hf).
  destruct (batch_tags g (draws w) ti es Hb) as [Htags _].
  unfold batch in Hb. rewrite Hex in Hb.
  destruct Hb as (ms & ls & rs & -> & Hlm & Fm & Hll & Fl & Hlr & Fr).
  assert (Hlen : Z.of_nat (List.length (ms ++ ls ++ rs)) =
                 c_mouthCount g + 2 * c_nostrilCount g).
  { rewrite !length_app. lia. }
  exists ms, ls, rs, w'. rewrite Hrun, Hlen.
  repeat (split; [first [reflexivity | assumption | lia] |]).
  rewrite Hf, length_app, render_length. lia.
Qed.

(** The same for the file as it stands, at the time step 1000. *)
Lemma active_step_batch_default :
  exists ms ls rs w',
    time_step 1 default 1000 0 steady = Done 9 w' /\
    file w' = file steady ++ render default 0 (ms ++ ls ++ rs) /\
    Z.of_nat (List.length ms) = 5 /\
    Forall (mouth_emission default (draws steady) 1000) ms /\
    Z.of_nat (List.length ls) = 2 /\
    Forall (nostril_emission radius (draws steady) leftRotTrans 1000) ls /\
    Z.of_nat (List.length rs) = 2 /\
    Forall (nostril_emission radius (draws steady) rightRotTrans 1000) rs /\
    Forall (fun e => e_ti e = 1000) (ms ++ ls ++ rs) /\
    Z.of_nat (List.length (file w')) = Z.of_nat (List.length (file steady)) + 9.
Proof.
  apply (active_step_batch 1 default 1000 0 steady).
  - vm_compute. reflexivity.
  - vm_compute. reflexivity.
  - simpl. lia.
  - simpl. lia.
  - intros n. exists 0%nat. split; [lia | vm_compute; reflexivity].
  - reflexivity.
Defined.

Lemma concat_length_sum {A B} (f : A -> nat) (xs : list A) (parts : list (list B)) :
  Forall2 (fun x part => List.length part = f x) xs parts ->
  List.length (concat parts) = list_sum (map f xs).
Proof.
  induction 1 as [|x part xs parts Hx _ IH]; simpl.
  - reflexivity.
  - now rewrite length_app, Hx, IH.
Qed.

(** Claim C5.  With a step of 5 ms, a cycle of 5000 ms, an exhale window
    of 2500 ms, 5 mouth and 2 + 2 nostril particles per step and a loop that
    stops at 10000 ms, the time steps are 0, 5, ..., 9995; nine particles
    are emitted at each step of [0, 2500) and of [5000, 7500) and none at
    the others; the run writes 9000 particles in all and reports that
    number. *)
Theorem scenario_run (fuel : nat) (w : World) :
  accepts_within fuel radius (draws w) ->
  exists parts w',
    NoseParticleGeneration_with fuel scenario w = Done tt w' /\
    time_steps scenario = map (fun k => 5 * Z.of_nat k) (seq 0 2000) /\
    file w' = header_lines scenario ++ render scenario 0 (concat parts) /\
    Forall2 (fun ti part =>
               Forall (fun e => e_ti e = ti) part /\
               List.length part = if in_windows ti then 9%nat else 0%nat)
            (time_steps scenario) parts /\
    Z.of_nat (List.length (concat parts)) = 9000 /\
    stdout w' = stdout w ++ [summary 9000].
Proof.
  intros Hacc.
  destruct (run_emits fuel scenario w eq_refl Hacc)
    as (parts & w' & Hrun & Hparts & Hf & Hs & _).
  assert (Hwin : forall ti, In ti (time_steps scenario) ->
                   exhaling scenario ti = in_windows ti).
  { assert (Hall : forallb (fun ti => Bool.eqb (exhaling scenario ti) (in_windows ti))
                     (time_steps scenario) = true) by (vm_compute; reflexivity).
    intros ti Hin. rewrite forallb_forall in Hall.
    apply Bool.eqb_prop. now apply Hall. }
  assert (Hshape : Forall2 (fun ti part =>
               Forall (fun e => e_ti e = ti) part /\
               List.length part = if in_windows ti then 9%nat else 0%nat)
            (time_steps scenario) parts).
  { eapply Forall2_impl; [| exact Hparts]. cbv beta.
    intros ti part Hin Hb. apply batch_tags in Hb.
    rewrite (Hwin ti Hin) in Hb. exact Hb. }
  assert (Hlen : Z.of_nat (List.length (concat parts)) = 9000).
  { rewrite (concat_length_sum (fun ti => if in_windows ti then 9%nat else 0%nat)
               (time_steps scenario)).
    - vm_compute. reflexivity.
    - eapply Forall2_impl; [| exact Hshape]. cbv beta. intros ti part _ [_ H]. exact H. }
  exists parts, w'. rewrite Hlen in Hs.
  repeat (split; [first [assumption | (vm_compute; reflexivity)] |]).
  exact Hs.
Qed.

(** The scenario with a generator that keeps returning 0.5. *)
Lemma scenario_run_steady :
  exists parts w',
    NoseParticleGeneration_with 1 scenario steady = Done tt w' /\
    time_steps scenario = map (fun k => 5 * Z.of_nat k) (seq 0 2000) /\
    file w' = header_lines scenario ++ render scenario 0 (concat parts) /\
    Forall2 (fun ti part =>
               Forall (fun e => e_ti e = ti) part /\
               List.length part = if in_windows ti then 9%nat else 0%nat)
            (time_steps scenario) parts /\
    Z.of_nat (List.length (concat parts)) = 9000 /\
    stdout w' = stdout steady ++ [summary 9000].
Proof.
  apply (scenario_run 1 steady).
  intros n. exists 0%nat. split; [lia | vm_compute; reflexivity].
Defined.

Lemma time_steps_default :
  time_steps default = count_from (Z.to_nat 40001) 0 5.
Proof.
  unfold time_steps. rewrite <- count_from_map.
  replace (range_len 0 (c_stop default) (c_step default)) with 40001
    by reflexivity.
  reflexivity.
Qed.

(** The run of the file as it stands: the loop stops at 200005, so the
    step at 200000 ms, the 40001st, opens a 41st cycle and emits one more
    batch; 20001 batches of nine particles are written, 180009 in all, and
    that number is reported. *)
Theorem default_run_total (fuel : nat) (w : World) :
  accepts_within fuel radius (draws w) ->
  exists parts w',
    NoseParticleGeneration fuel w = Done tt w' /\
    nth_error (time_steps default) (Z.to_nat 40000) = Some 200000 /\
    exhaling default 200000 = true /\
    file w' = header_lines default ++ render default 0 (concat parts) /\
    Z.of_nat (List.length (concat parts)) = 180009 /\
    stdout w' = stdout w ++ [summary 180009].
Proof.
  intros Hacc.
  destruct (run_emits fuel default w eq_refl Hacc)
    as (parts & w' & Hrun & Hparts & Hf & Hs & _).
  assert (Hlen : Z.of_nat (List.length (concat parts)) = 180009).
  { rewrite (concat_length_sum
               (fun ti => if exhaling default ti then batch_size default else 0%nat)
               (time_steps default)).
    - rewrite time_steps_default. vm_compute. reflexivity.
    - eapply Forall2_impl; [| exact Hparts]. cbv beta.
      intros ti part _ Hb. apply batch_tags in Hb. exact (proj2 Hb). }
  exists parts, w'. rewrite Hlen in Hs.
  split; [exact Hrun |]. split.
  { rewrite time_steps_default. vm_compute. reflexivity. }
  split; [vm_compute; reflexivity |].
  split; [exact Hf |]. split; [exact Hlen | exact Hs].
Qed.

(** The same with a generator that keeps returning 0.5. *)
Lemma default_run_total_steady :
  exists parts w',
    NoseParticleGeneration 1 steady = Done tt w' /\
    nth_error (time_steps default) (Z.to_nat 40000) = Some 200000 /\
    exhaling default 200000 = true /\
    file w' = header_lines default ++ render default 0 (concat parts) /\
    Z.of_nat (List.length (concat parts)) = 180009 /\
    stdout w' = stdout steady ++ [summary 180009].
Proof.
  apply (default_run_total 1 steady).
  intros n. exists 0%nat. split; [lia | vm_compute; reflexivity].
Defined.

(** Claim C7.  [RotTrans] is a function of its two arguments only and,
    for every 3x4 matrix and every 3D point, returns the point whose [i]-th
    component is [R[i][0]*x + R[i][1]*y + R[i][2]*z + R[i][3]], in
    double precision and in this order of operations; there is no error
    case, and evaluating it in any world leaves that world as it is. *)
Theorem RotTrans_rows
    (r00 r01 r02 r03 r10 r11 r12 r13 r20 r21 r22 r23 x y z : float) :
  let R := [ [r00; r01; r02; r03]; [r10; r11; r12; r13]; [r20; r21; r22; r23] ] in
  let q := [ r00 * x + r01 * y + r02 * z + r03;
             r10 * x + r11 * y + r12 * z + r13;
             r20 * x + r21 * y + r22 * z + r23 ]%float in
  RotTrans R [x; y; z] = Ok q /\
  forall w : World, lift (RotTrans R [x; y; z]) w = Done q w.
Proof. cbv zeta. split; [reflexivity | intros w; reflexivity]. Qed.

(** Claim C10.  The two nostril matrices of the file are the same
    constant: every point has the same image under both, the nostril
    sampler behaves the same with either, and both nostril batches are drawn
    from the same region. *)
Theorem nostril_transforms_coincide :
  leftRotTrans = rightRotTrans /\
  (forall p, RotTrans leftRotTrans p = RotTrans rightRotTrans p) /\
  (forall fuel ti pId w,
     GenNostril fuel default ti (c_radius default) pId (c_leftRotTrans default) w =
     GenNostril fuel default ti (c_radius default) pId (c_rightRotTrans default) w) /\
  (forall D ti e,
     nostril_emission radius D leftRotTrans ti e <->
     nostril_emission radius D rightRotTrans ti e).
Proof.
  assert (H : leftRotTrans = rightRotTrans) by reflexivity.
  split; [exact H |]. split; [| split].
  - intros p. now rewrite H.
  - intros fuel ti pId w. simpl c_leftRotTrans. simpl c_rightRotTrans. now rewrite H.
  - intros D ti e. now rewrite H.
Qed.

(** Claim C6.  The full-format writer called with [ti = 2500], [pId = 0]
    and the coordinate [[0.0015, 3.37, 1.683]] appends exactly one line,
    the one displayed, and returns the identifier 1. *)
Theorem Output_scenario (w : World) :
  Output 2500 0 [0.0015; 3.37; 1.683]%float w =
  Done 1 (mkWorld (draws w) (cursor w)
            (file w ++
             [("0.001500000000000" ++ TAB ++ "3.370000000000000" ++ TAB ++
               "1.683000000000000" ++ TAB ++ "0.0" ++ TAB ++ "0.0" ++ TAB ++
               "0.0" ++ TAB ++ "  2.500" ++ TAB ++ "10.0e-6" ++ TAB ++
               "977.0" ++ TAB ++ "0" ++ NL)%string])
            (stdout w)).
Proof. vm_compute. reflexivity. Qed.

Lemma world_eq (w : World) (D : nat -> float) (c : nat) (f s : list string) :
  draws w = D -> cursor w = c -> file w = f -> stdout w = s ->
  w = mkWorld D c f s.
Proof. destruct w; simpl; intros; subst; reflexivity. Qed.

(** The rejection loop goes through every rejected pair: it ends right
    after the first accepted one if the fuel reaches that far, and is
    still running otherwise. *)
Lemma rejection_first (r : float) (k : nat) :
  forall (w : World),
    first_accept r (draws w) (cursor w) k ->
    (forall fuel, (k < fuel)%nat ->
       rejection fuel r w =
       Done (candidate r (draws w (cursor w + 2 * k)%nat),
             candidate r (draws w (S (cursor w + 2 * k))))
            (mkWorld (draws w) (cursor w + 2 * (k + 1)) (file w) (stdout w))) /\
    (forall fuel, (fuel <= k)%nat ->
       rejection fuel r w =
       Running (mkWorld (draws w) (cursor w + 2 * fuel) (file w) (stdout w))).
Proof.
  induction k as [|k IH]; intros w [Hacc Hrej].
  - split; intros fuel Hf.
    + destruct fuel as [|fuel]; [lia|]. rewrite rejection_S; cbv zeta.
      unfold accepted in Hacc. rewrite Nat.mul_0_r, Nat.add_0_r in *.
      rewrite Hacc. f_equal; f_equal; lia.
    + assert (fuel = 0%nat) as -> by lia. simpl. f_equal.
      apply world_eq; auto; lia.
  - assert (H0 : accepted r (draws w) (cursor w) = false).
    { rewrite <- (Nat.add_0_r (cursor w)). apply (Hrej 0%nat). lia. }
    set (w2 := mkWorld (draws w) (S (S (cursor w))) (file w) (stdout w)).
    assert (H2 : first_accept r (draws w2) (cursor w2) k).
    { subst w2; cbn [draws cursor]. split.
      - replace (S (S (cursor w)) + 2 * k)%nat with (cursor w + 2 * S k)%nat by lia.
        exact Hacc.
      - intros j Hj.
        replace (S (S (cursor w)) + 2 * j)%nat with (cursor w + 2 * S j)%nat by lia.
        apply Hrej. lia. }
    destruct (IH w2 H2) as [IHd IHr]. subst w2; cbn [draws cursor file stdout] in *.
    split; intros fuel Hf.
    + destruct fuel as [|fuel]; [lia|]. rewrite rejection_S; cbv zeta.
      unfold accepted in H0. rewrite H0. rewrite IHd by lia.
      replace (S (S (cursor w)) + 2 * k)%nat with (cursor w + 2 * S k)%nat by lia.
      f_equal; f_equal; lia.
    + destruct fuel as [|fuel].
      * simpl. f_equal. apply world_eq; auto; lia.
      * rewrite rejection_S; cbv zeta. unfold accepted in H0. rewrite H0.
        rewrite IHr by lia. f_equal; f_equal; lia.
Qed.

Lemma delayed_first_accept (r : float) (c n : nat) (u v u0 v0 : float) :
  inside r (candidate r u) (candidate r v) = false ->
  inside r (candidate r u0) (candidate r v0) = true ->
  first_accept r (delayed c n u v u0 v0) c n /\
  first_accept r (delayed c n u v u0 v0) (c + 2 * (n + 1)) 0.
Proof.
  intros Hrej Hacc.
  assert (Hlate : forall j, (n <= j)%nat ->
            accepted r (delayed c n u v u0 v0) (c + 2 * j) = true).
  { intros j Hj. unfold accepted, delayed.
    destruct (Nat.ltb_spec (c + 2 * j) (c + 2 * n)); [lia|].
    destruct (Nat.ltb_spec (S (c + 2 * j)) (c + 2 * n)); [lia|].
    replace (c + 2 * j - c)%nat with (2 * j)%nat by lia.
    replace (S (c + 2 * j) - c)%nat with (S (2 * j)) by lia.
    rewrite Nat.even_succ, Nat.even_mul, <- Nat.negb_even, Nat.even_mul.
    exact Hacc. }
  split; split.
  - apply Hlate. lia.
  - intros j Hj. unfold accepted, delayed.
    destruct (Nat.ltb_spec (c + 2 * j) (c + 2 * n)); [|lia].
    destruct (Nat.ltb_spec (S (c + 2 * j)) (c + 2 * n)); [|lia].
    replace (c + 2 * j - c)%nat with (2 * j)%nat by lia.
    replace (S (c + 2 * j) - c)%nat with (S (2 * j)) by lia.
    rewrite Nat.even_succ, Nat.even_mul, <- Nat.negb_even, Nat.even_mul.
    exact Hrej.
  - replace (c + 2 * (n + 1) + 2 * 0)%nat with (c + 2 * (n + 1))%nat by lia.
    apply Hlate. lia.
  - intros j Hj. lia.
Qed.

Lemma range_two : range 0 2 1 = Ok [0; 1].
Proof. reflexivity. Qed.

Lemma nostril_particle_Done (fuel : nat) (g : Config) (ti pId : Z) (r : float)
    (m : list (list float)) (w w1 : World) (x y a b c : float) :
  Z.abs ti < float_limit ->
  rejection fuel r w = Done (x, y) w1 ->
  RotTrans m [x; y; 0.0%float] = Ok [a; b; c] ->
  nostril_particle fuel g ti r m pId w =
  Done (pId + 1)
       (mkWorld (draws w1) (cursor w1)
          (file w1 ++ [record_text g pId (mkEmission ti a b c)]) (stdout w1)).
Proof.
  intros Hti Hrej Hrt. unfold nostril_particle.
  rewrite (bind_Done _ _ _ _ _ Hrej). cbn [fst snd].
  rewrite (lift_Ok _ _ _ _ Hrt). now apply whichOutput_Done.
Qed.

Lemma nostril_particle_Running (fuel : nat) (g : Config) (ti pId : Z) (r : float)
    (m : list (list float)) (w w1 : World) :
  rejection fuel r w = Running w1 ->
  nostril_particle fuel g ti r m pId w = Running w1.
Proof. intros H. unfold nostril_particle, bind. now rewrite H. Qed.

Lemma GenNostril_two (fuel : nat) (g : Config) (ti pId : Z) (r : float)
    (m : list (list float)) :
  c_nostrilCount g = 2 ->
  GenNostril fuel g ti r pId m =
  bind (nostril_particle fuel g ti r m pId)
       (fun p => bind (nostril_particle fuel g ti r m p) ret).
Proof. intros H. unfold GenNostril. rewrite H. reflexivity. Qed.

(** Claim C8.  Let the first accepted pair come after [k1] rejected ones
    and, from there, the next accepted pair after [k2] rejected ones.  Then
    the nostril sampler, given more fuel than [k1] and [k2], ends with
    exactly two samples written, both images of accepted pairs, having read
    [2 * (k1 + 1) + 2 * (k2 + 1)] draws; with less fuel it is still in a
    rejection loop.  Nothing bounds [k1] and [k2]: as soon as some pair is
    rejected at all, there are sequences with any number [n] of rejections
    before the first accepted pair. *)
Theorem GenNostril_two_samples (g : Config) (ti pId : Z) (r : float)
    (m : list (list float)) (w : World) (k1 k2 : nat) :
  c_nostrilCount g = 2 ->
  Z.abs ti < float_limit ->
  affine m = true ->
  first_accept r (draws w) (cursor w) k1 ->
  first_accept r (draws w) (cursor w + 2 * (k1 + 1)) k2 ->
  (forall fuel, (Nat.max k1 k2 < fuel)%nat ->
     exists e1 e2 w',
       GenNostril fuel g ti r pId m w = Done (pId + 2) w' /\
       file w' = file w ++ render g pId [e1; e2] /\
       nostril_emission r (draws w) m ti e1 /\
       nostril_emission r (draws w) m ti e2 /\
       cursor w' = (cursor w + 2 * (k1 + 1) + 2 * (k2 + 1))%nat) /\
  (forall fuel, (fuel <= Nat.max k1 k2)%nat ->
     exists w', GenNostril fuel g ti r pId m w = Running w') /\
  (forall u v, inside r (candidate r u) (candidate r v) = false ->
     forall n, exists D,
       first_accept r D (cursor w) n /\
       first_accept r D (cursor w + 2 * (n + 1)) 0).
Proof.
  intros Hn Hti Hm H1 H2.
  destruct (rejection_first r k1 w H1) as [Hd1 Hr1].
  set (x1 := candidate r (draws w (cursor w + 2 * k1)%nat)) in *.
  set (y1 := candidate r (draws w (S (cursor w + 2 * k1)))) in *.
  destruct (RotTrans_affine m x1 y1 0.0%float Hm) as (a1 & b1 & c1 & Hrt1).
  set (e1 := mkEmission ti a1 b1 c1).
  set (w1 := mkWorld (draws w) (cursor w + 2 * (k1 + 1))
                (file w ++ [record_text g pId e1]) (stdout w)).
  assert (Hfirst : forall fuel, (k1 < fuel)%nat ->
            nostril_particle fuel g ti r m pId w = Done (pId + 1) w1).
  { intros fuel Hf.
    now rewrite (nostril_particle_Done fuel g ti pId r m w _ x1 y1 a1 b1 c1
                   Hti (Hd1 fuel Hf) Hrt1). }
  assert (H2' : first_accept r (draws w1) (cursor w1) k2) by exact H2.
  destruct (rejection_first r k2 w1 H2') as [Hd2 Hr2].
  cbn [draws cursor file stdout w1] in Hd2, Hr2.
  set (x2 := candidate r (draws w (cursor w + 2 * (k1 + 1) + 2 * k2)%nat)) in *.
  set (y2 := candidate r (draws w (S (cursor w + 2 * (k1 + 1) + 2 * k2)))) in *.
  destruct (RotTrans_affine m x2 y2 0.0%float Hm) as (a2 & b2 & c2 & Hrt2).
  set (e2 := mkEmission ti a2 b2 c2).
  split; [| split].
  - intros fuel Hf. rewrite (GenNostril_two fuel g ti pId r m Hn).
    rewrite (bind_Done _ _ _ _ _ (Hfirst fuel ltac:(lia))).
    rewrite (bind_Done _ _ _ _ _
               (nostril_particle_Done fuel g ti (pId + 1) r m w1 _ x2 y2 a2 b2 c2
                  Hti (Hd2 fuel ltac:(lia)) Hrt2)).
    exists e1, e2. eexists. split; [unfold ret; f_equal; lia |].
    cbn [file cursor render]. rewrite <- app_assoc.
    repeat split.
    + exists (cursor w + 2 * k1)%nat. cbv zeta. fold x1 y1.
      destruct H1 as [H1 _]. auto.
    + exists (cursor w + 2 * (k1 + 1) + 2 * k2)%nat. cbv zeta. fold x2 y2.
      destruct H2 as [H2 _]. auto.
  - intros fuel Hf. rewrite (GenNostril_two fuel g ti pId r m Hn).
    destruct (Nat.le_gt_cases fuel k1) as [Hle | Hgt].
    + eexists. unfold bind at 1.
      rewrite (nostril_particle_Running _ _ _ _ _ _ _ _ (Hr1 fuel Hle)).
      reflexivity.
    + eexists. rewrite (bind_Done _ _ _ _ _ (Hfirst fuel Hgt)).
      unfold bind at 1.
      rewrite (nostril_particle_Running _ _ _ _ _ _ _ _ (Hr2 fuel ltac:(lia))).
      reflexivity.
  - intros u v Hrej n.
    exists (delayed (cursor w) n u v (draws w (cursor w + 2 * k1)%nat)
              (draws w (S (cursor w + 2 * k1)))).
    apply delayed_first_accept; [exact Hrej |]. destruct H1 as [H1 _]. exact H1.
Qed.

(** The left nostril of the file, with one rejected pair before the first
    accepted one: six draws are read. *)
Lemma GenNostril_two_samples_late :
  exists e1 e2 w',
    GenNostril 2 default 0 radius 0 leftRotTrans late = Done 2 w' /\
    file w' = file late ++ render default 0 [e1; e2] /\
    nostril_emission radius (draws late) leftRotTrans 0 e1 /\
    nostril_emission radius (draws late) leftRotTrans 0 e2 /\
    cursor w' = 6%nat.
Proof.
  refine (proj1 (GenNostril_two_samples default 0 0 radius leftRotTrans late
                   1 0 eq_refl _ eq_refl _ _) 2%nat _).
  - vm_compute. reflexivity.
  - split; [vm_compute; reflexivity |].
    intros j Hj. assert (j = 0%nat) as -> by lia. vm_compute. reflexivity.
  - split; [vm_compute; reflexivity |]. intros j Hj. lia.
  - simpl. lia.
Defined.

(* ================================================================== *)
(** * Particle identifiers *)
(* ================================================================== *)

Section Invariant.

(** A relation between the state a statement starts in and its outcome
    that holds of doing nothing and composes along normal ends. *)
Variable I : Z -> World -> outcome Z -> Prop.
Hypothesis I_ret : forall p w, I p w (Done p w).
Hypothesis I_seq : forall p w p1 w1 o,
  I p w (Done p1 w1) -> I p1 w1 o -> I p w o.

Lemma inv_bind (c : M Z) (k : Z -> M Z) (p : Z) (w : World) :
  I p w (c w) -> (forall p1 w1, I p1 w1 (k p1 w1)) -> I p w (bind c k w).
Proof.
  intros Hc Hk. unfold bind. destruct (c w) as [p1 w1 | e w1 | w1]; auto.
  eapply I_seq; [exact Hc | apply Hk].
Qed.

Lemma inv_for_in {A} (xs : list A) (body : A -> Z -> M Z) :
  (forall x p w, I p w (body x p w)) ->
  forall p w, I p w (for_in xs body p w).
Proof.
  intros Hbody. induction xs as [|x xs IH]; intros p w; simpl.
  - apply I_ret.
  - apply inv_bind; auto.
Qed.

End Invariant.

Lemma numbered_ret (g : Config) (p : Z) (w : World) : numbered g p w (Done p w).
Proof.
  exists []. simpl. split; [now rewrite app_nil_r | split; [reflexivity |]].
  intros a w' [= <- _]. lia.
Qed.

Lemma numbered_seq (g : Config) (p : Z) (w : World) (p1 : Z) (w1 : World)
    (o : outcome Z) :
  numbered g p w (Done p1 w1) -> numbered g p1 w1 o -> numbered g p w o.
Proof.
  intros (es1 & Hf1 & Hs1 & Hp1) (es2 & Hf2 & Hs2 & Hp2). simpl in Hf1, Hs1.
  specialize (Hp1 p1 w1 eq_refl). subst p1.
  exists (es1 ++ es2). split; [| split].
  - now rewrite Hf2, Hf1, render_app, app_assoc.
  - congruence.
  - intros a w' Ho. rewrite (Hp2 a w' Ho), length_app. lia.
Qed.

Lemma numbered_stop (g : Config) (p : Z) (w : World) (o : outcome Z) :
  file (world_of o) = file w -> stdout (world_of o) = stdout w ->
  (forall a w', o <> Done a w') -> numbered g p w o.
Proof.
  intros Hf Hs Hn. exists []. simpl.
  split; [now rewrite app_nil_r | split; [exact Hs |]].
  intros a w' Ho. now elim (Hn a w').
Qed.

Lemma truediv_Ok (ti : Z) (t : float) :
  truediv ti 1000.0 = Ok t -> t = (Z2F ti / 1000.0)%float.
Proof.
  unfold truediv, float_of_int. destruct (Z.abs ti <? float_limit); [| discriminate].
  change (1000.0 =? 0)%float with false. now intros [= <-].
Qed.

Lemma whichOutput_numbered (g : Config) (ti p : Z) (coord : list float) (w : World) :
  numbered g p w (whichOutput g ti p coord w).
Proof.
  destruct coord as [|x [|y [|z rest]]];
    try (apply numbered_stop;
         unfold whichOutput; destruct (c_whichOutput g);
         first [reflexivity | discriminate]).
  unfold whichOutput, numbered.
  destruct (c_whichOutput g) eqn:Hw; unfold Output, OutputStar;
    unfold bind at 1 2 3; cbn [lift index nth_error].
  - unfold bind at 1, lift. destruct (truediv ti 1000.0) as [t | e] eqn:Ht.
    + apply truediv_Ok in Ht. subst t.
      exists [mkEmission ti x y z]. simpl. unfold record_text. rewrite Hw.
      split; [reflexivity | split; [reflexivity |]]. now intros a w' [= <- _].
    + apply numbered_stop; first [reflexivity | discriminate].
  - exists [mkEmission ti x y z]. simpl. unfold record_text. rewrite Hw.
    split; [reflexivity | split; [reflexivity |]]. now intros a w' [= <- _].
Qed.

Lemma mouth_particle_numbered (g : Config) (ti p : Z) (w : World) :
  numbered g p w (mouth_particle g ti p w).
Proof.
  unfold mouth_particle.
  rewrite (bind_Done _ _ _ _ _ (uniform_Done _ _ _)).
  rewrite (bind_Done _ _ _ _ _ (uniform_Done _ _ _)).
  match goal with |- numbered _ _ _ (whichOutput _ _ _ ?c ?w1) =>
    destruct (whichOutput_numbered g ti p c w1) as (es & Hf & Hs & Hp) end.
  exists es. repeat split; assumption.
Qed.

(** The rejection loop writes nothing. *)
Lemma rejection_silent (fuel : nat) (r : float) (w : World) :
  file (world_of (rejection fuel r w)) = file w /\
  stdout (world_of (rejection fuel r w)) = stdout w.
Proof.
  revert w. induction fuel as [|fuel IH]; intros w; [split; reflexivity |].
  rewrite rejection_S; cbv zeta. destruct (inside r _ _); [split; reflexivity |].
  match goal with |- context [rejection fuel r ?w2] =>
    destruct (IH w2) as [Hf Hs] end.
  split; assumption.
Qed.

Lemma nostril_particle_numbered (fuel : nat) (g : Config) (ti p : Z) (r : float)
    (m : list (list float)) (w : World) :
  numbered g p w (nostril_particle fuel g ti r m p w).
Proof.
  unfold nostril_particle, bind at 1.
  destruct (rejection_silent fuel r w) as [Hf Hs].
  destruct (rejection fuel r w) as [[x y] w1 | e w1 | w1]; simpl in Hf, Hs;
    try (apply numbered_stop; [exact Hf | exact Hs | discriminate]).
  unfold bind, lift. cbn [fst snd].
  destruct (RotTrans m _) as [coord | e];
    [| apply numbered_stop; [exact Hf | exact Hs | discriminate]].
  destruct (whichOutput_numbered g ti p coord w1) as (es & Hf1 & Hs1 & Hp).
  exists es. rewrite <- Hf, <- Hs. repeat split; assumption.
Qed.

Lemma lift_numbered {A} (g : Config) (r : res A) (k : A -> M Z) (p : Z) (w : World) :
  (forall a, numbered g p w (k a w)) -> numbered g p w (bind (lift r) k w).
Proof.
  intros Hk. destruct r as [a | e]; [apply Hk |].
  apply numbered_stop; first [reflexivity | discriminate].
Qed.

Lemma GenNostril_numbered (fuel : nat) (g : Config) (ti p : Z) (r : float)
    (m : list (list float)) (w : World) :
  numbered g p w (GenNostril fuel g ti r p m w).
Proof.
  unfold GenNostril. apply lift_numbered. intros tis.
  apply (inv_for_in (numbered g) (numbered_ret g) (numbered_seq g)).
  intros _ p1 w1. apply nostril_particle_numbered.
Qed.

Lemma time_step_numbered (fuel : nat) (g : Config) (ti p : Z) (w : World) :
  numbered g p w (time_step fuel g ti p w).
Proof.
  unfold time_step. apply lift_numbered. intros tm.
  destruct (_ && _); [| apply numbered_ret].
  apply lift_numbered. intros r.
  apply (inv_bind (numbered g) (numbered_seq g)).
  - apply (inv_for_in (numbered g) (numbered_ret g) (numbered_seq g)).
    intros _ p1 w1. apply mouth_particle_numbered.
  - intros p1 w1. apply (inv_bind (numbered g) (numbered_seq g)).
    + apply GenNostril_numbered.
    + intros p2 w2. apply GenNostril_numbered.
Qed.

Lemma string_app_assoc (a b c : string) :
  ((a ++ b) ++ c = a ++ (b ++ c))%string.
Proof. induction a as [|ch a IH]; simpl; [reflexivity | now rewrite IH]. Qed.

(** The identifier field of a record. *)
Lemma record_text_id (g : Config) (pId : Z) (e : Emission) :
  match c_whichOutput g with
  | UseOutput =>
    exists fields, record_text g pId e = (fields ++ TAB ++ str_int pId ++ NL)%string
  | UseOutputStar =>
    exists coords,
      record_text g pId e = ("v, " ++ str_int (pId + 1) ++ ", " ++ coords)%string
  end.
Proof.
  unfold record_text. destruct (c_whichOutput g).
  - unfold Output_text.
    exists (format_f 15 (e_x e) ++ TAB ++ format_f 15 (e_y e) ++ TAB ++
            format_f 15 (e_z e) ++ TAB ++ "0.0" ++ TAB ++ "0.0" ++ TAB ++ "0.0" ++
            TAB ++ format_wf 7 3 (Z2F (e_ti e) / 1000.0)%float ++ TAB ++
            "10.0e-6" ++ TAB ++ "977.0")%string.
    now rewrite !string_app_assoc.
  - unfold OutputStar_text. eexists. reflexivity.
Qed.

Lemma render_nth (g : Config) (es : list Emission) :
  forall (pId : Z) (k : nat) (line : string),
    nth_error (render g pId es) k = Some line ->
    exists e, nth_error es k = Some e /\ line = record_text g (pId + Z.of_nat k) e.
Proof.
  induction es as [|e es IH]; intros pId k line H.
  - destruct k; discriminate.
  - destruct k as [|k]; simpl in H.
    + injection H as <-. exists e. split; [reflexivity |]. now rewrite Z.add_0_r.
    + destruct (IH _ _ _ H) as (e' & He & ->). exists e'. split; [exact He |].
      f_equal. lia.
Qed.

Lemma whichOutput_step (g : Config) (ti pId : Z) (coord : list float)
    (w0 w1 : World) (a : Z) :
  whichOutput g ti pId coord w0 = Done a w1 ->
  a = pId + 1 /\
  exists e, file w1 = file w0 ++ [record_text g pId e] /\
            stdout w1 = stdout w0 /\ cursor w1 = cursor w0.
Proof.
  unfold whichOutput, record_text.
  destruct (c_whichOutput g); unfold Output, OutputStar;
    destruct coord as [|x [|y [|z rest]]]; try discriminate;
    unfold bind at 1 2 3; cbn [lift index nth_error].
  - unfold bind at 1, lift. destruct (truediv ti 1000.0) as [t | e] eqn:Ht;
      [| discriminate].
    apply truediv_Ok in Ht. subst t. intros [= <- <-].
    split; [reflexivity |]. exists (mkEmission ti x y z). auto.
  - intros [= <- <-]. split; [reflexivity |]. exists (mkEmission ti x y z). auto.
Qed.

(** The run, with the file opened and the header written. *)
Lemma run_unfold (fuel : nat) (g : Config) (w : World) :
  NoseParticleGeneration_with fuel g w =
  let w1 := mkWorld (draws w) (cursor w) (header_lines g) (stdout w) in
  match range 0 (c_stop g) (c_step g) with
  | Err e => Raise e w1
  | Ok tis =>
    match for_in tis (time_step fuel g) 0 w1 with
    | Done p w2 =>
      Done tt (mkWorld (draws w2) (cursor w2) (file w2) (stdout w2 ++ [summary p]))
    | Raise e w2 => Raise e w2
    | Running w2 => Running w2
    end
  end.
Proof.
  unfold NoseParticleGeneration_with.
  unfold bind at 1, open_w. rewrite (bind_Done _ _ _ _ _ (header_Done _ _)).
  cbn [file draws cursor stdout app]. unfold bind, lift, print.
  destruct (range 0 (c_stop g) (c_step g)); reflexivity.
Qed.

(** Claim C3.  Every call of the writer that returns appends one line and
    returns the identifier it was given plus one.  However a run ends, the
    file holds the header followed by the lines of some emissions, the
    [k]-th of them (from 0) written with the identifier [k]: the full format
    prints [k] in its last field, the first one printing 0, and the star
    format prints [k + 1] in its first field, the first one printing 1.  A
    run that ends normally reports the number of lines written. *)
Theorem identifiers_gap_free (fuel : nat) (g : Config) (w : World) :
  (forall ti pId coord w0 a w1,
     whichOutput g ti pId coord w0 = Done a w1 ->
     a = pId + 1 /\
     exists e, file w1 = file w0 ++ [record_text g pId e] /\
               stdout w1 = stdout w0 /\ cursor w1 = cursor w0) /\
  exists es,
    file (world_of (NoseParticleGeneration_with fuel g w)) =
      header_lines g ++ render g 0 es /\
    (forall w', NoseParticleGeneration_with fuel g w = Done tt w' ->
       stdout w' = stdout w ++ [summary (Z.of_nat (List.length es))]) /\
    (forall k line,
       nth_error (render g 0 es) k = Some line ->
       match c_whichOutput g with
       | UseOutput =>
         exists fields,
           line = (fields ++ TAB ++ str_int (Z.of_nat k) ++ NL)%string
       | UseOutputStar =>
         exists coords,
           line = ("v, " ++ str_int (Z.of_nat k + 1) ++ ", " ++ coords)%string
       end).
Proof.
  split; [intros ti pId coord w0 a w1; apply whichOutput_step |].
  assert (Hid : forall es k line,
            nth_error (render g 0 es) k = Some line ->
            match c_whichOutput g with
            | UseOutput =>
              exists fields,
                line = (fields ++ TAB ++ str_int (Z.of_nat k) ++ NL)%string
            | UseOutputStar =>
              exists coords,
                line = ("v, " ++ str_int (Z.of_nat k + 1) ++ ", " ++ coords)%string
            end).
  { intros es k line H. destruct (render_nth g es 0 k line H) as (e & _ & ->).
    rewrite Z.add_0_l. apply record_text_id. }
  rewrite run_unfold. cbv zeta. set (w1 := mkWorld _ _ _ _).
  destruct (range 0 (c_stop g) (c_step g)) as [tis | e].
  - pose proof (inv_for_in (numbered g) (numbered_ret g) (numbered_seq g)
                  tis (time_step fuel g) (time_step_numbered fuel g) 0 w1)
      as (es & Hf & Hs & Hp).
    exists es.
    destruct (for_in tis (time_step fuel g) 0 w1) as [p w2 | e w2 | w2];
      cbn [world_of file] in *; (split; [exact Hf | split; [| apply Hid]]);
      try discriminate.
    intros w' [= <-]. cbn [stdout].
    rewrite (Hp p w2 eq_refl), Z.add_0_l, Hs. reflexivity.
  - exists []. split; [| split; [discriminate | apply Hid]].
    cbn [world_of render file]. now rewrite app_nil_r.
Qed.

(* ================================================================== *)
(** * Rounding in binary64 *)
(* ================================================================== *)

Lemma p2_pos (e : Z) : - bias <= e -> 0 < p2 e.
Proof. intros H. apply Z.pow_pos_nonneg; lia. Qed.

Lemma p2_add (e n : Z) : - bias <= e -> 0 <= n -> p2 (e + n) = p2 e * 2 ^ n.
Proof.
  intros He Hn. unfold p2.
  replace (e + n + bias) with ((e + bias) + n) by lia.
  apply Z.pow_add_r; lia.
Qed.

Lemma p2_le (e e' : Z) : - bias <= e -> e <= e' -> p2 e <= p2 e'.
Proof. intros He Hle. apply Z.pow_le_mono_r; lia. Qed.

Lemma digits2_size (m : positive) : digits2_pos m = Pos.size m.
Proof. induction m; simpl; congruence. Qed.

Lemma digits_upper (m : positive) : Zpos m < 2 ^ Zpos (digits2_pos m).
Proof.
  rewrite digits2_size. pose proof (Pos.size_gt m) as H.
  change 2 with (Zpos 2). rewrite <- Pos2Z.inj_pow. exact H.
Qed.

Lemma digits_lower (m : positive) : 2 ^ (Zpos (digits2_pos m) - 1) <= Zpos m.
Proof.
  rewrite digits2_size. pose proof (Pos.size_le m) as H.
  assert (H2 : 2 ^ Zpos (Pos.size m) <= 2 * Zpos m).
  { change 2 with (Zpos 2) at 1. rewrite <- Pos2Z.inj_pow. exact H. }
  replace (Zpos (Pos.size m)) with (Zpos (Pos.size m) - 1 + 1) in H2 by lia.
  rewrite Z.pow_add_r in H2 by lia. lia.
Qed.

Lemma iter_pos_nat {A} (f : A -> A) (p : positive) (x : A) :
  iter_pos f p x = Nat.iter (Pos.to_nat p) f x.
Proof.
  assert (Hadd : forall n k (y : A), Nat.iter n f (Nat.iter k f y) = Nat.iter (n + k) f y).
  { induction n; simpl; intros; [reflexivity | now rewrite IHn]. }
  assert (Hcomm : forall n (y : A), Nat.iter n f (f y) = f (Nat.iter n f y)).
  { induction n; simpl; intros; [reflexivity | now rewrite IHn]. }
  revert x. induction p as [p IH | p IH |]; intros x; cbn [iter_pos].
  - rewrite !IH, Hadd, Pos2Nat.inj_xI, Hcomm.
    change (f (Nat.iter (Pos.to_nat p + Pos.to_nat p) f x))
      with (Nat.iter (S (Pos.to_nat p + Pos.to_nat p)) f x).
    f_equal. lia.
  - rewrite !IH, Hadd, Pos2Nat.inj_xO. f_equal. lia.
  - reflexivity.
Qed.

Lemma shr_1_m (mrs : shr_record) :
  0 <= shr_m mrs -> shr_m (shr_1 mrs) = shr_m mrs / 2.
Proof.
  destruct mrs as [m r s]; simpl. intros H.
  destruct m as [|p|p]; [reflexivity | | lia].
  destruct p as [p|p|]; simpl.
  - rewrite Pos2Z.inj_xI. apply Z.div_unique with 1; lia.
  - rewrite Pos2Z.inj_xO. apply Z.div_unique with 0; lia.
  - reflexivity.
Qed.

Lemma shr_1_r (mrs : shr_record) :
  0 <= shr_m mrs -> shr_r (shr_1 mrs) = Z.odd (shr_m mrs).
Proof.
  destruct mrs as [m r s]; simpl. intros H.
  destruct m as [|p|p]; [reflexivity | | lia].
  destruct p as [p|p|]; reflexivity.
Qed.

Lemma shr_1_s (mrs : shr_record) :
  shr_s (shr_1 mrs) = shr_r mrs || shr_s mrs.
Proof.
  destruct mrs as [m r s]; simpl.
  destruct m as [|p|p]; [reflexivity | |]; destruct p as [p|p|]; reflexivity.
Qed.

(** [n] shifts to the right divide by [2^n]; nothing is recorded as lost
    if nothing is. *)
Lemma shr_iter (n : nat) (mrs : shr_record) :
  0 <= shr_m mrs ->
  let out := Nat.iter n shr_1 mrs in
  shr_m out = shr_m mrs / 2 ^ Z.of_nat n /\
  (shr_r mrs = false -> shr_s mrs = false ->
   shr_m mrs mod 2 ^ Z.of_nat n = 0 ->
   shr_r out = false /\ shr_s out = false).
Proof.
  intros Hm. induction n as [|n [IHm IHx]]; cbv zeta.
  - simpl. rewrite Z.div_1_r. auto.
  - rewrite !Nat.iter_succ. set (out := Nat.iter n shr_1 mrs) in *.
    assert (Hpow : 0 < 2 ^ Z.of_nat n) by (apply Z.pow_pos_nonneg; lia).
    assert (Hout : 0 <= shr_m out).
    { rewrite IHm. apply Z.div_pos; lia. }
    assert (HS : 2 ^ Z.of_nat (S n) = 2 ^ Z.of_nat n * 2).
    { rewrite Nat2Z.inj_succ, Z.pow_succ_r by lia. lia. }
    split.
    + rewrite shr_1_m, IHm, HS by assumption.
      rewrite Z.div_div by lia. reflexivity.
    + intros Hr Hs Hmod. rewrite HS in Hmod.
      apply Z.mod_divide in Hmod; [| lia]. destruct Hmod as [q Hq].
      assert (Hmod' : shr_m mrs mod 2 ^ Z.of_nat n = 0).
      { apply Z.mod_divide; [lia |]. exists (q * 2). lia. }
      destruct (IHx Hr Hs Hmod') as [Hr' Hs'].
      rewrite shr_1_r, shr_1_s, Hr', Hs' by assumption. split; [| reflexivity].
      rewrite IHm. replace (shr_m mrs) with ((q * 2) * 2 ^ Z.of_nat n) by lia.
      rewrite Z.div_mul by lia. rewrite Z.mul_comm. apply Z.odd_even.
Qed.

Lemma fexp_eq (k : Z) : fexp prec emax k = Z.max (k - 53) (-1074).
Proof. reflexivity. Qed.

Lemma pow2_split (a b : Z) : 0 <= a <= b -> 2 ^ b = 2 ^ a * 2 ^ (b - a).
Proof.
  intros H. rewrite <- Z.pow_add_r by lia. f_equal. lia.
Qed.

(** The first step of rounding: the mantissa is cut at the exponent the
    format prescribes. *)
Lemma shr_fexp_exact (M e : Z) :
  0 <= M ->
  let n := Z.max 0 (fexp prec emax (Zdigits2 M + e) - e) in
  exists mrs,
    shr_fexp prec emax M e loc_Exact = (mrs, e + n) /\
    shr_m mrs = M / 2 ^ n /\
    (M mod 2 ^ n = 0 -> loc_of_shr_record mrs = loc_Exact).
Proof.
  intros HM n. unfold shr_fexp, shr. subst n.
  destruct (fexp prec emax (Zdigits2 M + e) - e) as [|p|p] eqn:Hn.
  - eexists. split; [rewrite Z.add_0_r; reflexivity |].
    simpl. rewrite Z.div_1_r. auto.
  - rewrite iter_pos_nat.
    destruct (shr_iter (Pos.to_nat p) (shr_record_of_loc M loc_Exact) HM)
      as [Hm Hx]. rewrite positive_nat_Z in Hm, Hx.
    eexists. split; [reflexivity |].
    replace (Z.max 0 (Z.pos p)) with (Z.pos p) by lia.
    split; [exact Hm |]. intros Hmod.
    destruct (Hx eq_refl eq_refl Hmod) as [Hr Hs].
    destruct (Nat.iter _ _ _) as [m' r' s']; simpl in *. now subst.
  - eexists. split; [rewrite Z.add_0_r; reflexivity |].
    simpl. rewrite Z.div_1_r. auto.
Qed.

Lemma Zdigits2_upper (M : Z) : 0 <= M -> M < 2 ^ Zdigits2 M \/ M = 0.
Proof.
  destruct M as [|p|p]; intros H; [now right | left | lia].
  apply digits_upper.
Qed.

Lemma Zdigits2_le (M k : Z) : 0 <= k -> 0 <= M < 2 ^ k -> Zdigits2 M <= k.
Proof.
  intros Hk [H0 HM]. destruct M as [|p|p]; [simpl; lia | | lia].
  simpl. pose proof (digits_lower p) as Hl.
  destruct (Z.le_gt_cases (Zpos (digits2_pos p)) k) as [|Hgt]; [assumption |].
  exfalso. assert (2 ^ k <= 2 ^ (Zpos (digits2_pos p) - 1))
    by (apply Z.pow_le_mono_r; lia). lia.
Qed.

Lemma round_nearest_even_range (m : Z) (l : location) :
  m <= round_nearest_even m l <= m + 1.
Proof.
  unfold round_nearest_even. destruct l as [|[| |]]; try lia.
  destruct (Z.even m); lia.
Qed.

(** What [binary_round_aux] returns for an exact input [m * 2^e]: with [n]
    the number of bits cut off, a mantissa [m2] next to [m / 2^n], equal
    to it if no bit is lost, at the exponent [e + n]; the result holds the
    same number, renormalised by one bit when [m2] is [2^53]. *)
Lemma round_core (s : bool) (m : positive) (e : Z) :
  let n := Z.max 0 (fexp prec emax (Zpos (digits2_pos m) + e) - e) in
  exists M E m2,
    binary_round_aux prec emax s (Zpos m) e loc_Exact =
      match M with
      | Z0 => S754_zero s
      | Zpos q => if E <=? 971 then S754_finite s q E else S754_infinity s
      | Zneg _ => S754_nan
      end /\
    Zpos m / 2 ^ n <= m2 <= Zpos m / 2 ^ n + 1 /\
    (Zpos m mod 2 ^ n = 0 -> m2 = Zpos m / 2 ^ n) /\
    ((E = e + n /\ M = m2) \/ (E = e + n + 1 /\ m2 = 2 ^ 53 /\ M = 2 ^ 52)).
Proof.
  intros n. unfold binary_round_aux.
  destruct (shr_fexp_exact (Zpos m) e) as (mrs & Hshr & Hm1 & Hx); [lia |].
  change (Zdigits2 (Zpos m)) with (Zpos (digits2_pos m)) in *. fold n in Hshr, Hm1, Hx.
  rewrite Hshr.
  set (m2 := round_nearest_even (shr_m mrs) (loc_of_shr_record mrs)).
  assert (Hn0 : 0 <= n) by (subst n; lia).
  assert (Hpow : 0 < 2 ^ n) by (apply Z.pow_pos_nonneg; lia).
  assert (Hm1pos : 0 <= Zpos m / 2 ^ n) by (apply Z.div_pos; lia).
  assert (Hr : Zpos m / 2 ^ n <= m2 <= Zpos m / 2 ^ n + 1).
  { subst m2. rewrite <- Hm1. apply round_nearest_even_range. }
  assert (Hex : Zpos m mod 2 ^ n = 0 -> m2 = Zpos m / 2 ^ n).
  { intros H. subst m2. rewrite (Hx H), Hm1. reflexivity. }
  assert (Hlt : Zpos m / 2 ^ n < 2 ^ 53).
  { pose proof (digits_upper m) as Hd. set (d := Zpos (digits2_pos m)) in *.
    assert (Hnd : d - 53 <= n) by (subst n; rewrite fexp_eq; lia).
    apply Z.div_lt_upper_bound; [lia |].
    destruct (Z.le_gt_cases d 53).
    - assert (2 ^ d <= 2 ^ 53) by (apply Z.pow_le_mono_r; lia).
      assert (1 <= 2 ^ n) by lia. nia.
    - assert (2 ^ d <= 2 ^ n * 2 ^ 53).
      { rewrite <- Z.pow_add_r by lia. apply Z.pow_le_mono_r; lia. }
      lia. }
  assert (He1 : -1074 <= e + n) by (subst n; rewrite fexp_eq; lia).
  destruct (shr_fexp_exact m2 (e + n)) as (mrs2 & Hshr2 & Hm2 & _); [lia |].
  rewrite Hshr2. cbv zeta in Hshr2, Hm2.
  destruct (Z.eq_dec m2 (2 ^ 53)) as [Heq | Hne].
  - (* the mantissa overflowed into a 54th bit *)
    assert (Hd2 : Zdigits2 m2 = 54) by (rewrite Heq; reflexivity).
    rewrite Hd2, fexp_eq in Hm2 |- *.
    replace (Z.max 0 (Z.max (54 + (e + n) - 53) (-1074) - (e + n))) with 1 in * by lia.
    rewrite Hm2, Heq. change (2 ^ 53 / 2 ^ 1) with (Zpos (2 ^ 52)).
    exists (Zpos (2 ^ 52)), (e + n + 1), m2. cbv iota.
    repeat split; try lia; auto.
  - assert (Hd2 : Zdigits2 m2 <= 53) by (apply Zdigits2_le; lia).
    rewrite fexp_eq in Hm2 |- *.
    replace (Z.max 0 (Z.max (Zdigits2 m2 + (e + n) - 53) (-1074) - (e + n)))
      with 0 in * by lia.
    rewrite Z.add_0_r. rewrite Z.div_1_r in Hm2. rewrite Hm2.
    exists m2, (e + n), m2. repeat split; try lia; auto.
Qed.

Lemma bounded_inv (m : positive) (e : Z) :
  bounded prec emax m e = true ->
  -1074 <= e <= 971 /\ Zpos m < 2 ^ 53 /\ (-1074 < e -> 2 ^ 52 <= Zpos m).
Proof.
  unfold bounded, canonical_mantissa. rewrite andb_true_iff, Z.eqb_eq, Z.leb_le.
  rewrite fexp_eq. change (emax - prec) with 971. intros [Hc He].
  pose proof (digits_upper m) as Hu. pose proof (digits_lower m) as Hl.
  set (d := Zpos (digits2_pos m)) in *.
  assert (Hd : d <= 53) by lia.
  repeat split; try lia.
  - assert (2 ^ d <= 2 ^ 53) by (apply Z.pow_le_mono_r; lia). lia.
  - intros H. assert (d = 53) by lia. subst d. rewrite H0 in Hl. exact Hl.
Qed.

(** The number rounded, in units of [p2 (e + n)]. *)
Lemma cut_value (m : positive) (e n : Z) :
  - bias <= e -> 0 <= n ->
  Zpos m * p2 e = (Zpos m / 2 ^ n) * p2 (e + n) + (Zpos m mod 2 ^ n) * p2 e /\
  0 <= (Zpos m mod 2 ^ n) * p2 e < p2 (e + n).
Proof.
  intros He Hn. rewrite p2_add by assumption.
  assert (Hpow : 0 < 2 ^ n) by (apply Z.pow_pos_nonneg; lia).
  pose proof (p2_pos e He) as Hp.
  pose proof (Z.div_mod (Zpos m) (2 ^ n) ltac:(lia)) as Hdm.
  pose proof (Z.mod_pos_bound (Zpos m) (2 ^ n) Hpow) as Hmod.
  split; nia.
Qed.

(** Rounding does not pass a representable number above the exact value. *)
Lemma round_upper (s : bool) (m : positive) (e : Z) (mb : positive) (eb : Z) :
  - bias <= e ->
  e <= fexp prec emax (Zpos (digits2_pos m) + e) ->
  bounded prec emax mb eb = true ->
  Zpos m * p2 e <= Zpos mb * p2 eb ->
  binary_round_aux prec emax s (Zpos m) e loc_Exact = S754_zero s \/
  exists q E,
    binary_round_aux prec emax s (Zpos m) e loc_Exact = S754_finite s q E /\
    Zpos q * p2 E <= Zpos mb * p2 eb.
Proof.
  intros He Hpre Hb Hle.
  destruct (round_core s m e) as (M & E & m2 & Hr & Hm2 & Hex & HE).
  destruct (bounded_inv mb eb Hb) as (Heb & Hmb & Hnorm).
  pose proof (digits_lower m) as Hdl.
  set (d := Zpos (digits2_pos m)) in *. rewrite fexp_eq in *.
  set (n := Z.max 0 (Z.max (d + e - 53) (-1074) - e)) in *.
  assert (Hn : n = Z.max (d + e - 53) (-1074) - e) by lia.
  assert (Hn0 : 0 <= n) by lia.
  destruct (cut_value m e n He Hn0) as [Hx Hrem].
  set (m1 := Zpos m / 2 ^ n) in *. set (P := p2 (e + n)) in *.
  assert (HP : 0 < P) by (apply p2_pos; lia).
  assert (Hpe : 0 < p2 e) by (now apply p2_pos).
  (* the bound is a multiple of the unit [P] *)
  assert (Hmult : exists Q, Zpos mb * p2 eb = Q * P).
  { destruct (Z.le_gt_cases (e + n) eb) as [Hge | Hlt].
    - exists (Zpos mb * 2 ^ (eb - (e + n))). subst P.
      replace eb with ((e + n) + (eb - (e + n))) at 1 by lia.
      rewrite p2_add by lia. lia.
    - exfalso.
      assert (Hen : e + n = d + e - 53) by lia.
      assert (H1 : Zpos mb * p2 eb < 2 ^ 53 * p2 eb).
      { apply Z.mul_lt_mono_pos_r; [apply p2_pos; unfold bias; lia | lia]. }
      assert (H2 : 2 ^ 53 * p2 eb = p2 (eb + 53)).
      { rewrite p2_add by (unfold bias; lia). lia. }
      assert (H3 : p2 (eb + 53) <= p2 (e + (d - 1))).
      { apply p2_le; unfold bias; lia. }
      assert (H4 : p2 (e + (d - 1)) = p2 e * 2 ^ (d - 1)).
      { apply p2_add; lia. }
      nia. }
  destruct Hmult as [Q HQ].
  assert (Hm2Q : m2 * P <= Q * P).
  { destruct (Z.eq_dec (Zpos m mod 2 ^ n) 0) as [H0 | Hne].
    - rewrite (Hex H0). rewrite H0 in Hx. lia.
    - assert (m1 * P < Q * P) by lia.
      assert (m1 < Q) by nia. nia. }
  assert (HME : M * p2 E = m2 * P).
  { destruct HE as [[-> ->] | (-> & -> & ->)]; [reflexivity |].
    subst P. rewrite (p2_add (e + n) 1) by lia. lia. }
  assert (HM0 : 0 <= M).
  { assert (0 <= m1) by (apply Z.div_pos; [lia | apply Z.pow_pos_nonneg; lia]).
    destruct HE as [[_ ->] | (_ & _ & ->)]; lia. }
  destruct M as [|q|q]; [now left | right | lia].
  destruct (E <=? 971) eqn:HE971.
  - exists q, E. split; [exact Hr | lia].
  - exfalso. apply Z.leb_gt in HE971.
    assert (Hen : e + n = d + e - 53) by lia.
    assert (Hm1 : 2 ^ 52 <= m1).
    { subst m1. apply Z.div_le_lower_bound; [apply Z.pow_pos_nonneg; lia |].
      replace (d - 1) with (n + 52) in Hdl by lia.
      rewrite Z.pow_add_r in Hdl by lia. lia. }
    assert (Hbig : p2 1024 <= m2 * P).
    { destruct HE as [[HEe _] | (HEe & Hm253 & _)].
      - assert (p2 1024 <= p2 (e + n + 52)) by (apply p2_le; unfold bias; lia).
        assert (p2 (e + n + 52) = P * 2 ^ 52) by (apply p2_add; lia).
        nia.
      - assert (p2 1024 <= p2 (e + n + 53)) by (apply p2_le; unfold bias; lia).
        assert (p2 (e + n + 53) = P * 2 ^ 53) by (apply p2_add; lia).
        rewrite Hm253. lia. }
    assert (H1 : Zpos mb * p2 eb < 2 ^ 53 * p2 eb).
    { apply Z.mul_lt_mono_pos_r; [apply p2_pos; unfold bias; lia | lia]. }
    assert (H2 : 2 ^ 53 * p2 eb = p2 (eb + 53)).
    { rewrite p2_add by (unfold bias; lia). lia. }
    assert (H3 : p2 (eb + 53) <= p2 1024) by (apply p2_le; unfold bias; lia).
    lia.
Qed.

(** Rounding does not fall below a representable number under the exact
    value. *)
Lemma round_lower (s : bool) (m : positive) (e : Z) (ma : positive) (ea : Z) :
  - bias <= e ->
  bounded prec emax ma ea = true ->
  Zpos ma * p2 ea <= Zpos m * p2 e ->
  binary_round_aux prec emax s (Zpos m) e loc_Exact = S754_infinity s \/
  exists q E,
    binary_round_aux prec emax s (Zpos m) e loc_Exact = S754_finite s q E /\
    Zpos ma * p2 ea <= Zpos q * p2 E.
Proof.
  intros He Ha Hle.
  destruct (round_core s m e) as (M & E & m2 & Hr & Hm2 & Hex & HE).
  destruct (bounded_inv ma ea Ha) as (Hea & Hma & Hnorm).
  pose proof (digits_lower m) as Hdl.
  set (d := Zpos (digits2_pos m)) in *. rewrite fexp_eq in *.
  set (n := Z.max 0 (Z.max (d + e - 53) (-1074) - e)) in *.
  assert (Hn0 : 0 <= n) by lia.
  destruct (cut_value m e n He Hn0) as [Hx Hrem].
  set (m1 := Zpos m / 2 ^ n) in *. set (P := p2 (e + n)) in *.
  assert (HP : 0 < P) by (apply p2_pos; lia).
  assert (Hpa : 0 < p2 ea) by (apply p2_pos; unfold bias; lia).
  assert (HME : M * p2 E = m2 * P).
  { destruct HE as [[-> ->] | (-> & -> & ->)]; [reflexivity |].
    subst P. rewrite (p2_add (e + n) 1) by lia. lia. }
  assert (Hlow : Zpos ma * p2 ea <= m2 * P).
  { destruct (Z.eq_dec n 0) as [Hz | Hnz].
    - (* nothing is cut off: the result is exact *)
      assert (Hmod : Zpos m mod 2 ^ n = 0) by (rewrite Hz; apply Z.mod_1_r).
      rewrite (Hex Hmod). rewrite Hmod in Hx. lia.
    - destruct (Z.le_gt_cases (e + n) ea) as [Hge | Hlt].
      + assert (HA : Zpos ma * p2 ea = (Zpos ma * 2 ^ (ea - (e + n))) * P).
        { subst P. replace ea with ((e + n) + (ea - (e + n))) at 1 by lia.
          rewrite p2_add by lia. lia. }
        set (A := Zpos ma * 2 ^ (ea - (e + n))) in *.
        assert (A * P < (m1 + 1) * P) by lia.
        assert (A < m1 + 1) by nia. nia.
      + assert (Hen : e + n = d + e - 53) by lia.
        assert (Hm1 : 2 ^ 52 <= m1).
        { subst m1. apply Z.div_le_lower_bound; [apply Z.pow_pos_nonneg; lia |].
          replace (d - 1) with (n + 52) in Hdl by lia.
          rewrite Z.pow_add_r in Hdl by lia. lia. }
        assert (H1 : Zpos ma * p2 ea < 2 ^ 53 * p2 ea).
        { apply Z.mul_lt_mono_pos_r; lia. }
        assert (H2 : 2 ^ 53 * p2 ea = p2 (ea + 53)).
        { rewrite p2_add by (unfold bias; lia). lia. }
        assert (H3 : p2 (ea + 53) <= p2 (e + n + 52)) by (apply p2_le; unfold bias; lia).
        assert (H4 : p2 (e + n + 52) = P * 2 ^ 52) by (apply p2_add; lia).
        nia. }
  assert (HM0 : 0 <= M).
  { assert (0 <= m1) by (apply Z.div_pos; [lia | apply Z.pow_pos_nonneg; lia]).
    destruct HE as [[_ ->] | (_ & _ & ->)]; lia. }
  destruct M as [|q|q]; [lia | | lia].
  destruct (E <=? 971); [right | now left].
  exists q, E. split; [exact Hr | lia].
Qed.

(** Canonical numbers are ordered by exponent first. *)
Lemma compare_canonical (m1 : positive) (e1 : Z) (m2 : positive) (e2 : Z) :
  bounded prec emax m1 e1 = true ->
  bounded prec emax m2 e2 = true ->
  match e1 ?= e2 with
  | Lt => Lt
  | Gt => Gt
  | Eq => Pos.compare_cont Eq m1 m2
  end = (Zpos m1 * p2 e1 ?= Zpos m2 * p2 e2).
Proof.
  intros H1 H2.
  destruct (bounded_inv m1 e1 H1) as (He1 & Hm1 & Hn1).
  destruct (bounded_inv m2 e2 H2) as (He2 & Hm2 & Hn2).
  assert (Hp1 : 0 < p2 e1) by (apply p2_pos; unfold bias; lia).
  assert (Hp2 : 0 < p2 e2) by (apply p2_pos; unfold bias; lia).
  destruct (Z.compare_spec e1 e2) as [Heq | Hlt | Hgt]; symmetry.
  - subst e2. change (Pos.compare_cont Eq m1 m2) with (Zpos m1 ?= Zpos m2).
    destruct (Z.compare_spec (Zpos m1) (Zpos m2)) as [Hm | Hm | Hm].
    + apply Z.compare_eq_iff. now rewrite Hm.
    + apply Z.compare_lt_iff. nia.
    + apply Z.compare_gt_iff. nia.
  - apply Z.compare_lt_iff.
    assert (p2 (e1 + 1) <= p2 e2) by (apply p2_le; unfold bias; lia).
    assert (p2 (e1 + 1) = p2 e1 * 2 ^ 1) by (apply p2_add; unfold bias; lia).
    assert (2 ^ 52 <= Zpos m2) by (apply Hn2; lia).
    change (2 ^ 1) with 2 in *. change (2 ^ 53) with (2 * 2 ^ 52) in *.
    nia.
  - apply Z.compare_gt_iff.
    assert (p2 (e2 + 1) <= p2 e1) by (apply p2_le; unfold bias; lia).
    assert (p2 (e2 + 1) = p2 e2 * 2 ^ 1) by (apply p2_add; unfold bias; lia).
    assert (2 ^ 52 <= Zpos m1) by (apply Hn1; lia).
    change (2 ^ 1) with 2 in *. change (2 ^ 53) with (2 * 2 ^ 52) in *.
    nia.
Qed.

(** Comparison of finite numbers is comparison of their values. *)
Lemma SFcompare_SV (a b : spec_float) :
  valid_binary a = true -> valid_binary b = true ->
  SF_finite a = true -> SF_finite b = true ->
  SFcompare a b = Some (SV a ?= SV b).
Proof.
  intros Va Vb Fa Fb.
  destruct a as [sa | sa | | sa ma ea]; try discriminate;
    destruct b as [sb | sb | | sb mb eb]; try discriminate; simpl in Va, Vb.
  - reflexivity.
  - destruct (bounded_inv mb eb Vb) as (Heb & _).
    assert (0 < Zpos mb * p2 eb) by (apply Z.mul_pos_pos; [lia | apply p2_pos; unfold bias; lia]).
    unfold SFcompare, SV. destruct sb; cbn [cond_Zopp]; f_equal; symmetry;
      [apply Z.compare_gt_iff | apply Z.compare_lt_iff]; lia.
  - destruct (bounded_inv ma ea Va) as (Hea & _).
    assert (0 < Zpos ma * p2 ea) by (apply Z.mul_pos_pos; [lia | apply p2_pos; unfold bias; lia]).
    unfold SFcompare, SV. destruct sa; cbn [cond_Zopp]; f_equal; symmetry;
      [apply Z.compare_lt_iff | apply Z.compare_gt_iff]; lia.
  - destruct (bounded_inv ma ea Va) as (Hea & _).
    destruct (bounded_inv mb eb Vb) as (Heb & _).
    assert (0 < Zpos ma * p2 ea) by (apply Z.mul_pos_pos; [lia | apply p2_pos; unfold bias; lia]).
    assert (0 < Zpos mb * p2 eb) by (apply Z.mul_pos_pos; [lia | apply p2_pos; unfold bias; lia]).
    pose proof (compare_canonical ma ea mb eb Va Vb) as Hc.
    pose proof (compare_canonical mb eb ma ea Vb Va) as Hc'.
    unfold SFcompare, SV. destruct sa, sb; cbn [cond_Zopp]; f_equal.
    + rewrite Z.compare_opp. rewrite <- Hc'.
      rewrite (Z.compare_antisym ea eb).
      destruct (ea ?= eb) eqn:He; cbn [CompOpp]; try reflexivity.
      rewrite Pos.compare_cont_antisym. reflexivity.
    + symmetry. apply Z.compare_lt_iff. lia.
    + symmetry. apply Z.compare_gt_iff. lia.
    + exact Hc.
Qed.

Lemma SV_pos_inv (f : spec_float) :
  valid_binary f = true -> 0 < SV f ->
  exists m e, f = S754_finite false m e /\ bounded prec emax m e = true.
Proof.
  destruct f as [s | s | | s m e]; cbn [SV valid_binary]; try lia.
  intros Hv Hpos. destruct s; [| eauto].
  destruct (bounded_inv m e Hv) as (He & _).
  assert (0 < p2 e) by (apply p2_pos; unfold bias; lia).
  cbn [cond_Zopp] in Hpos. nia.
Qed.

Lemma SV_neg_inv (f : spec_float) :
  valid_binary f = true -> SV f < 0 ->
  exists m e, f = S754_finite true m e /\ bounded prec emax m e = true.
Proof.
  destruct f as [s | s | | s m e]; cbn [SV valid_binary]; try lia.
  intros Hv Hneg. destruct s; [eauto |].
  destruct (bounded_inv m e Hv) as (He & _).
  assert (0 < p2 e) by (apply p2_pos; unfold bias; lia).
  cbn [cond_Zopp] in Hneg. nia.
Qed.

(** Rounding an exact value that lies between two representable numbers
    gives a finite number between them. *)
Lemma round_between (s : bool) (m : positive) (e : Z) (lo hi : spec_float) :
  - bias <= e ->
  e <= fexp prec emax (Zpos (digits2_pos m) + e) ->
  valid_binary lo = true -> valid_binary hi = true ->
  SV lo <= cond_Zopp s (Zpos m * p2 e) <= SV hi ->
  let r := binary_round_aux prec emax s (Zpos m) e loc_Exact in
  SF_finite r = true /\ SV lo <= SV r <= SV hi.
Proof.
  intros He Hpre Vlo Vhi [Hlo Hhi] r.
  assert (HX : 0 < Zpos m * p2 e)
    by (apply Z.mul_pos_pos; [lia | now apply p2_pos]).
  destruct s; cbn [cond_Zopp] in Hlo, Hhi.
  - (* a negative value *)
    destruct (SV_neg_inv lo Vlo ltac:(lia)) as (ma & ea & -> & Ba).
    cbn [SV cond_Zopp] in Hlo.
    destruct (round_upper true m e ma ea He Hpre Ba ltac:(lia))
      as [Hz | (q & E & Hq & Hle)]; fold r in Hz || fold r in Hq.
    + rewrite Hz. cbn [SF_finite SV cond_Zopp]. split; [reflexivity |].
      destruct (Z.le_gt_cases 0 (SV hi)) as [|Hneg]; [lia |].
      destruct (SV_neg_inv hi Vhi Hneg) as (mb & eb & -> & Bb).
      cbn [SV cond_Zopp] in Hhi.
      destruct (round_lower true m e mb eb He Bb ltac:(lia))
        as [Hi | (q & E & Hq & _)]; fold r in Hi || fold r in Hq; congruence.
    + rewrite Hq. cbn [SF_finite SV cond_Zopp]. split; [reflexivity |].
      split; [lia |].
      destruct (Z.le_gt_cases 0 (SV hi)) as [|Hneg].
      * assert (0 <= Zpos q * p2 E); [| lia].
        apply Z.mul_nonneg_nonneg; [lia | apply Z.pow_nonneg; lia].
      * destruct (SV_neg_inv hi Vhi Hneg) as (mb & eb & -> & Bb).
        cbn [SV cond_Zopp] in Hhi |- *.
        destruct (round_lower true m e mb eb He Bb ltac:(lia))
          as [Hi | (q' & E' & Hq' & Hge)]; fold r in Hi || fold r in Hq';
          [congruence |].
        rewrite Hq in Hq'. injection Hq' as <- <-. lia.
  - (* a positive value *)
    destruct (SV_pos_inv hi Vhi ltac:(lia)) as (mb & eb & -> & Bb).
    cbn [SV cond_Zopp] in Hhi.
    destruct (round_upper false m e mb eb He Hpre Bb ltac:(lia))
      as [Hz | (q & E & Hq & Hle)]; fold r in Hz || fold r in Hq.
    + rewrite Hz. cbn [SF_finite SV cond_Zopp]. split; [reflexivity |].
      destruct (Z.le_gt_cases (SV lo) 0) as [|Hpos]; [lia |].
      destruct (SV_pos_inv lo Vlo Hpos) as (ma & ea & -> & Ba).
      cbn [SV cond_Zopp] in Hlo.
      destruct (round_lower false m e ma ea He Ba ltac:(lia))
        as [Hi | (q & E & Hq & _)]; fold r in Hi || fold r in Hq; congruence.
    + rewrite Hq. cbn [SF_finite SV cond_Zopp]. split; [reflexivity |].
      split; [| lia].
      destruct (Z.le_gt_cases (SV lo) 0) as [|Hpos].
      * assert (0 <= Zpos q * p2 E); [| lia].
        apply Z.mul_nonneg_nonneg; [lia | apply Z.pow_nonneg; lia].
      * destruct (SV_pos_inv lo Vlo Hpos) as (ma & ea & -> & Ba).
        cbn [SV cond_Zopp] in Hlo |- *.
        destruct (round_lower false m e ma ea He Ba ltac:(lia))
          as [Hi | (q' & E' & Hq' & Hge)]; fold r in Hi || fold r in Hq';
          [congruence |].
        rewrite Hq in Hq'. injection Hq' as <- <-. lia.
Qed.

Lemma iter_xO_value (m d : positive) :
  Zpos (Pos.iter xO m d) = Zpos m * 2 ^ Zpos d.
Proof.
  induction d as [|d IH] using Pos.peano_ind.
  - simpl. rewrite Pos2Z.inj_xO. lia.
  - rewrite Pos.iter_succ, Pos2Z.inj_xO, IH, Pos2Z.inj_succ, Z.pow_succ_r by lia.
    lia.
Qed.

Lemma iter_xO_digits (m d : positive) :
  digits2_pos (Pos.iter xO m d) = (digits2_pos m + d)%positive.
Proof.
  induction d as [|d IH] using Pos.peano_ind.
  - simpl. lia.
  - rewrite Pos.iter_succ. simpl. rewrite IH. lia.
Qed.

(** Aligning a mantissa to a smaller exponent keeps the value. *)
Lemma shl_align_value (m : positive) (e e' : Z) :
  - bias <= e -> - bias <= e' ->
  let '(mz, ez) := shl_align m e e' in
  Zpos mz * p2 ez = Zpos m * p2 e /\
  ((e' < e /\ ez = e' /\
    Zpos (digits2_pos mz) + ez = Zpos (digits2_pos m) + e) \/
   (e <= e' /\ ez = e /\ mz = m)).
Proof.
  intros He He'. unfold shl_align.
  destruct (e' - e) as [|d|d] eqn:Hd.
  - split; [reflexivity | right; repeat split; lia].
  - split; [reflexivity | right; repeat split; lia].
  - split.
    + rewrite iter_xO_value. replace e with (e' + Zpos d) by lia.
      rewrite p2_add by lia. lia.
    + left. rewrite iter_xO_digits. repeat split; lia.
Qed.

Lemma binary_round_between (s : bool) (m : positive) (e : Z) (lo hi : spec_float) :
  - bias <= e ->
  valid_binary lo = true -> valid_binary hi = true ->
  SV lo <= cond_Zopp s (Zpos m * p2 e) <= SV hi ->
  let r := binary_round prec emax s m e in
  SF_finite r = true /\ SV lo <= SV r <= SV hi.
Proof.
  intros He Vlo Vhi Hb. unfold binary_round.
  set (e' := fexp prec emax (Zpos (digits2_pos m) + e)).
  assert (He' : - bias <= e') by (subst e'; rewrite fexp_eq; unfold bias; lia).
  pose proof (shl_align_value m e e' He He') as Hal.
  destruct (shl_align m e e') as [mz ez].
  destruct Hal as [Hval Hcase]. rewrite <- Hval in Hb.
  apply round_between; auto.
  - destruct Hcase as [(_ & -> & _) | (_ & -> & _)]; assumption.
  - destruct Hcase as [(_ & -> & Hd) | (Hle & -> & ->)].
    + rewrite Hd. subst e'. lia.
    + exact Hle.
Qed.

Lemma binary_normalize_between (mz e : Z) (lo hi : spec_float) :
  - bias <= e ->
  valid_binary lo = true -> valid_binary hi = true ->
  SV lo <= mz * p2 e <= SV hi ->
  let r := binary_normalize prec emax mz e false in
  SF_finite r = true /\ SV lo <= SV r <= SV hi.
Proof.
  intros He Vlo Vhi Hb. unfold binary_normalize.
  destruct mz as [|m|m].
  - simpl. split; [reflexivity | lia].
  - apply binary_round_between; auto.
  - apply binary_round_between; auto.
    cbn [cond_Zopp]. rewrite <- Pos2Z.opp_pos in Hb. lia.
Qed.

Lemma shl_align_fst (m : positive) (e ez : Z) :
  - bias <= ez -> ez <= e ->
  Zpos (fst (shl_align m e ez)) * p2 ez = Zpos m * p2 e.
Proof.
  intros Hez Hle.
  pose proof (shl_align_value m e ez ltac:(lia) Hez) as H.
  destruct (shl_align m e ez) as [mz ez']. destruct H as [Hval Hcase].
  cbn [fst]. destruct Hcase as [(_ & -> & _) | (Hge & -> & _)].
  - exact Hval.
  - replace ez with e by lia. exact Hval.
Qed.

(** The sum of two finite numbers, when its exact value lies between two
    representable numbers, is a finite number between them. *)
Lemma SFadd_between (x y lo hi : spec_float) :
  valid_binary x = true -> valid_binary y = true ->
  valid_binary lo = true -> valid_binary hi = true ->
  SF_finite x = true -> SF_finite y = true ->
  SV lo <= SV x + SV y <= SV hi ->
  SF_finite (SFadd prec emax x y) = true /\
  SV lo <= SV (SFadd prec emax x y) <= SV hi.
Proof.
  intros Vx Vy Vlo Vhi Fx Fy Hb.
  destruct x as [sx | sx | | sx mx ex]; try discriminate;
    destruct y as [sy | sy | | sy my ey]; try discriminate.
  - cbn [SV] in Hb. unfold SFadd. destruct sx, sy; cbn [SF_finite SV]; auto.
  - cbn [SV] in Hb. cbn [SFadd SF_finite]. split; [reflexivity |].
    cbn [SV]. lia.
  - cbn [SV] in Hb. cbn [SFadd SF_finite]. split; [reflexivity |].
    cbn [SV]. lia.
  - cbn [valid_binary] in Vx, Vy.
    destruct (bounded_inv mx ex Vx) as (Hex & _).
    destruct (bounded_inv my ey Vy) as (Hey & _).
    cbn [SFadd]. apply binary_normalize_between; auto; [unfold bias; lia |].
    rewrite Z.mul_add_distr_r.
    assert (Hx : cond_Zopp sx (Zpos (fst (shl_align mx ex (Z.min ex ey)))) *
                 p2 (Z.min ex ey) = SV (S754_finite sx mx ex)).
    { cbn [SV]. destruct sx; cbn [cond_Zopp];
        rewrite ?Z.mul_opp_l, shl_align_fst by (unfold bias; lia); reflexivity. }
    assert (Hy : cond_Zopp sy (Zpos (fst (shl_align my ey (Z.min ex ey)))) *
                 p2 (Z.min ex ey) = SV (S754_finite sy my ey)).
    { cbn [SV]. destruct sy; cbn [cond_Zopp];
        rewrite ?Z.mul_opp_l, shl_align_fst by (unfold bias; lia); reflexivity. }
    rewrite Hx, Hy. exact Hb.
Qed.

(** The same for the product; values are in units of [2^(- bias)], hence
    the factor [p2 0] on the bounds. *)
Lemma SFmul_between (x y lo hi : spec_float) :
  valid_binary x = true -> valid_binary y = true ->
  valid_binary lo = true -> valid_binary hi = true ->
  SF_finite x = true -> SF_finite y = true ->
  SV lo * p2 0 <= SV x * SV y <= SV hi * p2 0 ->
  SF_finite (SFmul prec emax x y) = true /\
  SV lo <= SV (SFmul prec emax x y) <= SV hi.
Proof.
  intros Vx Vy Vlo Vhi Fx Fy Hb.
  assert (Hp0 : 0 < p2 0) by (apply p2_pos; unfold bias; lia).
  destruct x as [sx | sx | | sx mx ex]; try discriminate;
    destruct y as [sy | sy | | sy my ey]; try discriminate;
    try (cbn [SV] in Hb; rewrite ?Z.mul_0_l, ?Z.mul_0_r in Hb;
         cbn [SFmul SF_finite SV]; split; [reflexivity | nia]).
  cbn [valid_binary] in Vx, Vy.
  destruct (bounded_inv mx ex Vx) as (Hex & Hmx & Hnx).
  destruct (bounded_inv my ey Vy) as (Hey & Hmy & Hny).
  assert (Hprod : p2 ex * p2 ey = p2 (ex + ey) * p2 0).
  { unfold p2. rewrite <- !Z.pow_add_r by (unfold bias; lia). f_equal. lia. }
  cbn [SFmul].
  change (Zpos (mx * my)) with (Zpos (mx * my)%positive).
  apply round_between; auto.
  - unfold bias; lia.
  - (* the product has enough digits *)
    rewrite fexp_eq.
    destruct (Z.eq_dec ex (-1074)) as [Hx0 | Hx1];
      [destruct (Z.eq_dec ey (-1074)) as [Hy0 | Hy1]; [lia |] |].
    + assert (Hm : 2 ^ 52 <= Zpos (mx * my)).
      { rewrite Pos2Z.inj_mul. specialize (Hny ltac:(lia)). nia. }
      pose proof (digits_upper (mx * my)) as Hd.
      assert (52 < Zpos (digits2_pos (mx * my))).
      { apply (Z.pow_lt_mono_r_iff 2); lia. }
      lia.
    + assert (Hm : 2 ^ 52 <= Zpos (mx * my)).
      { rewrite Pos2Z.inj_mul. specialize (Hnx ltac:(lia)). nia. }
      pose proof (digits_upper (mx * my)) as Hd.
      assert (52 < Zpos (digits2_pos (mx * my))).
      { apply (Z.pow_lt_mono_r_iff 2); lia. }
      lia.
  - cbn [SV] in Hb. rewrite Pos2Z.inj_mul.
    assert (Hval : cond_Zopp sx (Zpos mx * p2 ex) * cond_Zopp sy (Zpos my * p2 ey) =
                   cond_Zopp (xorb sx sy) (Zpos mx * Zpos my * p2 (ex + ey)) * p2 0).
    { assert (Hpos : Zpos mx * p2 ex * (Zpos my * p2 ey) =
                     Zpos mx * Zpos my * p2 (ex + ey) * p2 0).
      { rewrite <- (Z.mul_assoc _ (p2 (ex + ey))), <- Hprod. ring. }
      destruct sx, sy; cbn [cond_Zopp xorb];
        rewrite ?Z.mul_opp_l, ?Z.mul_opp_r, ?Z.opp_involutive, Hpos; reflexivity. }
    rewrite Hval in Hb. nia.
Qed.
Lemma add_between (x y lo hi : float) :
  fin x = true -> fin y = true ->
  FV lo <= FV x + FV y <= FV hi ->
  fin (x + y) = true /\ FV lo <= FV (x + y) <= FV hi.
Proof.
  unfold fin, FV. rewrite add_spec. intros Fx Fy Hb.
  apply SFadd_between; auto using Prim2SF_valid.
Qed.

Lemma mul_between (x y lo hi : float) :
  fin x = true -> fin y = true ->
  FV lo * p2 0 <= FV x * FV y <= FV hi * p2 0 ->
  fin (x * y) = true /\ FV lo <= FV (x * y) <= FV hi.
Proof.
  unfold fin, FV. rewrite mul_spec. intros Fx Fy Hb.
  apply SFmul_between; auto using Prim2SF_valid.
Qed.

Lemma leb_FV (a b : float) :
  fin a = true -> fin b = true -> (a <=? b)%float = (FV a <=? FV b).
Proof.
  unfold fin, FV. intros Fa Fb. rewrite leb_spec. unfold SFleb.
  rewrite (SFcompare_SV _ _ (Prim2SF_valid a) (Prim2SF_valid b) Fa Fb).
  unfold Z.leb. destruct (SV (Prim2SF a) ?= SV (Prim2SF b)); reflexivity.
Qed.

Lemma ltb_FV (a b : float) :
  fin a = true -> fin b = true -> (a <? b)%float = (FV a <? FV b).
Proof.
  unfold fin, FV. intros Fa Fb. rewrite ltb_spec. unfold SFltb.
  rewrite (SFcompare_SV _ _ (Prim2SF_valid a) (Prim2SF_valid b) Fa Fb).
  unfold Z.ltb. destruct (SV (Prim2SF a) ?= SV (Prim2SF b)); reflexivity.
Qed.

Lemma sub_zero (w : float) :
  fin w = true -> fin (w - 0) = true /\ FV (w - 0) = FV w.
Proof.
  unfold fin, FV. rewrite sub_spec.
  change (Prim2SF 0) with (S754_zero false).
  destruct (Prim2SF w) as [s | s | | s m e]; try discriminate; intros _.
  - destruct s; split; reflexivity.
  - split; reflexivity.
Qed.

(** A draw of [random()] is a finite number of [[0, 1)]. *)
Lemma unit_draw (u : float) :
  (0 <=? u)%float = true -> (u <? 1)%float = true ->
  fin u = true /\ 0 <= FV u < p2 0.
Proof.
  intros H0 H1.
  assert (Fu : fin u = true).
  { unfold fin. rewrite leb_spec in H0. rewrite ltb_spec in H1.
    change (Prim2SF 0) with (S754_zero false) in H0.
    change (Prim2SF 1) with (S754_finite false 4503599627370496 (-52)) in H1.
    destruct (Prim2SF u) as [s | s | | s m e]; try reflexivity.
    - destruct s; discriminate.
    - discriminate. }
  split; [exact Fu |].
  rewrite (leb_FV 0 u eq_refl Fu) in H0. rewrite (ltb_FV u 1 Fu eq_refl) in H1.
  apply Z.leb_le in H0. apply Z.ltb_lt in H1.
  change (FV 0) with 0 in H0.
  assert (H1' : FV 1 = p2 0) by (vm_compute; reflexivity).
  lia.
Qed.

(* ================================================================== *)
(** * Rounding to nearest *)
(* ================================================================== *)

(** The round bit after [n + 1] shifts is bit [n] of the mantissa. *)
Lemma shr_iter_r (n : nat) (mrs : shr_record) :
  0 <= shr_m mrs ->
  shr_r (Nat.iter (S n) shr_1 mrs) = Z.odd (shr_m mrs / 2 ^ Z.of_nat n).
Proof.
  intros Hm. rewrite Nat.iter_succ.
  destruct (shr_iter n mrs Hm) as [Hn _]. cbv zeta in Hn.
  rewrite shr_1_r, Hn; [reflexivity |].
  rewrite Hn. apply Z.div_pos; [lia | apply Z.pow_pos_nonneg; lia].
Qed.

Lemma odd_high_bit (M k : Z) :
  0 <= M -> 0 <= k -> Z.odd (M / 2 ^ k) = true -> 2 ^ k <= M mod 2 ^ (k + 1).
Proof.
  intros HM Hk Ho.
  assert (Hp : 0 < 2 ^ k) by (apply Z.pow_pos_nonneg; lia).
  rewrite Z.pow_add_r, Z.pow_1_r by lia.
  rewrite Z.rem_mul_r by lia.
  rewrite <- Z.bit0_mod, Z.bit0_odd, Ho. cbn [Z.b2z].
  pose proof (Z.mod_pos_bound M (2 ^ k) Hp). lia.
Qed.

(** Below the midpoint the cut mantissa is kept. *)
Lemma shr_fexp_down (M e : Z) :
  0 <= M ->
  let n := Z.max 0 (fexp prec emax (Zdigits2 M + e) - e) in
  2 * (M mod 2 ^ n) < 2 ^ n ->
  exists mrs,
    shr_fexp prec emax M e loc_Exact = (mrs, e + n) /\
    shr_m mrs = M / 2 ^ n /\
    round_nearest_even (shr_m mrs) (loc_of_shr_record mrs) = M / 2 ^ n.
Proof.
  intros HM n Hlow.
  destruct (shr_fexp_exact M e HM) as (mrs & Hshr & Hm & _). fold n in Hshr, Hm.
  exists mrs. split; [exact Hshr | split; [exact Hm |]].
  assert (Hr : shr_r mrs = false).
  { unfold shr_fexp, shr in Hshr. subst n.
    destruct (fexp prec emax (Zdigits2 M + e) - e) as [|p|p] eqn:Hn.
    - apply (f_equal fst) in Hshr. cbn [fst] in Hshr. now subst mrs.
    - rewrite iter_pos_nat in Hshr.
      apply (f_equal fst) in Hshr. cbn [fst] in Hshr. subst mrs.
      destruct (Pos.to_nat p) as [|k] eqn:Hk; [lia |].
      rewrite shr_iter_r by exact HM. cbn [shr_m shr_record_of_loc].
      destruct (Z.odd (M / 2 ^ Z.of_nat k)) eqn:Ho; [| reflexivity].
      exfalso.
      pose proof (odd_high_bit M (Z.of_nat k) HM ltac:(lia) Ho) as Hb.
      replace (Z.max 0 (Z.pos p)) with (Z.of_nat k + 1) in Hlow by lia.
      assert (H2 : 2 ^ (Z.of_nat k + 1) = 2 * 2 ^ Z.of_nat k)
        by (rewrite Z.pow_add_r, Z.pow_1_r by lia; lia).
      lia.
    - apply (f_equal fst) in Hshr. cbn [fst] in Hshr. now subst mrs. }
  rewrite <- Hm. destruct mrs as [m r s]. cbn [shr_r] in Hr. subst r.
  destruct s; reflexivity.
Qed.

(** What [binary_round_aux] returns for an exact input below the midpoint
    of the two neighbouring mantissas: the lower one. *)
Lemma round_core_down (s : bool) (m : positive) (e : Z) :
  let n := Z.max 0 (fexp prec emax (Zpos (digits2_pos m) + e) - e) in
  2 * (Zpos m mod 2 ^ n) < 2 ^ n ->
  binary_round_aux prec emax s (Zpos m) e loc_Exact =
  match Zpos m / 2 ^ n with
  | Z0 => S754_zero s
  | Zpos q => if e + n <=? 971 then S754_finite s q (e + n) else S754_infinity s
  | Zneg _ => S754_nan
  end.
Proof.
  intros n Hlow. unfold binary_round_aux.
  destruct (shr_fexp_down (Zpos m) e) as (mrs & Hshr & Hm1 & Hrne);
    [lia | exact Hlow |].
  change (Zdigits2 (Zpos m)) with (Zpos (digits2_pos m)) in *.
  fold n in Hshr, Hm1, Hrne. rewrite Hshr, Hrne.
  set (m1 := Zpos m / 2 ^ n) in *.
  assert (Hn0 : 0 <= n) by (subst n; lia).
  assert (Hpow : 0 < 2 ^ n) by (apply Z.pow_pos_nonneg; lia).
  assert (Hm1pos : 0 <= m1) by (apply Z.div_pos; lia).
  assert (Hlt : m1 < 2 ^ 53).
  { pose proof (digits_upper m) as Hd. set (d := Zpos (digits2_pos m)) in *.
    assert (Hnd : d - 53 <= n) by (subst n; rewrite fexp_eq; lia).
    apply Z.div_lt_upper_bound; [lia |].
    destruct (Z.le_gt_cases d 53).
    - assert (2 ^ d <= 2 ^ 53) by (apply Z.pow_le_mono_r; lia).
      assert (1 <= 2 ^ n) by lia. nia.
    - assert (2 ^ d <= 2 ^ n * 2 ^ 53).
      { rewrite <- Z.pow_add_r by lia. apply Z.pow_le_mono_r; lia. }
      lia. }
  assert (He1 : -1074 <= e + n) by (subst n; rewrite fexp_eq; lia).
  destruct (shr_fexp_exact m1 (e + n)) as (mrs2 & Hshr2 & Hm2 & _); [lia |].
  rewrite Hshr2. cbv zeta in Hshr2, Hm2.
  assert (Hd2 : Zdigits2 m1 <= 53) by (apply Zdigits2_le; lia).
  rewrite fexp_eq in Hm2 |- *.
  replace (Z.max 0 (Z.max (Zdigits2 m1 + (e + n) - 53) (-1074) - (e + n)))
    with 0 in * by lia.
  rewrite Z.add_0_r. rewrite Z.div_1_r in Hm2. rewrite Hm2.
  reflexivity.
Qed.

(** An exact value at or above a representable number [q * 2^E] and below
    the midpoint to the next one rounds to [q * 2^E]. *)
Lemma round_down (s : bool) (m : positive) (e : Z) (q : positive) (E : Z) :
  - bias <= e ->
  e <= fexp prec emax (Zpos (digits2_pos m) + e) ->
  bounded prec emax q E = true ->
  Zpos q * p2 E <= Zpos m * p2 e ->
  2 * (Zpos m * p2 e) < (2 * Zpos q + 1) * p2 E ->
  binary_round_aux prec emax s (Zpos m) e loc_Exact = S754_finite s q E.
Proof.
  intros He Hpre Hb Hge Hmid.
  destruct (bounded_inv q E Hb) as (HE & Hq & Hnorm).
  pose proof (digits_lower m) as Hdl. pose proof (digits_upper m) as Hdu.
  pose proof (round_core_down s m e) as Hcore. cbv zeta in Hcore.
  set (d := Zpos (digits2_pos m)) in *. rewrite fexp_eq in *.
  assert (Hd1 : 1 <= d) by (subst d; lia).
  assert (Hpe : 0 < p2 e) by (now apply p2_pos).
  assert (HPE : 0 < p2 E) by (apply p2_pos; unfold bias; lia).
  (* the magnitude of the value fixes the exponent *)
  assert (Hlo : p2 e * 2 ^ (d - 1) = p2 (e + (d - 1))) by (symmetry; apply p2_add; lia).
  assert (Hhi : p2 e * 2 ^ d = p2 (e + d)) by (symmetry; apply p2_add; lia).
  assert (HE53 : p2 E * 2 ^ 53 = p2 (E + 53)) by (symmetry; apply p2_add; unfold bias; lia).
  assert (Hup : e + d - 53 <= E).
  { destruct (Z.le_gt_cases (e + d - 53) E) as [|Hgt]; [assumption | exfalso].
    assert (p2 (E + 53) <= p2 (e + (d - 1))) by (apply p2_le; unfold bias; lia).
    nia. }
  assert (Hdown : -1074 < E -> E <= e + d - 53).
  { intros Hn. specialize (Hnorm Hn).
    destruct (Z.le_gt_cases E (e + d - 53)) as [|Hgt]; [assumption | exfalso].
    assert (HE52 : p2 E * 2 ^ 52 = p2 (E + 52)) by (symmetry; apply p2_add; unfold bias; lia).
    assert (p2 (e + d) <= p2 (E + 52)) by (apply p2_le; lia).
    nia. }
  assert (Hfexp : Z.max (d + e - 53) (-1074) = E) by lia.
  rewrite Hfexp in Hcore, Hpre.
  replace (Z.max 0 (E - e)) with (E - e) in Hcore by lia.
  set (n := E - e) in *.
  assert (Hn0 : 0 <= n) by lia.
  destruct (cut_value m e n He Hn0) as [Hx Hrem].
  replace (e + n) with E in * by lia.
  assert (Hpow : 0 < 2 ^ n) by (apply Z.pow_pos_nonneg; lia).
  assert (HPn : p2 E = p2 e * 2 ^ n).
  { replace E with (e + n) by lia. apply p2_add; lia. }
  assert (Hm1 : Zpos m / 2 ^ n = Zpos q).
  { set (m1 := Zpos m / 2 ^ n) in *.
    assert (m1 * p2 E < (Zpos q + 1) * p2 E) by lia.
    assert ((Zpos q) * p2 E < (m1 + 1) * p2 E) by lia.
    nia. }
  rewrite Hm1 in Hcore, Hx.
  rewrite Hcore.
  - replace (E <=? 971) with true by (symmetry; apply Z.leb_le; lia). reflexivity.
  - assert (2 * (Zpos m mod 2 ^ n) * p2 e < 2 ^ n * p2 e) by lia.
    nia.
Qed.

Lemma digits_53 (q : positive) :
  2 ^ 52 <= Zpos q < 2 ^ 53 -> Zpos (digits2_pos q) = 53.
Proof.
  intros [Hl Hu]. pose proof (digits_lower q) as Hdl.
  pose proof (digits_upper q) as Hdu. set (d := Zpos (digits2_pos q)) in *.
  assert (52 < d) by (apply (Z.pow_lt_mono_r_iff 2); lia).
  assert (d - 1 < 53) by (apply (Z.pow_lt_mono_r_iff 2); lia).
  lia.
Qed.

(** Rounding is faithful: the result, when it is above the exact value,
    is the successor of a representable number at or below that value. *)
Lemma round_faithful (m : positive) (e : Z) :
  -1074 <= e ->
  let r := binary_round prec emax false m e in
  SF_finite r = true ->
  0 <= SV r /\
  (SV r <= Zpos m * p2 e \/
   exists q E,
     bounded prec emax q E = true /\ 2 ^ 52 <= Zpos q /\
     Zpos q * p2 E <= Zpos m * p2 e /\ SV r = (Zpos q + 1) * p2 E).
Proof.
  intros He r. subst r. unfold binary_round.
  set (e' := fexp prec emax (Zpos (digits2_pos m) + e)).
  assert (He' : -1074 <= e') by (subst e'; rewrite fexp_eq; lia).
  pose proof (shl_align_value m e e' ltac:(unfold bias; lia)
                ltac:(unfold bias; lia)) as Hal.
  destruct (shl_align m e e') as [mz ez]. destruct Hal as [Hval Hcase].
  rewrite <- Hval.
  assert (Hez : -1074 <= ez) by (destruct Hcase as [(_ & -> & _) | (_ & -> & _)]; lia).
  clear Hval Hcase e' He' He.
  destruct (round_core false mz ez) as (M & E0 & m2 & Hr & Hm2 & Hex & HE).
  pose proof (digits_lower mz) as Hdl.
  set (d := Zpos (digits2_pos mz)) in *. rewrite fexp_eq in *.
  set (n := Z.max 0 (Z.max (d + ez - 53) (-1074) - ez)) in *.
  assert (Hn0 : 0 <= n) by lia.
  destruct (cut_value mz ez n ltac:(unfold bias; lia) Hn0) as [Hx Hrem].
  set (m1 := Zpos mz / 2 ^ n) in *. set (P := p2 (ez + n)) in *.
  assert (HP : 0 < P) by (apply p2_pos; unfold bias; lia).
  assert (Hpow : 0 < 2 ^ n) by (apply Z.pow_pos_nonneg; lia).
  assert (Hm1pos : 0 <= m1) by (apply Z.div_pos; lia).
  assert (HME : M * p2 E0 = m2 * P).
  { destruct HE as [[-> ->] | (-> & -> & ->)]; [reflexivity |].
    subst P. rewrite (p2_add (ez + n) 1) by (unfold bias; lia). lia. }
  rewrite Hr. intros Hfin.
  assert (HSV : SV (match M with
                    | 0 => S754_zero false
                    | Z.pos q => if E0 <=? 971 then S754_finite false q E0
                                 else S754_infinity false
                    | Z.neg _ => S754_nan
                    end) = m2 * P).
  { destruct M as [|q0|q0]; cbn [SV]; [lia | | discriminate Hfin].
    destruct (E0 <=? 971); [| discriminate Hfin]. cbn [SV cond_Zopp]. exact HME. }
  rewrite HSV. split; [nia |].
  destruct (Z.eq_dec m2 m1) as [Heq | Hne]; [left; rewrite Heq; lia |].
  right.
  assert (Hm2' : m2 = m1 + 1) by lia.
  assert (Hn1 : 0 < n).
  { destruct (Z.eq_dec n 0) as [Hz | Hnz]; [| lia]. exfalso. apply Hne, Hex.
    rewrite Hz. apply Z.mod_1_r. }
  assert (Hnd : n = d - 53) by lia.
  assert (Hm152 : 2 ^ 52 <= m1).
  { subst m1. apply Z.div_le_lower_bound; [lia |].
    replace (d - 1) with (n + 52) in Hdl by lia.
    rewrite Z.pow_add_r in Hdl by lia. lia. }
  assert (Hm153 : m1 < 2 ^ 53).
  { pose proof (digits_upper mz) as Hd. fold d in Hd.
    apply Z.div_lt_upper_bound; [lia |].
    replace d with (n + 53) in Hd by lia.
    rewrite Z.pow_add_r in Hd by lia. lia. }
  destruct m1 as [|q|q] eqn:Hq; [lia | | lia].
  exists q, (ez + n).
  assert (HE0 : E0 <= 971).
  { destruct M as [|q0|q0]; [| | discriminate Hfin].
    - exfalso. nia.
    - destruct (E0 <=? 971) eqn:HE971; [now apply Z.leb_le | discriminate Hfin]. }
  split; [| split; [exact Hm152 | split; [fold P; lia | fold P; rewrite Hm2'; reflexivity]]].
  unfold bounded, canonical_mantissa. rewrite (digits_53 q) by lia.
  rewrite fexp_eq. apply andb_true_iff. split.
  - apply Z.eqb_eq. lia.
  - apply Z.leb_le. change (emax - prec) with 971.
    destruct HE as [[HEe _] | (HEe & _)]; lia.
Qed.

(** The computed width [hi - lo] of an interval, against the exact one. *)
Lemma sub_faithful (hi lo : float) :
  fin hi = true -> fin lo = true -> FV lo <= FV hi ->
  fin (hi - lo) = true ->
  0 <= FV (hi - lo) /\
  (FV (hi - lo) <= FV hi - FV lo \/
   exists q E,
     bounded prec emax q E = true /\ 2 ^ 52 <= Zpos q /\
     Zpos q * p2 E <= FV hi - FV lo /\ FV (hi - lo) = (Zpos q + 1) * p2 E).
Proof.
  unfold fin, FV. rewrite sub_spec. unfold SF64sub.
  pose proof (Prim2SF_valid hi) as Vh. pose proof (Prim2SF_valid lo) as Vl.
  destruct (Prim2SF hi) as [sx | sx | | sx mx ex]; try discriminate;
    destruct (Prim2SF lo) as [sy | sy | | sy my ey]; try discriminate;
    intros _ _ Hle.
  - intros _. cbn [SV] in *. destruct sx, sy; cbn [SFsub SV]; lia.
  - intros _. cbn [SFsub]. cbn [SV] in *.
    destruct sy; cbn [negb cond_Zopp] in *; lia.
  - intros _. cbn [SFsub]. cbn [SV] in *. lia.
  - cbn [valid_binary] in Vh, Vl.
    destruct (bounded_inv mx ex Vh) as (Hex & _).
    destruct (bounded_inv my ey Vl) as (Hey & _).
    cbn [SFsub].
    set (ez := Z.min ex ey).
    set (A := cond_Zopp sx (Zpos (fst (shl_align mx ex ez)))).
    set (B := cond_Zopp sy (Zpos (fst (shl_align my ey ez)))).
    assert (HA : A * p2 ez = SV (S754_finite sx mx ex)).
    { subst A ez. cbn [SV]. destruct sx; cbn [cond_Zopp];
        rewrite ?Z.mul_opp_l, shl_align_fst by (unfold bias; lia); reflexivity. }
    assert (HB : B * p2 ez = SV (S754_finite sy my ey)).
    { subst B ez. cbn [SV]. destruct sy; cbn [cond_Zopp];
        rewrite ?Z.mul_opp_l, shl_align_fst by (unfold bias; lia); reflexivity. }
    assert (Hpz : 0 < p2 ez) by (apply p2_pos; subst ez; unfold bias; lia).
    assert (Hd : (A - B) * p2 ez =
                 SV (S754_finite sx mx ex) - SV (S754_finite sy my ey)) by lia.
    rewrite <- Hd. unfold binary_normalize.
    destruct (A - B) as [|p|p] eqn:HAB.
    + intros _. cbn [SV]. lia.
    + intros Hfin. apply round_faithful; [subst ez; lia | exact Hfin].
    + exfalso. assert (Z.neg p * p2 ez < 0) by (apply Z.mul_neg_pos; lia). lia.
Qed.

(** The largest number below 1 is [1 - 2^-53]. *)
Lemma below_one (u : float) :
  fin u = true -> FV u < p2 0 -> FV u <= p2 0 - p2 (-53).
Proof.
  unfold fin, FV. pose proof (Prim2SF_valid u) as Vu.
  assert (H53 : p2 0 = 2 ^ 53 * p2 (-53)).
  { replace 0 with (-53 + 53) at 1 by lia.
    rewrite p2_add by (unfold bias; lia). lia. }
  assert (Hp53 : 0 < p2 (-53)) by (apply p2_pos; unfold bias; lia).
  destruct (Prim2SF u) as [s | s | | s m e]; cbn [SF_finite SV]; intros Hf Hlt';
    try discriminate Hf.
  - assert (0 < 2 ^ 53) by (apply Z.pow_pos_nonneg; lia). nia.
  - revert Hlt'. cbn [valid_binary] in Vu. destruct (bounded_inv m e Vu) as (He & Hm & Hn).
    assert (Hpe : 0 < p2 e) by (apply p2_pos; unfold bias; lia).
    destruct s; cbn [SV cond_Zopp]; [nia |]. intros Hlt.
    destruct (Z.le_gt_cases e (-54)) as [Hsmall | Hbig].
    + assert (p2 (e + 53) <= p2 (-1)) by (apply p2_le; unfold bias; lia).
      assert (p2 (e + 53) = p2 e * 2 ^ 53) by (apply p2_add; unfold bias; lia).
      assert (p2 0 = p2 (-1) * 2 ^ 1)
        by (replace 0 with (-1 + 1) at 1 by lia; apply p2_add; unfold bias; lia).
      assert (p2 (-1) = p2 (-53) * 2 ^ 52)
        by (replace (-1) with (-53 + 52) at 1 by lia; apply p2_add; unfold bias; lia).
      change (2 ^ 1) with 2 in *. nia.
    + destruct (Z.eq_dec e (-53)) as [-> | Hne]; [nia | exfalso].
      assert (2 ^ 52 <= Zpos m) by (apply Hn; lia).
      assert (p2 (-52) <= p2 e) by (apply p2_le; unfold bias; lia).
      assert (p2 0 = p2 (-52) * 2 ^ 52)
        by (replace 0 with (-52 + 52) at 1 by lia; apply p2_add; unfold bias; lia).
      nia.
Qed.

(** The product of two canonical numbers has enough digits to be rounded
    without a shift to the left. *)
Lemma mul_digits (mx : positive) (ex : Z) (my : positive) (ey : Z) :
  bounded prec emax mx ex = true -> bounded prec emax my ey = true ->
  ex + ey <= fexp prec emax (Zpos (digits2_pos (mx * my)) + (ex + ey)).
Proof.
  intros Vx Vy.
  destruct (bounded_inv mx ex Vx) as (Hex & Hmx & Hnx).
  destruct (bounded_inv my ey Vy) as (Hey & Hmy & Hny).
  rewrite fexp_eq.
  destruct (Z.eq_dec ex (-1074)) as [Hx0 | Hx1];
    [destruct (Z.eq_dec ey (-1074)) as [Hy0 | Hy1]; [lia |] |].
  - assert (Hm : 2 ^ 52 <= Zpos (mx * my)).
    { rewrite Pos2Z.inj_mul. specialize (Hny ltac:(lia)). nia. }
    pose proof (digits_upper (mx * my)) as Hd.
    assert (52 < Zpos (digits2_pos (mx * my))).
    { apply (Z.pow_lt_mono_r_iff 2); lia. }
    lia.
  - assert (Hm : 2 ^ 52 <= Zpos (mx * my)).
    { rewrite Pos2Z.inj_mul. specialize (Hnx ltac:(lia)). nia. }
    pose proof (digits_upper (mx * my)) as Hd.
    assert (52 < Zpos (digits2_pos (mx * my))).
    { apply (Z.pow_lt_mono_r_iff 2); lia. }
    lia.
Qed.

(** A width [w] that is the rounding of an exact width [d], times a draw
    below 1, does not exceed [d]: if [w] was rounded up, the product falls
    below the midpoint of [w] and its predecessor and is rounded down. *)
Lemma mul_shrink (w u : float) (d : Z) :
  fin w = true -> 0 <= FV w ->
  (FV w <= d \/
   exists q E,
     bounded prec emax q E = true /\ 2 ^ 52 <= Zpos q /\
     Zpos q * p2 E <= d /\ FV w = (Zpos q + 1) * p2 E) ->
  (0 <=? u)%float = true -> (u <? 1)%float = true ->
  fin (w * u) = true /\ 0 <= FV (w * u) <= d.
Proof.
  intros Fw Hw0 Hd H0 H1.
  destruct (unit_draw u H0 H1) as (Fu & Hu0 & Hu1).
  assert (Hp0 : 0 < p2 0) by (apply p2_pos; unfold bias; lia).
  destruct (mul_between w u 0 w Fw Fu) as [Ft Vt].
  { change (FV 0) with 0. nia. }
  change (FV 0) with 0 in Vt.
  split; [exact Ft |]. split; [lia |].
  destruct Hd as [Hle | (q & E & Hb & Hq & Hpred & Hw)]; [lia |].
  destruct (bounded_inv q E Hb) as (HE & Hq53 & _).
  assert (HPE : 0 < p2 E) by (apply p2_pos; unfold bias; lia).
  pose proof (below_one u Fu Hu1) as Hu2.
  assert (H53 : p2 0 = 2 ^ 53 * p2 (-53)).
  { replace 0 with (-53 + 53) at 1 by lia.
    rewrite p2_add by (unfold bias; lia). lia. }
  assert (Hp53 : 0 < p2 (-53)) by (apply p2_pos; unfold bias; lia).
  destruct (Z.le_gt_cases (FV w * FV u) (Zpos q * p2 E * p2 0)) as [Hlow | Hhigh].
  - (* at or below the predecessor *)
    revert Fw Fu Hlow Hw0 Hu0. unfold fin, FV. rewrite mul_spec.
    unfold SF64mul. intros Fw Fu Hlow Hw0 Hu0.
    destruct (SFmul_between (Prim2SF w) (Prim2SF u) (S754_zero false)
                (S754_finite false q E)) as [_ [_ Hup]];
      auto using Prim2SF_valid.
    + cbn [SV cond_Zopp]. nia.
    + cbn [SV cond_Zopp] in Hup. lia.
  - (* between the predecessor and the midpoint *)
    assert (Hwpos : 0 < FV w) by nia.
    assert (Hupos : 0 < FV u) by nia.
    revert Hw Hu2 Hhigh Hwpos Hupos. unfold FV. rewrite mul_spec.
    unfold SF64mul. intros Hw Hu2 Hhigh Hwpos Hupos.
    destruct (SV_pos_inv _ (Prim2SF_valid w) Hwpos) as (mw & ew & Ew & Bw).
    destruct (SV_pos_inv _ (Prim2SF_valid u) Hupos) as (mu & eu & Eu & Bu).
    rewrite Ew, Eu in *. cbn [SV cond_Zopp] in Hw, Hu2, Hhigh.
    destruct (bounded_inv mw ew Bw) as (Hew & _).
    destruct (bounded_inv mu eu Bu) as (Heu & _).
    assert (Hprod : p2 ew * p2 eu = p2 (ew + eu) * p2 0).
    { unfold p2. rewrite <- !Z.pow_add_r by (unfold bias; lia). f_equal. lia. }
    assert (HX : Zpos mw * p2 ew * (Zpos mu * p2 eu) =
                 Zpos (mw * mu) * p2 (ew + eu) * p2 0).
    { rewrite Pos2Z.inj_mul, <- (Z.mul_assoc _ (p2 (ew + eu))), <- Hprod. ring. }
    cbn [SFmul xorb].
    rewrite (round_down false (mw * mu) (ew + eu) q E).
    + cbn [SV cond_Zopp]. exact Hpred.
    + unfold bias; lia.
    + now apply mul_digits.
    + exact Hb.
    + rewrite HX in Hhigh. nia.
    + assert (Hupper : Zpos (mw * mu) * p2 (ew + eu) * p2 0 <=
                       (Zpos q + 1) * p2 E * (p2 0 - p2 (-53))).
      { rewrite <- HX, Hw. apply Z.mul_le_mono_nonneg_l; [nia | exact Hu2]. }
      assert (Hgap : 2 * ((Zpos q + 1) * p2 E * (p2 0 - p2 (-53))) <
                     (2 * Zpos q + 1) * p2 E * p2 0).
      { rewrite H53.
        assert (2 * ((Zpos q + 1) * (2 ^ 53 * p2 (-53) - p2 (-53))) <
                (2 * Zpos q + 1) * (2 ^ 53 * p2 (-53))) by nia.
        nia. }
      nia.
Qed.

(** A point drawn in the span [[lo, hi]] lies in it. *)
Lemma within_span (lo hi u : float) :
  span_ok lo hi = true ->
  (0 <=? u)%float = true -> (u <? 1)%float = true ->
  let y := (lo + uniform_of 0 (hi - lo) u)%float in
  (lo <=? y)%float = true /\ (y <=? hi)%float = true.
Proof.
  unfold span_ok. rewrite !andb_true_iff.
  intros [[[Flo Fhi] Hle] Fw] H0 H1. cbv zeta.
  rewrite (leb_FV lo hi Flo Fhi) in Hle. apply Z.leb_le in Hle.
  destruct (sub_faithful hi lo Fhi Flo Hle Fw) as [Hw0 Hw].
  destruct (sub_zero (hi - lo) Fw) as [Fw0 Vw0].
  destruct (mul_shrink (hi - lo - 0) u (FV hi - FV lo)) as [Ft Vt]; auto.
  { rewrite Vw0. exact Hw0. }
  { rewrite Vw0. exact Hw. }
  destruct (add_between 0 ((hi - lo - 0) * u) ((hi - lo - 0) * u) ((hi - lo - 0) * u)
              eq_refl Ft) as [Fs Vs].
  { change (FV 0) with 0. lia. }
  destruct (add_between lo (0 + (hi - lo - 0) * u) lo hi Flo Fs) as [Fy Vy].
  { lia. }
  unfold uniform_of.
  rewrite (leb_FV _ _ Flo Fy), (leb_FV _ _ Fy Fhi), !Z.leb_le. exact Vy.
Qed.

(** Every result of rounding carries the sign it was asked for. *)
Lemma binary_round_aux_sign (s : bool) (m e : Z) (l : location) :
  sign_in s (binary_round_aux prec emax s m e l).
Proof.
  unfold binary_round_aux.
  destruct (shr_fexp prec emax m e l) as [mrs' e'].
  destruct (shr_fexp prec emax _ e' loc_Exact) as [mrs'' e''].
  destruct (shr_m mrs''); [reflexivity | | exact I].
  destruct (e'' <=? emax - prec); reflexivity.
Qed.

Lemma binary_round_sign (s : bool) (m : positive) (e : Z) :
  sign_in s (binary_round prec emax s m e).
Proof.
  unfold binary_round. destruct (shl_align m e _). apply binary_round_aux_sign.
Qed.

Lemma SFmul_square_sign (x : spec_float) : sign_in false (SFmul prec emax x x).
Proof.
  destruct x as [s | s | | s m e]; cbn [SFmul sign_in];
    try (destruct s; reflexivity); try exact I.
  replace (xorb s s) with false by (destruct s; reflexivity).
  apply binary_round_aux_sign.
Qed.

Lemma SFadd_sign (x y : spec_float) :
  sign_in false x -> sign_in false y -> sign_in false (SFadd prec emax x y).
Proof.
  destruct x as [sx | sx | | sx mx ex]; cbn [sign_in]; intros Hx;
    try subst sx; try exact I;
    destruct y as [sy | sy | | sy my ey]; cbn [sign_in]; intros Hy;
    try subst sy; try exact I; try reflexivity.
  cbn [SFadd cond_Zopp]. unfold binary_normalize.
  match goal with |- sign_in _ (match ?z with _ => _ end) =>
    destruct z eqn:Hz end; try reflexivity.
  - apply binary_round_sign.
  - lia.
Qed.

(** With a radius of zero no pair is ever accepted. *)
Lemma inside_zero_radius (r x y : float) :
  (r =? 0)%float = true -> inside r x y = false.
Proof.
  intros Hr. unfold inside. rewrite ltb_spec, add_spec, !mul_spec.
  rewrite eqb_spec in Hr. change (Prim2SF 0) with (S754_zero false) in Hr.
  assert (HR : exists s, Prim2SF r = S754_zero s).
  { destruct (Prim2SF r) as [s | s | | s m e]; eauto;
      try (destruct s; discriminate); discriminate. }
  destruct HR as [s ->].
  replace (SF64mul (S754_zero s) (S754_zero s)) with (S754_zero false)
    by (destruct s; reflexivity).
  pose proof (SFadd_sign _ _ (SFmul_square_sign (Prim2SF x))
                (SFmul_square_sign (Prim2SF y))) as Hs.
  unfold SF64add, SF64mul.
  destruct (SFadd prec emax _ _) as [s' | s' | | s' m' e']; cbn [sign_in] in Hs;
    try subst s'; reflexivity.
Qed.

(* ================================================================== *)
(** * Geometric bounds *)
(* ================================================================== *)

(** A point the mouth sampler computes from two draws of [[0, 1)] lies in
    the mouth rectangle. *)
Lemma mouth_point_in_mouth (g : Config) (ti : Z) (u v : float) :
  mouth_valid g = true ->
  (0 <=? u)%float = true -> (u <? 1)%float = true ->
  (0 <=? v)%float = true -> (v <? 1)%float = true ->
  in_mouth g (mouth_point g ti u v).
Proof.
  unfold mouth_valid. rewrite andb_true_iff. intros [Hy Hz] Hu0 Hu1 Hv0 Hv1.
  destruct (within_span _ _ _ Hy Hu0 Hu1) as [Hy1 Hy2].
  destruct (within_span _ _ _ Hz Hv0 Hv1) as [Hz1 Hz2].
  unfold in_mouth, mouth_point, ydel, zdel. cbn [e_x e_y e_z]. auto.
Qed.

Lemma mouth_emission_in_mouth (g : Config) (D : nat -> float) (ti : Z)
    (e : Emission) :
  mouth_valid g = true -> unit_draws D ->
  mouth_emission g D ti e -> in_mouth g e.
Proof.
  intros Hm HD (i & ->).
  destruct (HD i) as [Hi0 Hi1]. destruct (HD (S i)) as [Hj0 Hj1].
  now apply mouth_point_in_mouth.
Qed.

Lemma nostril_emission_in_nostril (r : float) (D : nat -> float)
    (m : list (list float)) (ti : Z) (e : Emission) :
  nostril_emission r D m ti e -> in_nostril r m e.
Proof.
  intros (i & Hin & _ & Hrt). cbv zeta in *.
  exists (candidate r (D i)), (candidate r (D (S i))). split; assumption.
Qed.

(** The condition on the mouth rectangle cannot be dropped: with finite
    bounds, if the point computed from the draw [0] lies in [[lo, hi]],
    then [lo <= hi] and the width [hi - lo] is finite. *)
Lemma span_ok_is_needed (lo hi : float) :
  fin lo = true -> fin hi = true ->
  (lo <=? lo + uniform_of 0 (hi - lo) 0)%float = true ->
  (lo + uniform_of 0 (hi - lo) 0 <=? hi)%float = true ->
  span_ok lo hi = true.
Proof.
  intros Flo Fhi Hlo Hhi. unfold span_ok. rewrite Flo, Fhi. cbn [andb].
  destruct (fin (hi - lo)) eqn:Fw.
  - rewrite andb_true_r. unfold uniform_of in Hhi.
    destruct (sub_zero (hi - lo) Fw) as [Fw0 Vw0].
    destruct (mul_between (hi - lo - 0) 0 0 0 Fw0 eq_refl) as [Ft Vt].
    { change (FV 0) with 0. lia. }
    change (FV 0) with 0 in Vt.
    destruct (add_between 0 ((hi - lo - 0) * 0) 0 0 eq_refl Ft) as [Fs Vs].
    { change (FV 0) with 0. lia. }
    change (FV 0) with 0 in Vs.
    destruct (add_between lo (0 + (hi - lo - 0) * 0) lo lo Flo Fs) as [Fy Vy].
    { lia. }
    rewrite (leb_FV _ _ Fy Fhi) in Hhi. rewrite (leb_FV _ _ Flo Fhi).
    apply Z.leb_le in Hhi. apply Z.leb_le. lia.
  - exfalso. revert Hlo. unfold uniform_of, fin in *.
    rewrite leb_spec, !add_spec, mul_spec, sub_spec.
    change (Prim2SF 0) with (S754_zero false).
    destruct (Prim2SF (hi - lo)) as [s | s | | s m e]; try discriminate Fw;
      destruct (Prim2SF lo) as [sl | sl | | sl ml el]; discriminate.
Qed.

(** Claim C4.  For a configuration whose loop constants let the run go
    through and whose mouth rectangle has finite bounds [ymin <= ymax],
    [zmin <= zmax] of finite width, with draws in [0, 1): every point the
    mouth sampler computes has [x] equal to [xPln], [ymin <= y <= ymax] and
    [zmin <= z <= zmax]; and the run writes, at every time step of the
    exhale window, [mouthCount] such points, then [nostrilCount] images
    under the left matrix and [nostrilCount] images under the right matrix
    of accepted pairs [(x, y)], each with [x*x + y*y < r*r] as the script
    computes it, and nothing at the other time steps. *)
Theorem emitted_within_regions (fuel : nat) (g : Config) (w : World) :
  runnable g = true ->
  mouth_valid g = true ->
  unit_draws (draws w) ->
  accepts_within fuel (c_radius g) (draws w) ->
  (forall ti u v,
     (0 <=? u)%float = true -> (u <? 1)%float = true ->
     (0 <=? v)%float = true -> (v <? 1)%float = true ->
     in_mouth g (mouth_point g ti u v)) /\
  exists parts w',
    NoseParticleGeneration_with fuel g w = Done tt w' /\
    file w' = header_lines g ++ render g 0 (concat parts) /\
    Forall2 (batch_in_regions g (draws w)) (time_steps g) parts.
Proof.
  intros Hg Hm HD Hacc.
  split; [intros ti u v; now apply mouth_point_in_mouth |].
  destruct (run_emits fuel g w Hg Hacc) as (parts & w' & Hrun & Hparts & Hf & _).
  exists parts, w'. split; [exact Hrun | split; [exact Hf |]].
  eapply Forall2_impl; [| exact Hparts]. cbv beta.
  intros ti part _ Hb. unfold batch in Hb. unfold batch_in_regions.
  destruct (exhaling g ti); [| exact Hb].
  destruct Hb as (ms & ls & rs & -> & Lm & Fm & Ll & Fl & Lr & Fr).
  exists ms, ls, rs. split; [reflexivity |].
  split; [exact Lm | split; [| split; [exact Ll | split; [| split; [exact Lr |]]]]].
  - eapply Forall_impl; [| exact Fm]. intros e He.
    split; [exact He | now apply mouth_emission_in_mouth with (draws w) ti].
  - eapply Forall_impl; [| exact Fl]. intros e He.
    split; [exact He | now apply nostril_emission_in_nostril with (draws w) ti].
  - eapply Forall_impl; [| exact Fr]. intros e He.
    split; [exact He | now apply nostril_emission_in_nostril with (draws w) ti].
Qed.

(** The same for the file as it stands, with a generator that keeps
    returning 0.5. *)
Lemma emitted_within_regions_default :
  (forall ti u v,
     (0 <=? u)%float = true -> (u <? 1)%float = true ->
     (0 <=? v)%float = true -> (v <? 1)%float = true ->
     in_mouth default (mouth_point default ti u v)) /\
  exists parts w',
    NoseParticleGeneration 1 steady = Done tt w' /\
    file w' = header_lines default ++ render default 0 (concat parts) /\
    Forall2 (batch_in_regions default (draws steady)) (time_steps default) parts.
Proof.
  apply (emitted_within_regions 1 default steady).
  - vm_compute. reflexivity.
  - vm_compute. reflexivity.
  - intros n. split; reflexivity.
  - intros n. exists 0%nat. split; [lia | vm_compute; reflexivity].
Defined.

(* ================================================================== *)
(** * No validation of the geometry *)
(* ================================================================== *)

Lemma rejection_zero_radius (r : float) (fuel : nat) (w : World) :
  (r =? 0)%float = true ->
  exists w', rejection fuel r w = Running w' /\
             file w' = file w /\ stdout w' = stdout w.
Proof.
  intros Hr. revert w. induction fuel as [|fuel IH]; intros w.
  - exists w. repeat split.
  - rewrite rejection_S; cbv zeta. rewrite (inside_zero_radius _ _ _ Hr).
    match goal with |- context [rejection fuel r ?w2] =>
      destruct (IH w2) as (w' & Hrun & Hf & Hs) end.
    exists w'. repeat split; assumption.
Qed.

Lemma time_steps_with_geometry (r y0 y1 z0 z1 : float) :
  exists rest, time_steps (with_geometry r y0 y1 z0 z1) = 0 :: rest.
Proof.
  unfold time_steps. cbn [c_stop c_step with_geometry].
  assert (H : range_len 0 200005 5 = 40001) by reflexivity. rewrite H.
  destruct (Z.to_nat 40001) as [|n] eqn:Hn; [lia |].
  cbn [seq map]. eexists. reflexivity.
Qed.

(** Claim C9, as amended.  The geometry is not validated: whatever the
    radius and the bounds of the mouth rectangle, no fault is reported on
    their account.  If accepted pairs keep coming up the run completes with
    the header and every batch written; if the radius is zero, the header
    and the five mouth particles of the first step are written and the
    first nostril loop is then never left. *)
Theorem geometry_is_not_validated (r y0 y1 z0 z1 : float) (fuel : nat)
    (w : World) :
  let g := with_geometry r y0 y1 z0 z1 in
  (accepts_within fuel r (draws w) ->
   exists parts w',
     NoseParticleGeneration_with fuel g w = Done tt w' /\
     Forall2 (batch g (draws w)) (time_steps g) parts /\
     file w' = header_lines g ++ render g 0 (concat parts)) /\
  ((r =? 0)%float = true ->
   exists ms w',
     NoseParticleGeneration_with fuel g w = Running w' /\
     file w' = header_lines g ++ render g 0 ms /\
     List.length ms = 5%nat /\
     Forall (mouth_emission g (draws w) 0) ms).
Proof.
  intros g. split.
  - intros Hacc.
    destruct (run_emits fuel g w eq_refl Hacc) as (parts & w' & H1 & H2 & H3 & _).
    exists parts, w'. auto.
  - intros Hr. rewrite run_unfold. cbv zeta.
    rewrite (range_time_steps g) by (cbn; lia).
    destruct (time_steps_with_geometry r y0 y1 z0 z1) as [rest Hts].
    fold g in Hts. rewrite Hts. cbn [for_in].
    set (w1 := mkWorld _ _ _ _).
    (* the first time step: the mouth batch, then the first nostril loop *)
    unfold time_step at 1. unfold bind at 1.
    change (mod_ 0 (c_cyclePeriod g)) with (Ok (A := Z) 0).
    rewrite (lift_Ok _ _ _ _ eq_refl).
    change ((0 <=? 0) && (0 <? c_exhaleLength g)) with true. cbv iota.
    rewrite (lift_Ok _ _ _ _ (range_Ok_1 _)).
    destruct (emits_for_in_single g (mouth_emission g (draws w) 0)
                (fun _ pId => mouth_particle g 0 pId)
                (map (fun k => 0 + Z.of_nat k * 1) (seq 0 (Z.to_nat (c_mouthCount g))))
                (draws w)) with (pId := 0) (w := w1)
      as (ms & w2 & [Hlen HF] & Hrun & Hd2 & Hs2 & Hf2); [| reflexivity |].
    { intros _ p w0 _ Hd. rewrite <- Hd. apply mouth_particle_emits.
      vm_compute. reflexivity. }
    rewrite (bind_Done _ _ _ _ _ Hrun).
    destruct (rejection_zero_radius r fuel w2 Hr) as (w3 & Hrej & Hf3 & _).
    unfold bind at 1.
    rewrite (GenNostril_two fuel g 0 _ r leftRotTrans eq_refl).
    unfold bind at 1.
    rewrite (nostril_particle_Running _ _ _ _ _ _ _ _ Hrej).
    exists ms, w3. split; [reflexivity |].
    rewrite Hf3, Hf2. subst w1. cbn [file].
    rewrite Hlen, length_map, length_seq. auto.
Qed.

(** Claim C9, as stated, fails for the file's values with the radius set
    to zero: the configuration is not refused, no fault is raised, and the
    header and five records are in the file while the first nostril loop is
    spinning. *)
Lemma zero_radius_is_not_refused :
  (c_radius zero_radius <=? 0)%float = true /\
  (forall e w', NoseParticleGeneration_with 1 zero_radius steady <> Raise e w') /\
  exists w',
    NoseParticleGeneration_with 1 zero_radius steady = Running w' /\
    List.length (file w') = 7%nat.
Proof.
  split; [reflexivity |].
  assert (H : exists w',
            NoseParticleGeneration_with 1 zero_radius steady = Running w' /\
            List.length (file w') = 7%nat).
  { eexists. split; [vm_compute; reflexivity | reflexivity]. }
  split; [| exact H].
  destruct H as (w' & Hrun & _). rewrite Hrun. discriminate.
Qed.

(* ================================================================== *)
(** * The square the candidates are drawn from *)
(* ================================================================== *)

Lemma opp_FV (x : float) : fin (- x) = fin x /\ FV (- x) = - FV x.
Proof.
  unfold fin, FV. rewrite opp_spec.
  destruct (Prim2SF x) as [s | s | | s m e]; cbn [SFopp SF_finite SV];
    try (split; reflexivity).
  split; [reflexivity |]. destruct s; cbn [negb cond_Zopp]; lia.
Qed.

(** A draw of [uniform(-1.0, 1.0)] is a finite number of [[-1, 1]]. *)
Lemma uniform_sym_range (u : float) :
  (0 <=? u)%float = true -> (u <? 1)%float = true ->
  fin (uniform_of (-1.0) 1.0 u) = true /\
  - p2 0 <= FV (uniform_of (-1.0) 1.0 u) <= p2 0.
Proof.
  intros H0 H1. destruct (unit_draw u H0 H1) as (Fu & Hu0 & Hu1).
  assert (Hp0 : 0 < p2 0) by (apply p2_pos; unfold bias; lia).
  unfold uniform_of. change (1.0 - -1.0)%float with 2%float.
  assert (H2 : FV 2 = 2 * p2 0) by (vm_compute; reflexivity).
  assert (Hm1 : FV (-1.0) = - p2 0) by (vm_compute; reflexivity).
  assert (H1' : FV 1 = p2 0) by (vm_compute; reflexivity).
  destruct (mul_between 2 u 0 2 eq_refl Fu) as [Ft Vt].
  { change (FV 0) with 0. rewrite H2. nia. }
  change (FV 0) with 0 in Vt. rewrite H2 in Vt.
  destruct (add_between (-1.0) (2 * u) (-1.0) 1 eq_refl Ft) as [Fs Vs].
  { rewrite Hm1, H1'. lia. }
  rewrite Hm1, H1' in Vs. auto.
Qed.

(** The comment of the source: the candidate coordinates lie within the
    square [[-radius, radius]]. *)
Theorem candidate_in_square (r u : float) :
  fin r = true -> (0 <=? r)%float = true ->
  (0 <=? u)%float = true -> (u <? 1)%float = true ->
  (- r <=? candidate r u)%float = true /\ (candidate r u <=? r)%float = true.
Proof.
  intros Fr Hr H0 H1.
  destruct (uniform_sym_range u H0 H1) as [Fs Vs].
  destruct (opp_FV r) as [Fo Vo]. rewrite Fr in Fo.
  rewrite (leb_FV 0 r eq_refl Fr) in Hr. apply Z.leb_le in Hr.
  change (FV 0) with 0 in Hr.
  assert (Hp0 : 0 < p2 0) by (apply p2_pos; unfold bias; lia).
  unfold candidate.
  destruct (mul_between r (uniform_of (-1.0) 1.0 u) (- r) r Fr Fs) as [Fx Vx].
  { rewrite Vo. nia. }
  rewrite (leb_FV _ _ Fo Fx), (leb_FV _ _ Fx Fr), !Z.leb_le.
  exact Vx.
Qed.

Lemma candidate_in_square_default :
  (- radius <=? candidate radius 0.25)%float = true /\
  (candidate radius 0.25 <=? radius)%float = true.
Proof.
  apply (candidate_in_square radius 0.25); reflexivity.
Defined.

(* ================================================================== *)
(** * A negative radius *)
(* ================================================================== *)

Lemma binary_round_aux_opp (s : bool) (m e : Z) (l : location) :
  binary_round_aux prec emax (negb s) m e l =
  SFopp (binary_round_aux prec emax s m e l).
Proof.
  unfold binary_round_aux.
  destruct (shr_fexp prec emax m e l) as [mrs' e'].
  destruct (shr_fexp prec emax _ e' loc_Exact) as [mrs'' e''].
  destruct (shr_m mrs''); [reflexivity | | reflexivity].
  destruct (e'' <=? emax - prec); reflexivity.
Qed.

Lemma SFmul_opp_l (x y : spec_float) :
  SFmul prec emax (SFopp x) y = SFopp (SFmul prec emax x y).
Proof.
  destruct x as [sx | sx | | sx mx ex]; destruct y as [sy | sy | | sy my ey];
    cbn [SFmul SFopp]; try reflexivity;
    try (destruct sx, sy; reflexivity).
  rewrite <- binary_round_aux_opp. f_equal. destruct sx, sy; reflexivity.
Qed.

Lemma SFmul_opp_r (x y : spec_float) :
  SFmul prec emax x (SFopp y) = SFopp (SFmul prec emax x y).
Proof.
  destruct x as [sx | sx | | sx mx ex]; destruct y as [sy | sy | | sy my ey];
    cbn [SFmul SFopp]; try reflexivity;
    try (destruct sx, sy; reflexivity).
  rewrite <- binary_round_aux_opp. f_equal. destruct sx, sy; reflexivity.
Qed.

Lemma mul_opp_l (a b : float) : (- a * b = - (a * b))%float.
Proof.
  apply Prim2SF_inj. rewrite opp_spec, !mul_spec, opp_spec. apply SFmul_opp_l.
Qed.

Lemma mul_opp_opp (a b : float) : (- a * - b = a * b)%float.
Proof.
  apply Prim2SF_inj. rewrite !mul_spec, !opp_spec.
  unfold SF64mul. rewrite SFmul_opp_l, SFmul_opp_r.
  destruct (SFmul prec emax (Prim2SF a) (Prim2SF b)) as [s | s | | s m e];
    cbn [SFopp]; rewrite ?negb_involutive; reflexivity.
Qed.

Lemma candidate_opp (r u : float) :
  candidate (- r) u = (- candidate r u)%float.
Proof. unfold candidate. apply mul_opp_l. Qed.

Lemma inside_opp (r x y : float) : inside (- r) (- x) (- y) = inside r x y.
Proof. unfold inside. now rewrite !mul_opp_opp. Qed.

(** The sign of the radius goes unnoticed by the sampler: with [- r] the
    candidates are mirrored and the same pairs are accepted, so that the
    rejection loop stops after the same number of draws, with the mirrored
    pair; a negative radius is as good as its absolute value. *)
Theorem negative_radius_mirrors (fuel : nat) (r : float) (w : World) :
  match rejection fuel r w, rejection fuel (- r) w with
  | Done xy v, Done xy' v' =>
    fst xy' = (- fst xy)%float /\ snd xy' = (- snd xy)%float /\ v' = v
  | Running v, Running v' => v' = v
  | _, _ => False
  end.
Proof.
  revert w. induction fuel as [|fuel IH]; intros w; [reflexivity |].
  rewrite !rejection_S. cbv zeta. rewrite !candidate_opp, inside_opp.
  destruct (inside r _ _).
  - cbn. auto.
  - apply IH.
Qed.

(* ================================================================== *)
(** * The order of the records *)
(* ================================================================== *)

Lemma count_from_above (n : nat) (start step : Z) :
  0 < step -> Forall (fun t => start <= t) (count_from n start step).
Proof.
  intros Hs. revert start. induction n as [|n IH]; intros start; cbn [count_from].
  - constructor.
  - constructor; [lia |]. eapply Forall_impl; [| apply IH].
    cbv beta. intros t Ht. lia.
Qed.

Lemma count_from_increasing (n : nat) (start step : Z) :
  0 < step -> StronglySorted Z.lt (count_from n start step).
Proof.
  intros Hs. revert start. induction n as [|n IH]; intros start; cbn [count_from].
  - constructor.
  - constructor; [apply IH |].
    eapply Forall_impl; [| apply (count_from_above n (start + step) step Hs)].
    cbv beta. intros t Ht. lia.
Qed.

Lemma time_steps_increasing (g : Config) :
  0 < c_step g -> StronglySorted Z.lt (time_steps g).
Proof.
  intros Hs. unfold time_steps. rewrite <- count_from_map.
  now apply count_from_increasing.
Qed.

Lemma sorted_after_batch (ti : Z) (part : list Emission) (rest : list Z) :
  Forall (fun e => e_ti e = ti) part ->
  StronglySorted Z.le rest ->
  Forall (fun t => ti <= t) rest ->
  StronglySorted Z.le (map e_ti part ++ rest).
Proof.
  intros Hpart Hrest Hle.
  induction Hpart as [|e part He Hpart IH]; cbn [map app]; [exact Hrest |].
  constructor; [exact IH |]. rewrite Forall_app. split.
  - rewrite Forall_map. eapply Forall_impl; [| exact Hpart].
    cbv beta. intros e' He'. lia.
  - eapply Forall_impl; [| exact Hle]. cbv beta. intros t Ht. lia.
Qed.

(** Batches tagged by increasing time steps, one after the other, give
    tags in non-decreasing order. *)
Lemma tags_sorted (tis : list Z) (parts : list (list Emission)) :
  StronglySorted Z.lt tis ->
  Forall2 (fun ti part => Forall (fun e => e_ti e = ti) part) tis parts ->
  StronglySorted Z.le (map e_ti (concat parts)) /\
  Forall (fun e => In (e_ti e) tis) (concat parts).
Proof.
  intros Hs HF. induction HF as [|ti part tis parts Hpart _ IH]; cbn [concat].
  - split; constructor.
  - apply StronglySorted_inv in Hs. destruct Hs as [Hs Hlt].
    destruct (IH Hs) as [IHs IHin]. clear IH.
    rewrite Forall_forall in Hlt.
    split.
    + rewrite map_app. apply (sorted_after_batch ti); auto.
      rewrite Forall_map. eapply Forall_impl; [| exact IHin].
      cbv beta. intros e He. specialize (Hlt _ He). lia.
    + rewrite Forall_app. split.
      * eapply Forall_impl; [| exact Hpart]. cbv beta. intros e ->. now left.
      * eapply Forall_impl; [| exact IHin]. cbv beta. intros e He. now right.
Qed.

(** In the file the records come in the order of their time steps. *)
Theorem records_in_time_order (fuel : nat) (g : Config) (w : World) :
  runnable g = true ->
  0 < c_step g ->
  accepts_within fuel (c_radius g) (draws w) ->
  exists es w',
    NoseParticleGeneration_with fuel g w = Done tt w' /\
    file w' = header_lines g ++ render g 0 es /\
    StronglySorted Z.le (map e_ti es) /\
    Forall (fun e => 0 <= e_ti e < c_stop g /\ e_ti e mod c_step g = 0) es.
Proof.
  intros Hg Hs Hacc.
  destruct (run_emits fuel g w Hg Hacc) as (parts & w' & Hrun & Hparts & Hf & _).
  destruct (tags_sorted (time_steps g) parts (time_steps_increasing g Hs))
    as [Hsorted Hin].
  { eapply Forall2_impl; [| exact Hparts]. cbv beta.
    intros ti part _ Hb. apply batch_tags in Hb. exact (proj1 Hb). }
  exists (concat parts), w'. repeat (split; [assumption |]).
  eapply Forall_impl; [| exact Hin]. cbv beta. intros e He.
  destruct (time_steps_between g (e_ti e) ltac:(lia) He) as [H | H]; lia.
Qed.

Lemma records_in_time_order_default :
  exists es w',
    NoseParticleGeneration 1 steady = Done tt w' /\
    file w' = header_lines default ++ render default 0 es /\
    StronglySorted Z.le (map e_ti es) /\
    Forall (fun e => 0 <= e_ti e < 200005 /\ e_ti e mod 5 = 0) es.
Proof.
  apply (records_in_time_order 1 default steady).
  - vm_compute. reflexivity.
  - reflexivity.
  - intros n. exists 0%nat. split; [lia | vm_compute; reflexivity].
Defined.

(* ================================================================== *)
(** * The shape [RotTrans] expects *)
(* ================================================================== *)

(** Only the first three components of the point and the first four
    entries of the first three rows are read. *)
Lemma RotTrans_block (m : list (list float)) (p : list float) :
  RotTrans m p = RotTrans (firstn 3 (map (firstn 4) m)) (firstn 3 p).
Proof.
  destruct m as [|[|r00 [|r01 [|r02 [|r03 r0]]]] [|[|r10 [|r11 [|r12 [|r13 r1]]]]
               [|[|r20 [|r21 [|r22 [|r23 r2]]]] m]]];
    destruct p as [|x [|y [|z p]]]; reflexivity.
Qed.

(** On a matrix of at least three rows, the first three of at least four
    entries, and a point of at least three components, [RotTrans] returns
    the three row images; on every other input it fails with [IndexError].
    Rows beyond the third, entries beyond the fourth of a row and components
    beyond the third are never read: inputs that agree on the rest have the
    same result.  The check of the transforms in [runnable] is this
    condition on the shape. *)
Theorem RotTrans_shape (m : list (list float)) (p : list float) :
  (has_shape m = true -> (3 <= List.length p)%nat ->
   RotTrans m p = Ok (map (row_image p) (firstn 3 m))) /\
  (has_shape m = false \/ (List.length p < 3)%nat ->
   RotTrans m p = Err IndexError) /\
  (forall m' p',
     firstn 3 (map (firstn 4) m') = firstn 3 (map (firstn 4) m) ->
     firstn 3 p' = firstn 3 p ->
     RotTrans m' p' = RotTrans m p) /\
  affine m = has_shape m.
Proof.
  split; [| split; [| split]].
  - destruct m as [|[|r00 [|r01 [|r02 [|r03 r0]]]] [|[|r10 [|r11 [|r12 [|r13 r1]]]]
                 [|[|r20 [|r21 [|r22 [|r23 r2]]]] m]]];
      destruct p as [|x [|y [|z p]]]; cbn [List.length];
      intros H1 H2; try discriminate H1; try lia; reflexivity.
  - destruct m as [|[|r00 [|r01 [|r02 [|r03 r0]]]] [|[|r10 [|r11 [|r12 [|r13 r1]]]]
                 [|[|r20 [|r21 [|r22 [|r23 r2]]]] m]]];
      destruct p as [|x [|y [|z p]]]; cbn [List.length];
      intros [H | H]; try discriminate H; try lia; reflexivity.
  - intros m' p' Hm Hp.
    rewrite (RotTrans_block m' p'), (RotTrans_block m p), Hm, Hp. reflexivity.
  - unfold affine.
    destruct m as [|[|r00 [|r01 [|r02 [|r03 r0]]]] [|[|r10 [|r11 [|r12 [|r13 r1]]]]
                 [|[|r20 [|r21 [|r22 [|r23 r2]]]] m]]]; reflexivity.
Qed.

(** The left matrix of the file and the origin of the nostril plane. *)
Lemma RotTrans_shape_left :
  RotTrans leftRotTrans [0; 0; 0]%float =
  Ok (map (row_image [0; 0; 0]%float) (firstn 3 leftRotTrans)).
Proof.
  apply (proj1 (RotTrans_shape leftRotTrans [0; 0; 0]%float)).
  - reflexivity.
  - cbn [List.length]. lia.
Defined.

(* ================================================================== *)
(** * The record writer *)
(* ================================================================== *)

(** For an identifier the interpreter can print, the writer either appends
    one whole line, made of the first three components of the coordinate,
    and returns the next identifier, or fails and leaves the file and
    everything else as it was: with [IndexError] for a coordinate of fewer
    than three components, with [OverflowError] (in the full format only)
    for a time step too large for a float. *)
Theorem writer_is_atomic (g : Config) (ti pId : Z) (coord : list float)
    (w : World) :
  printable (printed_id g pId) = true ->
  match whichOutput g ti pId coord w with
  | Done a w' =>
    a = pId + 1 /\
    exists x y z rest,
      coord = x :: y :: z :: rest /\
      w' = mkWorld (draws w) (cursor w)
             (file w ++ [record_text g pId (mkEmission ti x y z)]) (stdout w)
  | Raise e w' =>
    w' = w /\
    ((e = IndexError /\ (List.length coord < 3)%nat) \/
     (e = OverflowError /\ c_whichOutput g = UseOutput /\
      (3 <= List.length coord)%nat /\ float_limit <= Z.abs ti))
  | Running _ => False
  end.
Proof.
  intros _. unfold whichOutput, record_text.
  destruct (c_whichOutput g) eqn:Hw; unfold Output, OutputStar;
    destruct coord as [|x [|y [|z rest]]];
    try (cbn; split; [reflexivity | left; split; [reflexivity | lia]]).
  - unfold bind at 1 2 3. cbn [lift index nth_error].
    unfold bind at 1, lift, truediv, float_of_int.
    destruct (Z.abs ti <? float_limit) eqn:Hti.
    + change (1000.0 =? 0)%float with false. cbn.
      split; [reflexivity |].
      exists x, y, z, rest. split; reflexivity.
    + apply Z.ltb_ge in Hti. cbn.
      split; [reflexivity | right]. repeat split; try lia; exact Hti.
  - cbn. split; [reflexivity |].
    exists x, y, z, rest. split; reflexivity.
Qed.

(** The call of the scenario: the file's constants, time step 2500 and
    identifier 0. *)
Lemma writer_is_atomic_scenario :
  match whichOutput default 2500 0 [0.0015; 3.37; 1.683]%float steady with
  | Done a w' =>
    a = 0 + 1 /\
    exists x y z rest,
      [0.0015; 3.37; 1.683]%float = x :: y :: z :: rest /\
      w' = mkWorld (draws steady) (cursor steady)
             (file steady ++ [record_text default 0 (mkEmission 2500 x y z)])
             (stdout steady)
  | Raise e w' =>
    w' = steady /\
    ((e = IndexError /\
      (List.length [0.0015; 3.37; 1.683]%float < 3)%nat) \/
     (e = OverflowError /\ c_whichOutput default = UseOutput /\
      (3 <= List.length [0.0015; 3.37; 1.683]%float)%nat /\
      float_limit <= Z.abs 2500))
  | Running _ => False
  end.
Proof.
  apply (writer_is_atomic default 2500 0 [0.0015; 3.37; 1.683]%float steady).
  vm_compute. reflexivity.
Defined.

(* ================================================================== *)

Lemma count_char_app (c : ascii) (s t : string) :
  count_char c (s ++ t) = (count_char c s + count_char c t)%nat.
Proof.
  induction s as [|a s IH]; cbn [append count_char]; [reflexivity |].
  rewrite IH. lia.
Qed.

Lemma count_char_repeat (c a : ascii) (n : nat) :
  Ascii.eqb a c = false -> count_char c (repeat_char a n) = 0%nat.
Proof.
  intros H. induction n as [|n IH]; cbn [repeat_char count_char];
    [reflexivity |]. now rewrite H, IH.
Qed.

Lemma count_char_pad (c a : ascii) (width : nat) (s : string) :
  Ascii.eqb a c = false ->
  count_char c (pad_left a width s) = count_char c s.
Proof.
  intros H. unfold pad_left. now rewrite count_char_app, count_char_repeat.
Qed.

Lemma count_char_uint (c : ascii) (d : Decimal.uint) :
  separator c -> count_char c (NilEmpty.string_of_uint d) = 0%nat.
Proof.
  intros [-> | [-> | ->]]; induction d; cbn; assumption || reflexivity.
Qed.

(** [str] of an integer holds digits and a sign only. *)
Lemma count_char_str_int (c : ascii) (n : Z) :
  separator c -> count_char c (str_int n) = 0%nat.
Proof.
  intros Hc. unfold str_int, NilZero.string_of_int.
  assert (H0 : count_char c "0" = 0%nat)
    by (destruct Hc as [-> | [-> | ->]]; reflexivity).
  assert (Hm : forall s, count_char c (String "-" s) = count_char c s)
    by (intros s; destruct Hc as [-> | [-> | ->]]; reflexivity).
  destruct (Z.to_int n) as [d | d]; rewrite ?Hm; unfold NilZero.string_of_uint;
    destruct d; try exact H0; now apply count_char_uint.
Qed.

Lemma count_char_fixed (c : ascii) (p : nat) (n : Z) :
  separator c -> count_char c (fixed (S p) n) = 0%nat.
Proof.
  intros Hc. unfold fixed. cbv zeta.
  rewrite !count_char_app, count_char_pad, !count_char_str_int by
    (assumption || (destruct Hc as [-> | [-> | ->]]; reflexivity)).
  destruct Hc as [-> | [-> | ->]]; reflexivity.
Qed.

(** A formatted float holds no separator, whatever the float. *)
Lemma count_char_format_f (c : ascii) (p : nat) (x : float) :
  separator c -> count_char c (format_f (S p) x) = 0%nat.
Proof.
  intros Hc. unfold format_f.
  assert (Hs : forall s, count_char c (sign_text s) = 0%nat)
    by (intros [|]; destruct Hc as [-> | [-> | ->]]; reflexivity).
  destruct (Prim2SF x) as [s | s | | s m e];
    rewrite ?count_char_app, ?Hs, ?count_char_fixed by assumption;
    destruct Hc as [-> | [-> | ->]]; reflexivity.
Qed.

Lemma count_char_format_wf (c : ascii) (w p : nat) (x : float) :
  separator c -> count_char c (format_wf w (S p) x) = 0%nat.
Proof.
  intros Hc. unfold format_wf. rewrite count_char_pad.
  - now apply count_char_format_f.
  - destruct Hc as [-> | [-> | ->]]; reflexivity.
Qed.

(** Every record is one line with a fixed number of fields, whatever the
    numbers in it (infinities and NaN included): the only newline is the
    last character; the full format has nine tabs, hence ten fields, and
    the star format four commas, hence five fields. *)
Theorem record_is_one_line (g : Config) (pId : Z) (e : Emission) :
  (exists body,
     record_text g pId e = (body ++ NL)%string /\
     count_char (ascii_of_nat 10) body = 0%nat) /\
  match c_whichOutput g with
  | UseOutput =>
    count_char (ascii_of_nat 9) (record_text g pId e) = 9%nat /\
    count_char ","%char (record_text g pId e) = 0%nat
  | UseOutputStar =>
    count_char ","%char (record_text g pId e) = 4%nat /\
    count_char (ascii_of_nat 9) (record_text g pId e) = 0%nat
  end.
Proof.
  assert (St : separator (ascii_of_nat 9)) by (left; reflexivity).
  assert (Sn : separator (ascii_of_nat 10)) by (right; left; reflexivity).
  assert (Sc : separator ","%char) by (right; right; reflexivity).
  unfold record_text. destruct (c_whichOutput g).
  - unfold Output_text. split; [| split].
    + rewrite <- !string_app_assoc. eexists. split.
      * reflexivity.
      * rewrite !count_char_app, !count_char_format_f, count_char_format_wf,
          count_char_str_int by assumption. reflexivity.
    + rewrite !count_char_app, !count_char_format_f, count_char_format_wf,
        count_char_str_int by assumption. reflexivity.
    + rewrite !count_char_app, !count_char_format_f, count_char_format_wf,
        count_char_str_int by assumption. reflexivity.
  - unfold OutputStar_text. split; [| split].
    + rewrite <- !string_app_assoc. eexists. split.
      * reflexivity.
      * rewrite !count_char_app, !count_char_format_f,
          count_char_str_int by assumption. reflexivity.
    + rewrite !count_char_app, !count_char_format_f,
        count_char_str_int by assumption. reflexivity.
    + rewrite !count_char_app, !count_char_format_f,
        count_char_str_int by assumption. reflexivity.
Qed.

(* ================================================================== *)
(** * The start-time field *)
(* ================================================================== *)

Lemma thousandths_text (x : float) (n : Z) :
  thousandths x n = true ->
  format_f 3 x = fixed 3 n /\ (String.length (fixed 3 n) <= 7)%nat.
Proof.
  unfold thousandths, format_f. rewrite andb_true_iff, Nat.leb_le.
  destruct (Prim2SF x) as [[|] | s | | [|] m e]; intros [H L];
    try discriminate H; apply Z.eqb_eq in H; subst n;
    (split; [reflexivity | exact L]).
Qed.

Lemma string_length_app (s t : string) :
  String.length (s ++ t) = (String.length s + String.length t)%nat.
Proof. induction s as [|a s IH]; cbn; [reflexivity | now rewrite IH]. Qed.

Lemma repeat_char_length (c : ascii) (n : nat) :
  String.length (repeat_char c n) = n.
Proof. induction n as [|n IH]; cbn; [reflexivity | now rewrite IH]. Qed.

Lemma pad_left_length (c : ascii) (width : nat) (s : string) :
  String.length (pad_left c width s) = Nat.max width (String.length s).
Proof.
  unfold pad_left. rewrite string_length_app, repeat_char_length. lia.
Qed.

Lemma thousandths_checked :
  forallb (fun ti => thousandths (Z2F ti / 1000.0) ti)
          (count_from (Z.to_nat 40001) 0 5) = true.
Proof. vm_compute. reflexivity. Qed.

(** The start-time field is exact.  For every time step of the loop as it
    stands ([range(0, 200005, 5)]) the division [ti / 1000.0] and the
    format [{:7.3f}] print the milliseconds [ti] as seconds with three
    decimals, digit for digit, in a field of exactly seven characters. *)
Theorem start_time_is_exact (ti : Z) :
  0 <= ti < 200005 -> ti mod 5 = 0 ->
  truediv ti 1000.0 = Ok (Z2F ti / 1000.0)%float /\
  format_wf 7 3 (Z2F ti / 1000.0) = pad_left " " 7 (fixed 3 ti) /\
  String.length (format_wf 7 3 (Z2F ti / 1000.0)) = 7%nat.
Proof.
  intros Hti Hmod.
  assert (Hin : In ti (count_from (Z.to_nat 40001) 0 5)).
  { rewrite count_from_map. apply in_map_iff. exists (Z.to_nat (ti / 5)).
    split.
    - rewrite Z2Nat.id by (apply Z.div_pos; lia).
      pose proof (Z.div_mod ti 5 ltac:(lia)). lia.
    - apply in_seq. split; [lia |].
      assert (ti / 5 < 40001) by (apply Z.div_lt_upper_bound; lia).
      cbn [Nat.add]. apply Z2Nat.inj_lt; try lia. apply Z.div_pos; lia. }
  pose proof thousandths_checked as Hc. rewrite forallb_forall in Hc.
  destruct (thousandths_text _ _ (Hc ti Hin)) as [Ht Hl].
  split; [apply truediv_1000; unfold float_limit; lia |].
  unfold format_wf. rewrite Ht. split; [reflexivity |].
  rewrite pad_left_length. lia.
Qed.

Lemma start_time_is_exact_2495 :
  truediv 2495 1000.0 = Ok (Z2F 2495 / 1000.0)%float /\
  format_wf 7 3 (Z2F 2495 / 1000.0) = pad_left " " 7 (fixed 3 2495) /\
  String.length (format_wf 7 3 (Z2F 2495 / 1000.0)) = 7%nat.
Proof. apply (start_time_is_exact 2495); [lia | reflexivity]. Defined.

(* ================================================================== *)
(** * The two output formats side by side *)
(* ================================================================== *)

Section Alike.

Variables (f1 f2 : OutputFn) (g : Config).

Lemma alike_ret (p : Z) (w1 w2 : World) :
  twin w1 w2 -> alike f1 f2 g p w1 w2 (Done p w1) (Done p w2).
Proof.
  intros H. exists []. cbn. rewrite !app_nil_r. repeat split; try apply H. lia.
Qed.

Lemma alike_bind (c1 c2 : M Z) (k1 k2 : Z -> M Z) (p : Z) (w1 w2 : World) :
  alike f1 f2 g p w1 w2 (c1 w1) (c2 w2) ->
  (forall p' v1 v2, twin v1 v2 ->
     alike f1 f2 g p' v1 v2 (k1 p' v1) (k2 p' v2)) ->
  alike f1 f2 g p w1 w2 (bind c1 k1 w1) (bind c2 k2 w2).
Proof.
  intros (es & F1 & F2 & T & S1 & E) Hk. unfold bind.
  destruct (c1 w1) as [a1 v1 | e1 v1 | v1], (c2 w2) as [a2 v2 | e2 v2 | v2];
    try contradiction; cbn in F1, F2, T, S1.
  - destruct E as [-> ->].
    destruct (Hk (p + Z.of_nat (List.length es)) v1 v2 T)
      as (fs & G1 & G2 & T' & S' & E').
    exists (es ++ fs). rewrite !render_app, !app_assoc, <- F1, <- F2.
    repeat split; try assumption; try apply T'; try congruence.
    destruct (k1 _ v1), (k2 _ v2); try contradiction; auto.
    destruct E' as [-> ->]. rewrite length_app. split; lia.
  - exists es. cbn. auto.
Qed.

Lemma alike_for_in {A} (xs : list A) (b1 b2 : A -> Z -> M Z) :
  (forall x p v1 v2, In x xs -> twin v1 v2 ->
     alike f1 f2 g p v1 v2 (b1 x p v1) (b2 x p v2)) ->
  forall p w1 w2, twin w1 w2 ->
    alike f1 f2 g p w1 w2 (for_in xs b1 p w1) (for_in xs b2 p w2).
Proof.
  induction xs as [|x xs IH]; intros Hb p w1 w2 T; cbn [for_in].
  - now apply alike_ret.
  - apply alike_bind.
    + apply Hb; [now left | exact T].
    + intros p' v1 v2 T'. apply IH; [| exact T'].
      intros y q u1 u2 Hy. apply Hb. now right.
Qed.

Lemma whichOutput_alike (ti p : Z) (x y z : float) (w1 w2 : World) :
  Z.abs ti < float_limit -> twin w1 w2 ->
  alike f1 f2 g p w1 w2
    (whichOutput (with_output f1 g) ti p [x; y; z] w1)
    (whichOutput (with_output f2 g) ti p [x; y; z] w2).
Proof.
  intros Hti (Td & Tc & Ts). rewrite !whichOutput_Done by assumption.
  exists [mkEmission ti x y z]. cbn. repeat split; auto.
Qed.

Lemma mouth_particle_alike (ti p : Z) (w1 w2 : World) :
  Z.abs ti < float_limit -> twin w1 w2 ->
  alike f1 f2 g p w1 w2
    (mouth_particle (with_output f1 g) ti p w1)
    (mouth_particle (with_output f2 g) ti p w2).
Proof.
  intros Hti (Td & Tc & Ts). unfold mouth_particle.
  rewrite !(bind_Done _ _ _ _ _ (uniform_Done _ _ _)).
  cbn [draws cursor]. rewrite Td, Tc.
  destruct (whichOutput_alike ti p (c_xPln g)
    (c_ymin g + uniform_of 0 (ydel g) (draws w2 (cursor w2)))
    (c_zmin g + uniform_of 0 (zdel g) (draws w2 (S (cursor w2))))
    (mkWorld (draws w1) (S (S (cursor w1))) (file w1) (stdout w1))
    (mkWorld (draws w2) (S (S (cursor w2))) (file w2) (stdout w2)) Hti)
    as (es & H).
  { repeat split; cbn; congruence. }
  exists es. cbn in H. rewrite Td, Tc in H. exact H.
Qed.

(** The rejection loop reads the draws only: on twin worlds it ends the same
    way with the same pair, and never with an exception. *)
Lemma rejection_twin (r : float) (fuel : nat) :
  forall w1 w2, twin w1 w2 ->
  match rejection fuel r w1, rejection fuel r w2 with
  | Done a1 v1, Done a2 v2 =>
    a1 = a2 /\ twin v1 v2 /\ file v1 = file w1 /\ file v2 = file w2 /\
    stdout v1 = stdout w1
  | Running v1, Running v2 =>
    twin v1 v2 /\ file v1 = file w1 /\ file v2 = file w2 /\
    stdout v1 = stdout w1
  | _, _ => False
  end.
Proof.
  induction fuel as [|fuel IH]; intros w1 w2 (Td & Tc & Ts).
  - cbn. repeat split; assumption.
  - rewrite !rejection_S. cbv zeta. rewrite Td, Tc.
    destruct (inside r _ _).
    + repeat split; cbn; congruence.
    + specialize (IH
        (mkWorld (draws w2) (S (S (cursor w2))) (file w1) (stdout w1))
        (mkWorld (draws w2) (S (S (cursor w2))) (file w2) (stdout w2))).
      apply IH. repeat split; cbn; congruence.
Qed.

Lemma nostril_particle_alike (fuel : nat) (ti p : Z) (r : float)
    (m : list (list float)) (w1 w2 : World) :
  Z.abs ti < float_limit -> affine m = true -> twin w1 w2 ->
  alike f1 f2 g p w1 w2
    (nostril_particle fuel (with_output f1 g) ti r m p w1)
    (nostril_particle fuel (with_output f2 g) ti r m p w2).
Proof.
  intros Hti Hm T. unfold nostril_particle.
  pose proof (rejection_twin r fuel w1 w2 T) as H.
  unfold bind at 1 3.
  destruct (rejection fuel r w1) as [a1 v1 | e1 v1 | v1],
           (rejection fuel r w2) as [a2 v2 | e2 v2 | v2]; try contradiction.
  - destruct H as (-> & T' & F1 & F2 & S1).
    destruct (RotTrans_affine m (fst a2) (snd a2) 0.0%float Hm)
      as (a & b & c & Hrt).
    rewrite !(lift_Ok _ _ _ _ Hrt).
    destruct (whichOutput_alike ti p a b c v1 v2 Hti T') as (es & H).
    exists es. rewrite <- F1, <- F2, <- S1. exact H.
  - destruct H as (T' & F1 & F2 & S1). exists []. cbn.
    rewrite !app_nil_r. auto.
Qed.

Lemma GenNostril_alike (fuel : nat) (ti p : Z) (r : float)
    (m : list (list float)) (w1 w2 : World) :
  Z.abs ti < float_limit -> affine m = true -> twin w1 w2 ->
  alike f1 f2 g p w1 w2
    (GenNostril fuel (with_output f1 g) ti r p m w1)
    (GenNostril fuel (with_output f2 g) ti r p m w2).
Proof.
  intros Hti Hm T. unfold GenNostril.
  rewrite !(lift_Ok _ _ _ _ (range_Ok_1 _)).
  cbn [with_output c_nostrilCount].
  apply alike_for_in; [| exact T].
  intros _ q v1 v2 _ T'. now apply nostril_particle_alike.
Qed.

Lemma time_step_alike (fuel : nat) (ti p : Z) (w1 w2 : World) :
  runnable g = true -> Z.abs ti < float_limit -> twin w1 w2 ->
  alike f1 f2 g p w1 w2
    (time_step fuel (with_output f1 g) ti p w1)
    (time_step fuel (with_output f2 g) ti p w2).
Proof.
  intros Hg Hti T.
  destruct (runnable_inv g Hg) as (_ & _ & Hper & Hl & Hr).
  unfold time_step, mod_. cbn [with_output c_cyclePeriod c_exhaleLength
    c_mouthCount c_radius c_leftRotTrans c_rightRotTrans].
  apply Z.eqb_neq in Hper. rewrite Hper.
  rewrite !(lift_Ok _ _ _ _ eq_refl).
  destruct ((0 <=? ti mod c_cyclePeriod g) &&
            (ti mod c_cyclePeriod g <? c_exhaleLength g)).
  - rewrite !(lift_Ok _ _ _ _ (range_Ok_1 _)).
    apply alike_bind.
    + apply alike_for_in; [| exact T].
      intros _ q v1 v2 _ T'. now apply mouth_particle_alike.
    + intros q v1 v2 T'. apply alike_bind.
      * now apply GenNostril_alike.
      * intros q' u1 u2 T''. now apply GenNostril_alike.
  - now apply alike_ret.
Qed.

(** Two runs from the same world, one with each output function. *)
Lemma run_alike (fuel : nat) (w : World) :
  runnable g = true ->
  exists es,
    let o1 := NoseParticleGeneration_with fuel (with_output f1 g) w in
    let o2 := NoseParticleGeneration_with fuel (with_output f2 g) w in
    file (world_of o1) =
      header_lines (with_output f1 g) ++ render (with_output f1 g) 0 es /\
    file (world_of o2) =
      header_lines (with_output f2 g) ++ render (with_output f2 g) 0 es /\
    twin (world_of o1) (world_of o2) /\
    match o1, o2 with
    | Done _ v1, Done _ v2 =>
      stdout v1 = stdout w ++ [summary (Z.of_nat (List.length es))]
    | Running v1, Running v2 => stdout v1 = stdout w
    | _, _ => False
    end.
Proof.
  intros Hg. destruct (runnable_inv g Hg) as (Hstep & _).
  rewrite !run_unfold. cbv zeta. cbn [with_output c_stop c_step].
  rewrite !(range_time_steps _ Hstep).
  set (v1 := mkWorld (draws w) (cursor w) (header_lines (with_output f1 g))
                     (stdout w)).
  set (v2 := mkWorld (draws w) (cursor w) (header_lines (with_output f2 g))
                     (stdout w)).
  assert (T : twin v1 v2) by (repeat split).
  destruct (alike_for_in (time_steps g) (time_step fuel (with_output f1 g))
              (time_step fuel (with_output f2 g))) with (p := 0) (w1 := v1)
              (w2 := v2) as (es & F1 & F2 & T' & S1 & E); [| exact T |].
  - intros ti q u1 u2 Hin Tu. apply time_step_alike; auto.
    now apply time_steps_convertible with g.
  - exists es.
    destruct (for_in _ (time_step fuel (with_output f1 g)) 0 v1)
      as [a1 u1 | e1 u1 | u1],
      (for_in _ (time_step fuel (with_output f2 g)) 0 v2)
      as [a2 u2 | e2 u2 | u2]; try contradiction;
      cbn in F1, F2, T', S1 |- *.
    + destruct E as [-> ->]. destruct T' as (Td & Tc & Ts).
      repeat split; cbn; congruence.
    + auto.
Qed.

End Alike.

Lemma with_output_same (g : Config) : with_output (c_whichOutput g) g = g.
Proof. now destruct g. Qed.

(** The two output functions are interchangeable: from the same state of
    the generator, a run in the full format and a run in the star format
    end the same way, having written the same particles in the same order
    (the star file without the header), drawn the same number of random
    values and printed the same summary. *)
Theorem formats_write_the_same_particles (fuel : nat) (g : Config) (w : World) :
  runnable g = true ->
  exists es,
    let full := NoseParticleGeneration_with fuel (with_output UseOutput g) w in
    let star := NoseParticleGeneration_with fuel (with_output UseOutputStar g) w in
    file (world_of full) =
      header_lines (with_output UseOutput g) ++
      render (with_output UseOutput g) 0 es /\
    file (world_of star) = render (with_output UseOutputStar g) 0 es /\
    cursor (world_of full) = cursor (world_of star) /\
    stdout (world_of full) = stdout (world_of star) /\
    ((exists v1 v2, full = Done tt v1 /\ star = Done tt v2) \/
     (exists v1 v2, full = Running v1 /\ star = Running v2)).
Proof.
  intros Hg.
  destruct (run_alike UseOutput UseOutputStar g fuel w Hg)
    as (es & F1 & F2 & (Td & Tc & Ts) & E).
  exists es. cbv zeta in *.
  repeat (split; [assumption |]).
  destruct (NoseParticleGeneration_with fuel (with_output UseOutput g) w)
    as [[] v1 | e1 v1 | v1],
    (NoseParticleGeneration_with fuel (with_output UseOutputStar g) w)
    as [[] v2 | e2 v2 | v2]; try contradiction; [left | right]; eauto.
Qed.

Lemma formats_write_the_same_particles_default :
  exists es,
    let full := NoseParticleGeneration_with 1 (with_output UseOutput default) steady in
    let star := NoseParticleGeneration_with 1 (with_output UseOutputStar default) steady in
    file (world_of full) =
      header_lines (with_output UseOutput default) ++
      render (with_output UseOutput default) 0 es /\
    file (world_of star) = render (with_output UseOutputStar default) 0 es /\
    cursor (world_of full) = cursor (world_of star) /\
    stdout (world_of full) = stdout (world_of star) /\
    ((exists v1 v2, full = Done tt v1 /\ star = Done tt v2) \/
     (exists v1 v2, full = Running v1 /\ star = Running v2)).
Proof.
  apply (formats_write_the_same_particles 1 default steady).
  vm_compute. reflexivity.
Defined.

(** With loop constants that let the loop run, a transform of three rows
    of four entries each and a stop value a float can hold, no run ends in
    an exception, whatever the random values and the geometry: it ends
    normally or is still drawing candidates for a nostril. *)
Theorem runnable_run_never_raises (fuel : nat) (g : Config) (w : World) :
  runnable g = true ->
  (exists w', NoseParticleGeneration_with fuel g w = Done tt w') \/
  (exists w', NoseParticleGeneration_with fuel g w = Running w').
Proof.
  intros Hg.
  destruct (run_alike (c_whichOutput g) (c_whichOutput g) g fuel w Hg)
    as (es & _ & _ & _ & E).
  cbv zeta in E. rewrite with_output_same in E.
  destruct (NoseParticleGeneration_with fuel g w) as [[] v | e v | v];
    try contradiction; [left | right]; eauto.
Qed.

Lemma runnable_run_never_raises_default :
  (exists w', NoseParticleGeneration_with 0 default steady = Done tt w') \/
  (exists w', NoseParticleGeneration_with 0 default steady = Running w').
Proof.
  apply (runnable_run_never_raises 0 default steady).
  vm_compute. reflexivity.
Defined.

(** Loop constants the loop cannot run with make the run fail before any
    record is written, the file holding the header only: a step of zero
    raises [ValueError] when the range is built, and a cycle period of zero
    raises [ZeroDivisionError] at the first time step. *)
Theorem bad_loop_constants_fail_at_once (fuel : nat) (g : Config) (w : World) :
  (c_step g = 0 ->
   NoseParticleGeneration_with fuel g w =
   Raise ValueError
     (mkWorld (draws w) (cursor w) (header_lines g) (stdout w))) /\
  (c_step g <> 0 -> time_steps g <> [] -> c_cyclePeriod g = 0 ->
   NoseParticleGeneration_with fuel g w =
   Raise ZeroDivisionError
     (mkWorld (draws w) (cursor w) (header_lines g) (stdout w))).
Proof.
  split.
  - intros Hs. rewrite run_unfold. cbv zeta. unfold range. now rewrite Hs.
  - intros Hs Hne Hp. rewrite run_unfold. cbv zeta.
    rewrite (range_time_steps g Hs).
    destruct (time_steps g) as [|ti tis]; [now elim Hne |].
    cbn [for_in]. unfold bind at 1, time_step, mod_. rewrite Hp.
    reflexivity.
Qed.

Lemma bad_loop_constants_fail_at_once_default :
  NoseParticleGeneration_with 0 (with_loop 0 5000) steady =
    Raise ValueError
      (mkWorld (draws steady) (cursor steady)
               (header_lines (with_loop 0 5000)) (stdout steady)) /\
  NoseParticleGeneration_with 0 (with_loop 5 0) steady =
    Raise ZeroDivisionError
      (mkWorld (draws steady) (cursor steady)
               (header_lines (with_loop 5 0)) (stdout steady)).
Proof.
  split.
  - apply (proj1 (bad_loop_constants_fail_at_once 0 (with_loop 0 5000) steady)).
    reflexivity.
  - apply (proj2 (bad_loop_constants_fail_at_once 0 (with_loop 5 0) steady)).
    + discriminate.
    + intros H. apply (f_equal (@List.length Z)) in H.
      unfold time_steps in H. rewrite length_map, length_seq in H.
      apply (f_equal Z.of_nat) in H.
      rewrite Z2Nat.id in H by (vm_compute; discriminate).
      vm_compute in H. discriminate H.
    + reflexivity.
Defined.
